(** * golden: normalisation and comparison against golden files

    A shallow embedding of [golden_files.go] (package [golden]) together
    with the library functions it calls: Go's [regexp] (leftmost-first
    matching, [FindAllString], [ReplaceAllString]), [strings.Replace],
    [fmt.Sprintf] with the verb [%012d], and [uuid.FromString] /
    [UUID.String] of the satori UUID package.

    Go strings are byte sequences; a text is a list of [ascii] (one
    [ascii] per byte).  All patterns of the program are ASCII and start
    with an ASCII class, so matching byte by byte agrees with Go's
    matching rune by rune. *)

From Stdlib Require Import List Ascii String NArith Arith Lia Bool DecimalString.
From stdpp Require Import base option list gmap strings sorting.

Local Open Scope list_scope.
Local Open Scope nat_scope.

Abbreviation text := (list ascii).

(** A string literal of the source as a text. *)
Definition T (s : string) : text := list_ascii_of_string s.

(** ** Errors

    Go's [error] values: the leaf errors of the libraries, and
    [fmt.Errorf] with or without a wrapped cause ([%w]).  [ErrorfDiff] is
    [fmt.Errorf] with a path and the diff of two texts as its operands; the
    error holds the two texts, and the diff is rendered with the message. *)

Inductive errno := ENOENT | ENOTDIR | EISDIR.

Inductive error :=
| UUIDIncorrectLength (input : text)
| UUIDIncorrectFormat (input : text)
| HexInvalidByte (c : ascii)
| PathError (op : string) (path : list text) (e : errno)
| GetwdError
| MarshalError
| NilError
| Errorf (format : text) (args : list text)
| ErrorfW (format : text) (args : list text) (cause : error)
| ErrorfDiff (format : text) (path : text) (expected actual : text).

Inductive result (A : Type) :=
| Ok (a : A)
| Err (e : error).
Arguments Ok {A} a.
Arguments Err {A} e.

(** The error monad, with stdpp's notation [x ← r; k]. *)
#[global] Instance result_ret : MRet result := λ A a, Ok a.
#[global] Instance result_bind : MBind result := λ A B f r,
  match r with
  | Ok a => f a
  | Err e => Err e
  end.

(** [wrap format args r]: the idiom
    [if err != nil { return fmt.Errorf(format, args..., err) }], where the
    last verb of [format] is [%w]. *)
Definition wrap {A} (format : string) (args : list text) (r : result A) : result A :=
  match r with
  | Ok a => Ok a
  | Err e => Err (ErrorfW (T format) args e)
  end.

(** ** Regular expressions (package [regexp]) *)

Module regexp.

(** An item of a bracket expression: a range [lo-hi] or one character. *)
Inductive item :=
| Range (lo hi : ascii)
| Single (c : ascii).

Definition item_mem (c : ascii) (i : item) : bool :=
  match i with
  | Range lo hi => (N_of_ascii lo <=? N_of_ascii c)%N && (N_of_ascii c <=? N_of_ascii hi)%N
  | Single d => Ascii.eqb c d
  end.

Definition class_mem (cl : list item) (c : ascii) : bool :=
  existsb (item_mem c) cl.

(** The fragment of the syntax the program's patterns use.  Repetition
    with [+] only occurs on bracket expressions; groups do not change
    what is matched and are not represented. *)
Inductive re :=
| Eps
| Lit (c : ascii)
| Cls (cl : list item)
| Cat (r1 r2 : re)
| Alt (r1 r2 : re)
| Opt (r : re)
| Plus (cl : list item).

(** [r{n}] *)
Fixpoint Rep (n : nat) (r : re) : re :=
  match n with
  | 0 => Eps
  | S n' => Cat r (Rep n' r)
  end.

(** A literal string. *)
Fixpoint Str (s : text) : re :=
  match s with
  | [] => Eps
  | c :: s' => Cat (Lit c) (Str s')
  end.

Fixpoint Seq (rs : list re) : re :=
  match rs with
  | [] => Eps
  | r :: rs' => Cat r (Seq rs')
  end.

(** [a|b|...]; the empty alternation is not used. *)
Fixpoint Alts (r : re) (rs : list re) : re :=
  match rs with
  | [] => r
  | r' :: rs' => Alt r (Alts r' rs')
  end.

(** Greedy [cl+] followed by the continuation [k]: the longest run is
    tried first, then shorter ones. *)
Fixpoint plus (cl : list item) (s : text) (k : text → option text) : option text :=
  match s with
  | [] => None
  | c :: s' =>
      if class_mem cl c then
        match plus cl s' k with
        | Some rest => Some rest
        | None => k s'
        end
      else None
  end.

(** Backtracking matcher in continuation-passing style.  [exec r s k]
    matches a prefix of [s] against [r] and hands the remaining text to
    [k]; alternatives are explored in the order of preference of Go's
    leftmost-first semantics ([r1] before [r2], one before none, more
    before fewer). *)
Fixpoint exec (r : re) (s : text) (k : text → option text) : option text :=
  match r with
  | Eps => k s
  | Lit c =>
      match s with
      | d :: s' => if Ascii.eqb d c then k s' else None
      | [] => None
      end
  | Cls cl =>
      match s with
      | d :: s' => if class_mem cl d then k s' else None
      | [] => None
      end
  | Cat r1 r2 => exec r1 s (fun s' => exec r2 s' k)
  | Alt r1 r2 =>
      match exec r1 s k with
      | Some rest => Some rest
      | None => exec r2 s k
      end
  | Opt r1 =>
      match exec r1 s k with
      | Some rest => Some rest
      | None => k s
      end
  | Plus cl => plus cl s k
  end.

(** The preferred match of [r] starting at the first byte of [s]: its
    length. *)
Definition match_at (r : re) (s : text) : option nat :=
  match exec r s Some with
  | Some rest => Some (length s - length rest)
  | None => None
  end.

(** The scan shared by [FindAllStringIndex], [FindAllString] and
    [ReplaceAllString] (all with no limit): the leftmost match, then the
    leftmost match after its end, and so on.  [pos] is the offset of the
    head of [s] in the text, [skip] counts the bytes of the current match
    still to be passed over.  An empty match is treated as no match; no
    pattern of the program matches the empty text. *)
Fixpoint find_from (r : re) (s : text) (skip pos : nat) : list (nat * text) :=
  match s with
  | [] => []
  | c :: s' =>
      match skip with
      | S n => find_from r s' n (S pos)
      | 0 =>
          match match_at r s with
          | Some (S n) => (pos, take (S n) s) :: find_from r s' n (S pos)
          | _ => find_from r s' 0 (S pos)
          end
      end
  end.

(** The matches with the offsets at which they start. *)
Definition FindAllStringIndex (r : re) (s : text) : list (nat * text) :=
  find_from r s 0 0.

Definition FindAllString (r : re) (s : text) : list text :=
  map snd (FindAllStringIndex r s).

Fixpoint replace_from (r : re) (repl : text) (s : text) (skip : nat) : text :=
  match s with
  | [] => []
  | c :: s' =>
      match skip with
      | S n => replace_from r repl s' n
      | 0 =>
          match match_at r s with
          | Some (S n) => repl ++ replace_from r repl s' n
          | _ => c :: replace_from r repl s' 0
          end
      end
  end.

(** [ReplaceAllString] with a replacement that has no [$]. *)
Definition ReplaceAllString (r : re) (s repl : text) : text :=
  replace_from r repl s 0.

End regexp.

(** ** [strings.Replace] with [n = -1] and a non-empty [old] *)

Module strings.

Fixpoint HasPrefix (s prefix : text) : bool :=
  match prefix, s with
  | [], _ => true
  | p :: prefix', c :: s' => Ascii.eqb c p && HasPrefix s' prefix'
  | _ :: _, [] => false
  end.

Fixpoint replace_from (old new : text) (s : text) (skip : nat) : text :=
  match s with
  | [] => []
  | c :: s' =>
      match skip with
      | S n => replace_from old new s' n
      | 0 =>
          if HasPrefix s old
          then new ++ replace_from old new s' (length old - 1)
          else c :: replace_from old new s' 0
      end
  end.

(** Every non-overlapping instance of [old], from the left. *)
Definition Replace (s old new : text) : text := replace_from old new s 0.

End strings.

(** ** [fmt.Sprintf("%012d", n)] for a non-negative [n] *)

Module fmt.

(** The loop of [fmtInteger]: the digits are written from the least
    significant one, in front of those already written, until the
    quotient by ten is zero.  [fuel] bounds the number of digits. *)
Fixpoint digits (fuel n : nat) (acc : text) : text :=
  match fuel with
  | 0 => acc
  | S fuel' =>
      let acc' := ascii_of_nat (48 + n mod 10) :: acc in
      if n / 10 =? 0 then acc' else digits fuel' (n / 10) acc'
  end.

(** The decimal digits of [n], most significant first. *)
Definition decimal (n : nat) : text := digits (S n) n [].

(** Width 12, padded with zeros on the left; a longer number is not cut. *)
Definition pad012d (n : nat) : text :=
  let d := decimal n in
  replicate (12 - length d) "0"%char ++ d.

End fmt.

(** ** The UUID package (satori)

    Modelled from the library: a [UUID] is an array of 16 bytes;
    [FromString] on a text of 36 bytes decodes the canonical form (hyphens
    at offsets 8, 13, 18 and 23, hexadecimal digits of either case
    elsewhere, decoded by [encoding/hex]); [String] prints the canonical
    form with lower-case digits.  The other textual forms [FromString]
    accepts (32, 38, 41 or 45 bytes) are never passed by this program and
    are rejected here with the length error. *)

Module uuid.

Abbreviation UUID := (list N).

(** [encoding/hex]: the value of one digit. *)
Definition fromHexChar (c : ascii) : option N :=
  let n := N_of_ascii c in
  if (48 <=? n)%N && (n <=? 57)%N then Some (n - 48)%N
  else if (97 <=? n)%N && (n <=? 102)%N then Some (n - 97 + 10)%N
  else if (65 <=? n)%N && (n <=? 70)%N then Some (n - 65 + 10)%N
  else None.

(** [hex.Decode] on a source of even length. *)
Fixpoint hexDecode (src : text) : result (list N) :=
  match src with
  | a :: b :: src' =>
      match fromHexChar a, fromHexChar b with
      | Some hi, Some lo =>
          match hexDecode src' with
          | Ok bs => Ok ((hi * 16 + lo)%N :: bs)
          | Err e => Err e
          end
      | None, _ => Err (HexInvalidByte a)
      | _, None => Err (HexInvalidByte b)
      end
  | [c] => Err (HexInvalidByte c)
  | [] => Ok []
  end.

Definition hextable : text := T "0123456789abcdef".

Definition hexDigit (n : N) : ascii := nth (N.to_nat n) hextable "0"%char.

(** [hex.Encode] *)
Definition hexEncode (bs : list N) : text :=
  flat_map (fun b => [hexDigit (N.shiftr b 4); hexDigit (N.land b 15)]) bs.

Definition byteGroups : list nat := [8; 4; 4; 4; 12].

(** [decodeCanonical]: the five groups, each after the first preceded by
    a dash that is skipped. *)
Definition decodeCanonical (t : text) : result UUID :=
  if negb (bool_decide (t !! 8 = Some "-"%char ∧ t !! 13 = Some "-"%char
                        ∧ t !! 18 = Some "-"%char ∧ t !! 23 = Some "-"%char))
  then Err (UUIDIncorrectFormat t)
  else
    g1 ← hexDecode (take 8 t);
    g2 ← hexDecode (take 4 (drop 9 t));
    g3 ← hexDecode (take 4 (drop 14 t));
    g4 ← hexDecode (take 4 (drop 19 t));
    g5 ← hexDecode (take 12 (drop 24 t));
    Ok (g1 ++ g2 ++ g3 ++ g4 ++ g5).

Definition FromString (input : text) : result UUID :=
  if length input =? 36 then decodeCanonical input
  else Err (UUIDIncorrectLength input).

(** [UUID.String]: 8-4-4-4-12 lower-case digits. *)
Definition String (u : UUID) : text :=
  hexEncode (take 4 u) ++ T "-" ++ hexEncode (take 2 (drop 4 u)) ++ T "-"
  ++ hexEncode (take 2 (drop 6 u)) ++ T "-" ++ hexEncode (take 2 (drop 8 u))
  ++ T "-" ++ hexEncode (drop 10 u).

End uuid.

(** ** Package [golden]: finding and replacing UUIDs and times *)

Import regexp.

Definition digit : list item := [Range "0" "9"].
Definition hexdigit : list item := [Range "0" "9"; Range "a" "f"; Range "A" "F"].

(** ["[0-9a-fA-F]{8}-[0-9a-fA-F]{4}-[1-5][0-9a-fA-F]{3}-[89abAB][0-9a-fA-F]{3}-[0-9a-fA-F]{12}"] *)
Definition uuidRegexp : re :=
  Seq [ Rep 8 (Cls hexdigit); Lit "-";
        Rep 4 (Cls hexdigit); Lit "-";
        Cls [Range "1" "5"]; Rep 3 (Cls hexdigit); Lit "-";
        Cls [Single "8"; Single "9"; Single "a"; Single "b"; Single "A"; Single "B"];
        Rep 3 (Cls hexdigit); Lit "-";
        Rep 12 (Cls hexdigit) ].

(** The loop of [findUUIDs] over the matches: [uniqIDs] is the map used as
    a set, [res] the slice appended to. *)
Fixpoint findUUIDs_loop (matches : list text) (uniqIDs : gset uuid.UUID)
    (res : list uuid.UUID) : result (list uuid.UUID) :=
  match matches with
  | [] => Ok res
  | uuidStr :: matches' =>
      ID ← wrap "failed to parse UUID %q: %w" [uuidStr] (uuid.FromString uuidStr);
      if bool_decide (ID ∈ uniqIDs)
      then findUUIDs_loop matches' uniqIDs res
      else findUUIDs_loop matches' ({[ID]} ∪ uniqIDs) (res ++ [ID])
  end.

(** [findUUIDs]: the unique UUIDs found in [str], in the order in which
    they are found. *)
Definition findUUIDs (str : text) : result (list uuid.UUID) :=
  findUUIDs_loop (FindAllString uuidRegexp str) ∅ [].

(** [fmt.Sprintf("00000000-0000-0000-0000-%012d", n)] *)
Definition replacementPattern (n : nat) : text :=
  T "00000000-0000-0000-0000-" ++ fmt.pad012d n.

(** The loop of [replaceUUIDs]: [idx] is the index of the head of [ids]. *)
Fixpoint replaceUUIDs_loop (idx : nat) (ids : list uuid.UUID) (newStr : text) : text :=
  match ids with
  | [] => newStr
  | id :: ids' =>
      replaceUUIDs_loop (S idx) ids'
        (strings.Replace newStr (uuid.String id) (replacementPattern (idx + 1)))
  end.

Definition replaceUUIDs (str : text) : result text :=
  ids ← wrap "failed to find UUIDs in string %q: %w" [str] (findUUIDs str);
  Ok (replaceUUIDs_loop 0 ids str).

(** The pattern for RFC3339 times, built as in [replaceTimes] from the
    variables of the same names. *)
Module rfc3339.
Definition year : re := Plus digit.
Definition month : re :=
  Alt (Cat (Lit "0") (Cls [Range "1" "9"]))
      (Cat (Lit "1") (Cls [Single "0"; Single "1"; Single "2"])).
Definition day : re :=
  Alts (Cat (Lit "0") (Cls [Range "1" "9"]))
       [Cat (Cls [Single "1"; Single "2"]) (Cls digit);
        Cat (Lit "3") (Cls [Single "0"; Single "1"])].
Definition datePattern : re := Seq [year; Lit "-"; month; Lit "-"; day].

Definition hour : re :=
  Alt (Cat (Cls [Single "0"; Single "1"]) (Cls digit))
      (Cat (Lit "2") (Cls [Range "0" "3"])).
Definition minute : re := Cat (Cls [Range "0" "5"]) (Cls digit).
Definition second : re :=
  Alt (Cat (Cls [Range "0" "5"]) (Cls digit)) (Str (T "60")).
Definition subSecond : re := Opt (Cat (Lit ".") (Plus digit)).
Definition timePattern : re :=
  Seq [hour; Lit ":"; minute; Lit ":"; second; subSecond].

(** ["(([Zz])|([\\+|\\-]([01][0-9]|2[0-3]):[0-5][0-9]))"]: the bracket
    expression of the sign holds [+], [|] and [-]. *)
Definition timeZoneOffset : re :=
  Alt (Cls [Single "Z"; Single "z"])
      (Seq [Cls [Single "+"; Single "|"; Single "-"];
            Alt (Cat (Cls [Single "0"; Single "1"]) (Cls digit))
                (Cat (Lit "2") (Cls [Range "0" "3"]));
            Lit ":"; Cls [Range "0" "5"]; Cls digit]).

Definition pattern : re :=
  Seq [datePattern; Cls [Single "T"; Single "t"]; timePattern; timeZoneOffset].
End rfc3339.

Definition rfc3339Pattern : re := rfc3339.pattern.

(** The pattern for RFC7232 last-modified times, built as in
    [replaceTimes] from the variables it assigns anew. *)
Module rfc7232.
Definition dayName : re :=
  Alts (Str (T "Mon"))
       (map (fun s => Str (T s)) ["Tue"; "Wed"; "Thu"; "Fri"; "Sat"; "Sun"]%string).
Definition day : re := Rep 2 (Cls digit).
Definition month : re :=
  Alts (Str (T "Jan"))
       (map (fun s => Str (T s))
          ["Feb"; "Mar"; "Apr"; "May"; "Jun"; "Jul"; "Aug"; "Sep"; "Oct"; "Nov"; "Dec"]%string).
Definition year : re := Rep 4 (Cls digit).
Definition hour : re :=
  Alt (Cat (Cls [Single "0"; Single "1"]) (Cls digit))
      (Cat (Lit "2") (Cls [Range "0" "3"])).
Definition minute : re := Cat (Cls [Range "0" "5"]) (Cls digit).
Definition second : re :=
  Alt (Cat (Cls [Range "0" "5"]) (Cls digit)) (Str (T "60")).
Definition tz : re :=
  Alts (Str (T "GMT"))
       [Str (T "CEST"); Str (T "UTC"); Str (T "IST"); Plus [Range "A" "Z"]].
Definition pattern : re :=
  Seq [dayName; Str (T ", "); day; Lit " "; month; Lit " "; year; Lit " ";
       hour; Lit ":"; minute; Lit ":"; second; Lit " "; tz].
End rfc7232.

Definition lastModifiedPattern : re := rfc7232.pattern.

Definition rfc3339Default : text := T "0001-01-01T00:00:00Z".
Definition lastModifiedDefault : text := T "Mon, 01 Jan 0001 00:00:00 GMT".

Definition replaceTimes (str : text) : result text :=
  let res := ReplaceAllString rfc3339Pattern str rfc3339Default in
  Ok (ReplaceAllString lastModifiedPattern res lastModifiedDefault).


(** ** Paths and files ([path/filepath], [os], [io/ioutil])

    An absolute, cleaned path is the list of its components; the root is
    the empty list.  Permissions, symbolic links and volume names are not
    modelled. *)

Module filepath.

(** The components of a path between its separators. *)
Fixpoint split (s : text) (cur : text) : list text :=
  match s with
  | [] => [cur]
  | c :: s' => if Ascii.eqb c "/" then cur :: split s' [] else split s' (cur ++ [c])
  end.

(** [Clean] on a rooted path: empty and [.] components are dropped, [..]
    removes the component before it, and is dropped at the root. *)
Definition clean_step (acc : list text) (c : text) : list text :=
  if bool_decide (c = [] ∨ c = T ".") then acc
  else if bool_decide (c = T "..") then removelast acc
  else acc ++ [c].

Definition clean_rooted (comps : list text) : list text :=
  fold_left clean_step comps [].

Definition IsAbs (p : text) : bool := strings.HasPrefix p (T "/").

(** [Abs]: a relative path is joined to the working directory, which the
    process may fail to determine. *)
Definition Abs (cwd : option (list text)) (p : text) : result (list text) :=
  if IsAbs p then Ok (clean_rooted (split p []))
  else match cwd with
       | Some wd => Ok (clean_rooted (wd ++ split p []))
       | None => Err GetwdError
       end.

Definition Dir (p : list text) : list text := removelast p.

(** The path as the string the program prints. *)
Definition toString (p : list text) : text :=
  match p with
  | [] => T "/"
  | _ => flat_map (fun c => "/"%char :: c) p
  end.

End filepath.

Inductive node :=
| File (data : text)
| Directory.

(** What the process sees of its environment: its working directory and
    the file system. *)
Record world := World {
  cwd : option (list text);
  files : gmap (list text) node
}.

Module os.

Definition lookup (p : list text) (w : world) : option node :=
  match p with
  | [] => Some Directory
  | _ => files w !! p
  end.

(** Whether a regular file stands at a path above [p]: such a path cannot
    be resolved ([ENOTDIR]). *)
Definition isFile (q : list text) (w : world) : bool :=
  match files w !! q with
  | Some (File _) => true
  | _ => false
  end.

Definition fileAbove (p : list text) (w : world) : bool :=
  existsb (λ k, isFile (take k p) w) (seq 0 (length p)).

(** [MkdirAll], on the path given by its components in reverse: nothing
    to do for a directory, an error for a file, otherwise the parent
    first and then the directory itself. *)
Fixpoint mkdirAll_rev (rp : list text) (fs : gmap (list text) node)
    : result (gmap (list text) node) :=
  match rp with
  | [] => Ok fs
  | _ :: rp' =>
      match fs !! rev rp with
      | Some Directory => Ok fs
      | Some (File _) => Err (PathError "mkdir" (rev rp) ENOTDIR)
      | None =>
          fs' ← mkdirAll_rev rp' fs;
          Ok (<[rev rp := Directory]> fs')
      end
  end.

Definition MkdirAll (p : list text) (w : world) : result world :=
  fs' ← mkdirAll_rev (rev p) (files w);
  Ok (World (cwd w) fs').

End os.

Module ioutil.

(** [ReadFile]: below a regular file the path is not resolved
    ([ENOTDIR]); otherwise the file has to exist ([ENOENT]) and not to be
    a directory. *)
Definition ReadFile (p : list text) (w : world) : result text :=
  if os.fileAbove p w then Err (PathError "open" p ENOTDIR)
  else match os.lookup p w with
       | Some (File data) => Ok data
       | Some Directory => Err (PathError "read" p EISDIR)
       | None => Err (PathError "open" p ENOENT)
       end.

(** [WriteFile]: creates or truncates the file; its directory has to
    exist, and no regular file may stand above it. *)
Definition WriteFile (p : list text) (data : text) (w : world) : result world :=
  if os.fileAbove p w then Err (PathError "open" p ENOTDIR)
  else match os.lookup p w with
       | Some Directory => Err (PathError "open" p EISDIR)
       | _ =>
           match os.lookup (filepath.Dir p) w with
           | Some Directory => Ok (World (cwd w) (<[p := File data]> (files w)))
           | Some (File _) => Err (PathError "open" p ENOTDIR)
           | None => Err (PathError "open" p ENOENT)
           end
       end.

End ioutil.

(** ** The comparison *)

Record CompareOptions := {
  UUIDAgnostic : bool;
  DateTimeAgnostic : bool;
  MarshalInputAsJSON : bool
}.

(** The dynamic type of the object, as the type switch sees it. *)
Inductive dynamic :=
| Bytes (b : text)
| GoString (s : text)
| Stringer (str : text)
| Other.

(** The object passed as [interface{}]: its dynamic type and what
    [json.MarshalIndent(actualObj, "", "  ")] returns for it. *)
Record object := {
  dyn : dynamic;
  MarshalIndent : result text
}.

(** The program in its environment: a state and error monad. *)
Definition io (A : Type) : Type := world → world * result A.

#[global] Instance io_ret : MRet io := λ A a w, (w, Ok a).
#[global] Instance io_bind : MBind io := λ A B f m w,
  match m w with
  | (w', Ok a) => f a w'
  | (w', Err e) => (w', Err e)
  end.

(** A step that does not change the world. *)
Definition pure {A} (r : result A) : io A := λ w, (w, r).

(** A step that reads the world. *)
Definition reading {A} (f : world → result A) : io A := λ w, (w, f w).

(** A step that changes the world when it succeeds. *)
Definition writing (f : world → result world) : io unit := λ w,
  match f w with
  | Ok w' => (w', Ok ())
  | Err e => (w, Err e)
  end.

Definition LF : ascii := "010"%char.

(** The serialisation of the object, lines 64 to 82. *)
Definition serialize (actualObj : object) (opts : CompareOptions) : result text :=
  if MarshalInputAsJSON opts
  then wrap "failed to marshal actual object: %w" [] (MarshalIndent actualObj)
  else match dyn actualObj with
       | Bytes t => Ok t
       | GoString t => Ok t
       | Stringer t => Ok t
       | Other =>
           Err (ErrorfW
                  (T "don't know how to convert type of object %[1]T to string: %+[1]v (consider enabling MarshalInputAsJSON option): %w")
                  [] NilError)
       end.

(** Both replacements, each when its option is set: lines 90 to 104,
    and again lines 115 to 136 on each of the two texts. *)
Definition normalize (opts : CompareOptions) (str : text) : result text :=
  tmp ← (if UUIDAgnostic opts
         then wrap "failed to replace UUIDs with more generic ones: %w" [] (replaceUUIDs str)
         else Ok str);
  if DateTimeAgnostic opts
  then wrap "failed to replace RFC3339 times with default time: %w" [] (replaceTimes tmp)
  else Ok tmp.

(** The update of the golden file, lines 83 to 109. *)
Definition updateGolden (absPath : list text) (actual : text) (opts : CompareOptions)
    : io unit :=
  writing (λ w, wrap "failed to create directory (and potential parents dirs) to write golden file to: %w" []
                  (os.MkdirAll (filepath.Dir absPath) w));;
  tmp ← pure (normalize opts actual);
  writing (λ w, wrap "failed to update golden file %q: %w" [filepath.toString absPath]
                  (ioutil.WriteFile absPath tmp w)).

(** Lines 141 to 143. *)
Definition mismatch (absPath : list text) (expectedStr actualStr : text) : error :=
  ErrorfDiff (T "mismatch of actual output and golden-file %q:" ++ [LF] ++ T " %s " ++ [LF])
             (filepath.toString absPath) expectedStr actualStr.

Definition testableCompareWithGolden (update : bool) (goldenFile : text)
    (actualObj : object) (opts : CompareOptions) : io unit :=
  absPath ← reading (λ w, wrap "failed to get abosolute path for %q: %w" [goldenFile]
                            (filepath.Abs (cwd w) goldenFile));
  actual ← pure (serialize actualObj opts);
  (if update then updateGolden absPath actual opts else mret ());;
  expected ← reading (λ w, wrap "failed to read golden file %q: %w" [filepath.toString absPath]
                             (ioutil.ReadFile absPath w));
  expectedStr ← pure
    (if UUIDAgnostic opts
     then wrap "failed to replace UUIDs with more generic ones: %w" [] (replaceUUIDs expected)
     else Ok expected);
  actualStr ← pure
    (if UUIDAgnostic opts
     then wrap "failed to replace UUIDs with more generic ones: %w" [] (replaceUUIDs actual)
     else Ok actual);
  expectedStr ← pure
    (if DateTimeAgnostic opts
     then wrap "failed to replace RFC3339 times with default time: %w" [] (replaceTimes expectedStr)
     else Ok expectedStr);
  actualStr ← pure
    (if DateTimeAgnostic opts
     then wrap "failed to replace RFC3339 times with default time: %w" [] (replaceTimes actualStr)
     else Ok actualStr);
  if bool_decide (expectedStr = actualStr) then mret ()
  else pure (Err (mismatch absPath expectedStr actualStr)).

(** [*testing.T], as far as the program uses it: whether the test has
    failed, and what it has logged. *)
Record testingT := {
  failed : bool;
  logged : list error
}.

(** [t.Fatal(err)]: the error is logged, the test is marked as failed,
    and its function stops. *)
Definition Fatal (err : error) (t : testingT) : testingT :=
  {| failed := true; logged := logged t ++ [err] |}.

(** [CompareWithGolden], given the value of the flag [-update].  The
    boolean of the result tells whether the test function goes on after
    the call. *)
Definition CompareWithGolden (updateGoldenFiles : bool) (t : testingT) (goldenFile : text)
    (actualObj : object) (opts : CompareOptions) (w : world) : world * testingT * bool :=
  match testableCompareWithGolden updateGoldenFiles goldenFile actualObj opts w with
  | (w', Err err) => (w', Fatal err t, false)
  | (w', Ok _) => (w', t, true)
  end.

(** ** Messages ([fmt.Sprintf], [Error]) *)

Section Messages.

(** [strconv.Quote], which the verb [%q] applies to a string. *)
Variable Quote : text → text.

(** [dmp.DiffPrettyText(dmp.DiffMain(expected, actual, false))] of the
    diffmatchpatch package. *)
Variable DiffPrettyText : text → text → text.

(** [Sprintf] for formats whose verbs are [%q], [%s] and [%w] applied to
    texts, and [%%]. *)
Fixpoint Sprintf (format : text) (args : list text) : text :=
  match format with
  | [] => []
  | c :: format' =>
      if Ascii.eqb c "%" then
        match format' with
        | v :: format'' =>
            if Ascii.eqb v "%" then "%"%char :: Sprintf format'' args
            else match args with
                 | a :: args' =>
                     (if Ascii.eqb v "q" then Quote a else a) ++ Sprintf format'' args'
                 | [] => T "%!" ++ [v] ++ T "(MISSING)" ++ Sprintf format'' []
                 end
        | [] => T "%!(NOVERB)"
        end
      else c :: Sprintf format' args
  end.

(** The message of the error of a mismatch. *)
Definition mismatchMessage (e : error) : option text :=
  match e with
  | ErrorfDiff format path expected actual =>
      Some (Sprintf format [path; DiffPrettyText expected actual])
  | _ => None
  end.

End Messages.

(** ** The properties, in the words of the specification *)

(** The texts a pattern denotes. *)
Inductive matches : re → text → Prop :=
| matches_eps : matches Eps []
| matches_lit c : matches (Lit c) [c]
| matches_cls cl c : class_mem cl c = true → matches (Cls cl) [c]
| matches_cat r1 r2 m1 m2 :
    matches r1 m1 → matches r2 m2 → matches (Cat r1 r2) (m1 ++ m2)
| matches_alt_l r1 r2 m : matches r1 m → matches (Alt r1 r2) m
| matches_alt_r r1 r2 m : matches r2 m → matches (Alt r1 r2) m
| matches_opt_some r m : matches r m → matches (Opt r) m
| matches_opt_none r : matches (Opt r) []
| matches_plus cl c m :
    class_mem cl c = true → Forall (λ d, class_mem cl d = true) m →
    matches (Plus cl) (c :: m).


(** A pattern without alternatives: one class for each byte it matches. *)
Fixpoint classes (r : re) : option (list (list item)) :=
  match r with
  | Eps => Some []
  | Lit c => Some [[Single c]]
  | Cls cl => Some [cl]
  | Cat r1 r2 =>
      match classes r1, classes r2 with
      | Some c1, Some c2 => Some (c1 ++ c2)
      | _, _ => None
      end
  | _ => None
  end.

(** [fits cls s]: the first bytes of [s] are in the classes [cls], one by
    one. *)
Fixpoint fits (cls : list (list item)) (s : text) : bool :=
  match cls, s with
  | [], _ => true
  | cl :: cls', c :: s' => class_mem cl c && fits cls' s'
  | _ :: _, [] => false
  end.

Definition dash : list item := [Single "-"].

(** The classes of the UUID pattern, byte by byte. *)
Definition uuidClasses : list (list item) :=
  replicate 8 hexdigit ++ [dash] ++ replicate 4 hexdigit ++ [dash]
  ++ [[Range "1" "5"]] ++ replicate 3 hexdigit ++ [dash]
  ++ [[Single "8"; Single "9"; Single "a"; Single "b"; Single "A"; Single "B"]]
  ++ replicate 3 hexdigit ++ [dash] ++ replicate 12 hexdigit.

(** A generic 8-4-4-4-12 string of hexadecimal digits and hyphens. *)
Definition hexHyphenClasses : list (list item) :=
  replicate 8 hexdigit ++ [dash] ++ replicate 4 hexdigit ++ [dash]
  ++ replicate 4 hexdigit ++ [dash] ++ replicate 4 hexdigit ++ [dash]
  ++ replicate 12 hexdigit.

Definition isHexHyphen (u : text) : bool :=
  (length u =? 36) && fits hexHyphenClasses u.

(** The version digit is the first of the third group, the variant nibble
    the first of the fourth. *)
Definition versionOk (u : text) : bool :=
  match u !! 14 with
  | Some c => class_mem [Range "1" "5"] c
  | None => false
  end.

Definition variantOk (u : text) : bool :=
  match u !! 19 with
  | Some c => class_mem [Single "8"; Single "9"; Single "a"; Single "b"; Single "A"; Single "B"] c
  | None => false
  end.

(** Lower case of a byte, for the letters of hexadecimal digits. *)
Definition lower (c : ascii) : ascii :=
  let n := N_of_ascii c in
  if (65 <=? n)%N && (n <=? 70)%N then ascii_of_N (n + 32) else c.

(** The offset at which [id] is first found in [s]. *)
Definition parsesTo (id : uuid.UUID) (m : text) : bool :=
  match uuid.FromString m with
  | Ok x => bool_decide (x = id)
  | Err _ => false
  end.

Definition firstIn (oms : list (nat * text)) (id : uuid.UUID) : option nat :=
  fst <$> head (filter (λ om, parsesTo id om.2 = true) oms).

Definition firstOffset (s : text) (id : uuid.UUID) : option nat :=
  firstIn (FindAllStringIndex uuidRegexp s) id.

(** The sequence number of the placeholder of a match: one more than the
    index of its UUID in the list of the finder. *)
Definition sequenceNumber (s : text) (m : text) : option nat :=
  match findUUIDs s, uuid.FromString m with
  | Ok ids, Ok id => (λ p, S p.1) <$> list_find (λ x, x = id) ids
  | _, _ => None
  end.

(** A time in the form the RFC3339 pattern is meant for: a year of one or
    more digits, the fields of two digits each in their ranges, an optional
    fraction of seconds, and a zone that is [Z], [z] or an offset of hours
    and minutes with a sign. *)
Inductive zone :=
| Zulu (upper : bool)
| Offset (positive : bool) (hh mm : nat).

Record rfc3339Span := {
  spanYear : text;
  spanMonth : nat;
  spanDay : nat;
  spanUpperT : bool;
  spanHour : nat;
  spanMinute : nat;
  spanSecond : nat;
  spanFraction : option text;
  spanZone : zone
}.

Definition isDigit (c : ascii) : bool := class_mem digit c.

Definition digitChar (n : nat) : ascii := ascii_of_nat (48 + n).

Definition twoDigits (v : nat) : text := [digitChar (v / 10); digitChar (v mod 10)].

Definition validZone (z : zone) : bool :=
  match z with
  | Zulu _ => true
  | Offset _ hh mm => (hh <=? 23) && (mm <=? 59)
  end.

Definition validSpan (sp : rfc3339Span) : bool :=
  negb (bool_decide (spanYear sp = [])) && forallb isDigit (spanYear sp)
  && (1 <=? spanMonth sp) && (spanMonth sp <=? 12)
  && (1 <=? spanDay sp) && (spanDay sp <=? 31)
  && (spanHour sp <=? 23) && (spanMinute sp <=? 59) && (spanSecond sp <=? 60)
  && match spanFraction sp with
     | Some f => negb (bool_decide (f = [])) && forallb isDigit f
     | None => true
     end
  && validZone (spanZone sp).

Definition renderZone (z : zone) : text :=
  match z with
  | Zulu upper => if upper then T "Z" else T "z"
  | Offset positive hh mm =>
      (if positive then T "+" else T "-") ++ twoDigits hh ++ T ":" ++ twoDigits mm
  end.

Definition renderSpan (sp : rfc3339Span) : text :=
  spanYear sp ++ T "-" ++ twoDigits (spanMonth sp) ++ T "-" ++ twoDigits (spanDay sp)
  ++ (if spanUpperT sp then T "T" else T "t")
  ++ twoDigits (spanHour sp) ++ T ":" ++ twoDigits (spanMinute sp) ++ T ":"
  ++ twoDigits (spanSecond sp)
  ++ match spanFraction sp with
     | Some f => T "." ++ f
     | None => []
     end
  ++ renderZone (spanZone sp).

(** ** The text as the finder sees it

    The scan of the finder cuts a text into the UUIDs it matches and the
    bytes between them. *)
Inductive token :=
| Gap (c : ascii)
| Block (m : text).

Fixpoint tokens_from (s : text) (skip : nat) : list token :=
  match s with
  | [] => []
  | c :: s' =>
      match skip with
      | S n => tokens_from s' n
      | 0 =>
          match match_at uuidRegexp s with
          | Some (S n) => Block (take (S n) s) :: tokens_from s' n
          | _ => Gap c :: tokens_from s' 0
          end
      end
  end.

Definition tokens (s : text) : list token := tokens_from s 0.

Definition render (toks : list token) : text :=
  flat_map (λ t, match t with Gap c => [c] | Block m => m end) toks.

Definition blocks (toks : list token) : list text :=
  flat_map (λ t, match t with Gap _ => [] | Block m => [m] end) toks.

Definition mapBlocks (f : text → text) (toks : list token) : list token :=
  map (λ t, match t with Gap c => Gap c | Block m => Block (f m) end) toks.

(** A byte that is neither a hexadecimal digit nor a hyphen. *)
Definition isPlain (c : ascii) : bool :=
  negb (class_mem hexdigit c) && negb (Ascii.eqb c "-").

Definition isLowerText (m : text) : bool :=
  forallb (λ c, Ascii.eqb (lower c) c) m.

(** Every UUID is in lower case and stands between plain bytes or at an
    end of the text.  [before] tells whether a UUID may start here: at the
    start of the text and after a plain byte. *)
Fixpoint delimitedFrom (before : bool) (toks : list token) : bool :=
  match toks with
  | [] => true
  | Gap c :: toks' => delimitedFrom (isPlain c) toks'
  | Block m :: toks' =>
      before && isLowerText m
      && match toks' with
         | [] => true
         | Gap c :: _ => isPlain c
         | Block _ :: _ => false
         end
      && delimitedFrom false toks'
  end.

Definition wellDelimited (s : text) : bool := delimitedFrom true (tokens s).

(** The text that stands for a match in the output: the placeholder of its
    sequence number. *)
Definition placeholderOf (s : text) (m : text) : text :=
  match sequenceNumber s m with
  | Some n => replacementPattern n
  | None => m
  end.

(** What the loop of [replaceUUIDs] does to one UUID of the text. *)
Fixpoint substitute (idx : nat) (ids : list uuid.UUID) (m : text) : text :=
  match ids with
  | [] => m
  | id :: ids' =>
      if bool_decide (uuid.String id = m) then replacementPattern (idx + 1)
      else substitute (S idx) ids' m
  end.

(** What the scan guarantees: no match starts at a byte it passes over,
    and every UUID it cuts out is a match. *)
Inductive scanned : list token → Prop :=
| scanned_nil : scanned []
| scanned_gap c toks :
    fits uuidClasses (c :: render toks) = false → scanned toks → scanned (Gap c :: toks)
| scanned_block m toks :
    length m = 36 → fits uuidClasses m = true → scanned toks → scanned (Block m :: toks).

(** The rest of a text after a UUID: nothing, or a plain byte first. *)
Definition plainFirst (y : text) : Prop :=
  match y with
  | [] => True
  | c :: _ => isPlain c = true
  end.

(** What stands for a UUID during the replacement: the UUID itself or a
    placeholder. *)
Definition blockOk (h : text → text) : Prop :=
  ∀ m, h m = m ∨ ∃ n, h m = replacementPattern n.

(** The number a text of decimal digits denotes. *)
Definition decimalValue (t : text) : nat :=
  fold_left (λ acc c, 10 * acc + (nat_of_ascii c - 48)) t 0.

(** ** Example inputs *)

Definition dquote : ascii := "034"%char.

(** A text object, with the JSON string [json.MarshalIndent] gives for it
    (the examples have no byte that JSON escapes). *)
Definition textObject (s : text) : object :=
  {| dyn := GoString s; MarshalIndent := Ok ([dquote] ++ s ++ [dquote]) |}.

Definition plainOptions : CompareOptions :=
  {| UUIDAgnostic := false; DateTimeAgnostic := false; MarshalInputAsJSON := false |}.

Definition timeOptions : CompareOptions :=
  {| UUIDAgnostic := false; DateTimeAgnostic := true; MarshalInputAsJSON := false |}.

Definition agnosticOptions : CompareOptions :=
  {| UUIDAgnostic := true; DateTimeAgnostic := true; MarshalInputAsJSON := false |}.

(** A process in the directory [/work] of an otherwise empty file system. *)
Definition emptyWorld : world :=
  World (Some [T "work"]) {[ [T "work"] := Directory ]}.

(** The same with a golden file [/work/hello.golden]. *)
Definition helloWorld : world :=
  World (Some [T "work"])
    (<[ [T "work"; T "hello.golden"] := File (T "hello") ]> {[ [T "work"] := Directory ]}).

(** The world after [MkdirAll] of [/work/not/existing/folder]. *)
Definition folderWorld : world :=
  World (Some [T "work"])
    (<[ [T "work"; T "not"; T "existing"; T "folder"] := Directory ]>
       (<[ [T "work"; T "not"; T "existing"] := Directory ]>
          (<[ [T "work"; T "not"] := Directory ]> {[ [T "work"] := Directory ]}))).

(** The same with the golden file [file.golden.json] written. *)
Definition goldenWorld : world :=
  World (Some [T "work"])
    (<[ [T "work"; T "not"; T "existing"; T "folder"; T "file.golden.json"]
        := File (T "at 0001-01-01T00:00:00Z") ]> (files folderWorld)).

(** The world after the update for [brokenOffsetText] below. *)
Definition brokenWorld : world :=
  World (Some [T "work"])
    (<[ [T "work"; T "times.golden"]
        := File (T "2020-01-01T00:00:00+01:0001-01-01T00:00:00Z") ]>
       {[ [T "work"] := Directory ]}).

(** [123456-02-29t23:59:60.25-07:30]: a year of six digits. *)
Definition sixDigitYearSpan : rfc3339Span :=
  {| spanYear := T "123456"; spanMonth := 2; spanDay := 29; spanUpperT := false;
     spanHour := 23; spanMinute := 59; spanSecond := 60;
     spanFraction := Some (T "25"); spanZone := Offset false 7 30 |}.

(** A time with an offset cut short, followed by a time. *)
Definition brokenOffsetText : text := T "2020-01-01T00:00:00+01:99-01-01T00:00:00Z".


(** A UUID followed by the last four groups of a UUID, and the UUID that
    the placeholder of the first completes with those groups. *)
Definition overlapText : text :=
  T "d7a282f6-1c10-459e-bb44-55a1a6d48bdd-1c10-459e-bb44-55a1a6d48bdd 00000001-1c10-459e-bb44-55a1a6d48bdd".

(** Two UUIDs in lower case between plain bytes, the first of them
    twice. *)
Definition delimitedText : text :=
  T "id d7a282f6-1c10-459e-bb44-55a1a6d48bdd, /api/d7a282f6-1c10-459e-bb44-55a1a6d48bdd/edit, space a8bee527-12d2-4aff-9823-3511c1c8e6b9".

Definition delimitedOutput : text :=
  T "id 00000000-0000-0000-0000-000000000001, /api/00000000-0000-0000-0000-000000000001/edit, space 00000000-0000-0000-0000-000000000002".

(** A time of each kind. *)
Definition timesText : text :=
  T "at 2017-04-21T04:38:26.777609Z, Thu, 15 Mar 2018 09:23:37 GMT".

Definition timesOutput : text :=
  T "at 0001-01-01T00:00:00Z, Mon, 01 Jan 0001 00:00:00 GMT".

(** ** Further properties: what they are stated with *)

(** A UUID in lower case as the finder takes it: in the text that consists
    of it the finder finds it and nothing else. *)
Definition isLowerUUID (u : text) : bool :=
  bool_decide (FindAllString uuidRegexp u = [u]) && isLowerText u.

(** The loop of the finder on texts instead of parsed UUIDs: the distinct
    texts in the order in which they first appear. *)
Fixpoint firstAppearances (ms res : list text) : list text :=
  match ms with
  | [] => res
  | m :: ms' =>
      if bool_decide (m ∈ res) then firstAppearances ms' res
      else firstAppearances ms' (res ++ [m])
  end.

(** [f] sends different texts of [ms] to different texts. *)
Definition injectiveOn (f : text → text) (ms : list text) : Prop :=
  ∀ a b, a ∈ ms → b ∈ ms → f a = f b → a = b.

Definition isUpper (c : ascii) : bool := class_mem [Range "A" "Z"] c.

Definition startsUpper (s : text) : bool :=
  match s with
  | c :: _ => isUpper c
  | [] => false
  end.

(** Every digit of the text is followed, in the text, by a byte that is
    not a hyphen. *)
Fixpoint noDigitHyphen (x : text) : bool :=
  match x with
  | [] => true
  | c :: x' =>
      (if isDigit c
       then match x' with
            | [] => false
            | d :: _ => negb (Ascii.eqb d "-")
            end
       else true)
      && noDigitHyphen x'
  end.

(** A time in the form the last-modified pattern is meant for: the name
    of a day, a day of two digits, the name of a month, a year of four
    digits, the time of the day, and a zone of capital letters. *)
Record httpDate := {
  dateDayName : text;
  dateDay : text;
  dateMonth : text;
  dateYear : text;
  dateHour : nat;
  dateMinute : nat;
  dateSecond : nat;
  dateZone : text
}.

Definition dayNames : list text :=
  map T ["Mon"; "Tue"; "Wed"; "Thu"; "Fri"; "Sat"; "Sun"]%string.

Definition monthNames : list text :=
  map T ["Jan"; "Feb"; "Mar"; "Apr"; "May"; "Jun"; "Jul"; "Aug"; "Sep"; "Oct"; "Nov"; "Dec"]%string.

Definition zoneNames : list text := map T ["GMT"; "CEST"; "UTC"; "IST"]%string.

Definition validDate (d : httpDate) : bool :=
  bool_decide (dateDayName d ∈ dayNames)
  && (length (dateDay d) =? 2) && forallb isDigit (dateDay d)
  && bool_decide (dateMonth d ∈ monthNames)
  && (length (dateYear d) =? 4) && forallb isDigit (dateYear d)
  && (dateHour d <=? 23) && (dateMinute d <=? 59) && (dateSecond d <=? 60)
  && negb (bool_decide (dateZone d = [])) && forallb isUpper (dateZone d).

Definition renderDate (d : httpDate) : text :=
  dateDayName d ++ T ", " ++ dateDay d ++ T " " ++ dateMonth d ++ T " " ++ dateYear d
  ++ T " " ++ twoDigits (dateHour d) ++ T ":" ++ twoDigits (dateMinute d) ++ T ":"
  ++ twoDigits (dateSecond d) ++ T " " ++ dateZone d.

(** The zone [z] ends where the text [post] starts: [z] is one of the
    names the pattern lists, or none of them starts [z] and no capital
    letter follows. *)
Definition zoneEnds (z post : text) : bool :=
  bool_decide (z ∈ zoneNames)
  || (forallb (λ n, negb (strings.HasPrefix z n)) zoneNames && negb (startsUpper post)).

(** A byte that starts neither a time of the first pattern nor one of the
    second. *)
Definition isQuiet (c : ascii) : bool := negb (isDigit c) && negb (isUpper c).

(** The file system is a tree: whatever is in it is in a directory. *)
Definition wellFormed (w : world) : Prop :=
  ∀ q, is_Some (files w !! q) →
       q ≠ [] ∧ os.lookup (filepath.Dir q) w = Some Directory.

(** A component that [Clean] keeps. *)
Definition kept (c : text) : Prop := c ≠ [] ∧ c ≠ T "." ∧ c ≠ T "..".

(** The number a digit denotes. *)
Definition val (c : ascii) : nat := nat_of_ascii c - 48.

(** An offset written with [|] in the place of its sign: the bracket
    expression of the sign in the first pattern holds [+], [|] and [-]. *)
Definition renderZoneBar (z : zone) : text :=
  match z with
  | Zulu _ => renderZone z
  | Offset _ hh mm => T "|" ++ twoDigits hh ++ T ":" ++ twoDigits mm
  end.

Definition renderSpanBar (sp : rfc3339Span) : text :=
  spanYear sp ++ T "-" ++ twoDigits (spanMonth sp) ++ T "-" ++ twoDigits (spanDay sp)
  ++ (if spanUpperT sp then T "T" else T "t")
  ++ twoDigits (spanHour sp) ++ T ":" ++ twoDigits (spanMinute sp) ++ T ":"
  ++ twoDigits (spanSecond sp)
  ++ match spanFraction sp with
     | Some f => T "." ++ f
     | None => []
     end
  ++ renderZoneBar (spanZone sp).

(** Other UUIDs for the two UUIDs of [delimitedText]. *)
Definition otherUUID (m : text) : text :=
  if bool_decide (m = T "d7a282f6-1c10-459e-bb44-55a1a6d48bdd")
  then T "0b5f4a3c-9d2e-4f6a-8c1b-7e5d3a2f1c0e"
  else T "f47ac10b-58cc-4372-a567-0e02b2c3d479".

Definition renamedText : text :=
  T "id 0b5f4a3c-9d2e-4f6a-8c1b-7e5d3a2f1c0e, /api/0b5f4a3c-9d2e-4f6a-8c1b-7e5d3a2f1c0e/edit, space f47ac10b-58cc-4372-a567-0e02b2c3d479".

Definition uuidOptions : CompareOptions :=
  {| UUIDAgnostic := true; DateTimeAgnostic := false; MarshalInputAsJSON := false |}.

(** A golden file [/work/ids.golden] that holds [delimitedText]. *)
Definition idsWorld : world :=
  World (Some [T "work"])
    (<[ [T "work"; T "ids.golden"] := File delimitedText ]> {[ [T "work"] := Directory ]}).

(** [2017-04-21T04:38:26.777609Z] and [2020-02-29t23:59:60+05:30]. *)
Definition span2017 : rfc3339Span :=
  {| spanYear := T "2017"; spanMonth := 4; spanDay := 21; spanUpperT := true;
     spanHour := 4; spanMinute := 38; spanSecond := 26;
     spanFraction := Some (T "777609"); spanZone := Zulu true |}.

Definition span2020 : rfc3339Span :=
  {| spanYear := T "2020"; spanMonth := 2; spanDay := 29; spanUpperT := false;
     spanHour := 23; spanMinute := 59; spanSecond := 60;
     spanFraction := None; spanZone := Offset true 5 30 |}.


Definition date2020 : httpDate :=
  {| dateDayName := T "Sat"; dateDay := T "29"; dateMonth := T "Feb"; dateYear := T "2020";
     dateHour := 23; dateMinute := 59; dateSecond := 60; dateZone := T "MST" |}.

(** A golden file [/work/stamp.golden] that holds a time. *)
Definition stampWorld : world :=
  World (Some [T "work"])
    (<[ [T "work"; T "stamp.golden"] := File (T "at 2017-04-21T04:38:26.777609Z, ok") ]>
       {[ [T "work"] := Directory ]}).

(** Two times of the same kind, each with what it needs to be taken
    whole by its pattern before the text [post]. *)
Inductive sameKind (post : text) : text → text → Prop :=
| sameKind_rfc3339 sp1 sp2 :
    validSpan sp1 = true → validSpan sp2 = true →
    sameKind post (renderSpan sp1) (renderSpan sp2)
| sameKind_lastModified d1 d2 :
    validDate d1 = true → validDate d2 = true →
    zoneEnds (dateZone d1) post = true → zoneEnds (dateZone d2) post = true →
    sameKind post (renderDate d1) (renderDate d2).

(** The errors of the comparison, each with its cause and with what is
    known of the world [w'] it leaves. *)
Inductive failure (update : bool) (goldenFile : text) (actualObj : object)
    (opts : CompareOptions) (w w' : world) : error → Prop :=
| failure_abs cause :
    filepath.Abs (cwd w) goldenFile = Err cause → w' = w →
    failure update goldenFile actualObj opts w w'
      (ErrorfW (T "failed to get abosolute path for %q: %w") [goldenFile] cause)
| failure_marshal cause :
    MarshalInputAsJSON opts = true → MarshalIndent actualObj = Err cause → w' = w →
    failure update goldenFile actualObj opts w w'
      (ErrorfW (T "failed to marshal actual object: %w") [] cause)
| failure_type :
    MarshalInputAsJSON opts = false → dyn actualObj = Other → w' = w →
    failure update goldenFile actualObj opts w w'
      (ErrorfW
         (T "don't know how to convert type of object %[1]T to string: %+[1]v (consider enabling MarshalInputAsJSON option): %w")
         [] NilError)
| failure_mkdir absPath cause :
    update = true → filepath.Abs (cwd w) goldenFile = Ok absPath →
    os.MkdirAll (filepath.Dir absPath) w = Err cause → w' = w →
    failure update goldenFile actualObj opts w w'
      (ErrorfW
         (T "failed to create directory (and potential parents dirs) to write golden file to: %w")
         [] cause)
| failure_write absPath actual tmp cause :
    update = true → filepath.Abs (cwd w) goldenFile = Ok absPath →
    serialize actualObj opts = Ok actual → normalize opts actual = Ok tmp →
    os.MkdirAll (filepath.Dir absPath) w = Ok w' →
    ioutil.WriteFile absPath tmp w' = Err cause →
    failure update goldenFile actualObj opts w w'
      (ErrorfW (T "failed to update golden file %q: %w") [filepath.toString absPath] cause)
| failure_read absPath cause :
    filepath.Abs (cwd w) goldenFile = Ok absPath →
    ioutil.ReadFile absPath w' = Err cause →
    update = false → w' = w →
    failure update goldenFile actualObj opts w w'
      (ErrorfW (T "failed to read golden file %q: %w") [filepath.toString absPath] cause)
| failure_mismatch absPath expected actual expectedStr actualStr :
    filepath.Abs (cwd w) goldenFile = Ok absPath →
    serialize actualObj opts = Ok actual →
    ioutil.ReadFile absPath w' = Ok expected →
    normalize opts expected = Ok expectedStr → normalize opts actual = Ok actualStr →
    expectedStr ≠ actualStr →
    (update = false → w' = w) →
    failure update goldenFile actualObj opts w w' (mismatch absPath expectedStr actualStr).

(** ** The numbers of the UUIDs as they are written, and texts made of times *)

(** The distinct UUIDs of a text as they are written, in the order in
    which the finder first matches them. *)
Definition firstTexts (s : text) : list text :=
  firstAppearances (FindAllString uuidRegexp s) [].

(** The placeholder of the place of [m] in [firsts], counted from 1; a
    text that is not in [firsts] stays as it is. *)
Definition numbered (firsts : list text) (m : text) : text :=
  match list_find (λ x, x = m) firsts with
  | Some (i, _) => replacementPattern (i + 1)
  | None => m
  end.

(** The offset of the first match of the finder that reads [m]. *)
Definition firstOffsetOfText (s m : text) : option nat :=
  fst <$> head (filter (λ om, om.2 = m) (FindAllStringIndex uuidRegexp s)).




(** The same UUID in lower case and in upper case. *)
Definition caseText : text :=
  T "d7a282f6-1c10-459e-bb44-55a1a6d48bdd D7A282F6-1C10-459E-BB44-55A1A6D48BDD".

(** A time whose offset takes the first digits of the year of the time
    after it. *)
Definition takenYearText : text := T "2020-01-01T00:00:00+01:30-01-01T00:00:00Z".

(** [30-01-01T00:00:00Z]: a year of two digits. *)
Definition twoDigitYearSpan : rfc3339Span :=
  {| spanYear := T "30"; spanMonth := 1; spanDay := 1; spanUpperT := true;
     spanHour := 0; spanMinute := 0; spanSecond := 0;
     spanFraction := None; spanZone := Zulu true |}.


(** [t] stands somewhere in [s]. *)
Definition occursIn (t s : text) : bool :=
  existsb (λ k, strings.HasPrefix (drop k s) t) (seq 0 (S (length s))).

(** * Facts about the matcher *)

Section regexp_facts.

Implicit Types (r : re) (s m rest : text) (k : text → option text).

Lemma plus_sound cl s k x :
  plus cl s k = Some x →
  ∃ c m rest, s = c :: m ++ rest ∧ class_mem cl c = true
              ∧ Forall (λ d, class_mem cl d = true) m ∧ k rest = Some x.
Proof.
  revert x. induction s as [|c s IH]; intros x; simpl; [done|].
  destruct (class_mem cl c) eqn:Hc; [|done].
  destruct (plus cl s k) as [y|] eqn:Hp.
  - intros [= ->]. destruct (IH _ eq_refl) as (c' & m & rest & -> & Hc' & Hm & Hk).
    exists c, (c' :: m), rest. split_and!; [done|done|by constructor|done].
  - intros Hk. exists c, [], s. split_and!; [done|done|by constructor|done].
Qed.

Lemma exec_sound r : ∀ s k x,
  exec r s k = Some x →
  ∃ m rest, s = m ++ rest ∧ matches r m ∧ k rest = Some x.
Proof.
  induction r as [|c|cl|r1 IH1 r2 IH2|r1 IH1 r2 IH2|r1 IH1|cl]; intros s k x; simpl.
  - intros Hk. exists [], s. repeat split; [constructor|done].
  - destruct s as [|d s]; [done|]. destruct (Ascii.eqb_spec d c) as [->|]; [|done].
    intros Hk. exists [c], s. repeat split; [constructor|done].
  - destruct s as [|d s]; [done|]. destruct (class_mem cl d) eqn:Hd; [|done].
    intros Hk. exists [d], s. repeat split; [by constructor|done].
  - intros H. destruct (IH1 _ _ _ H) as (m1 & rest1 & -> & Hm1 & H2).
    destruct (IH2 _ _ _ H2) as (m2 & rest2 & -> & Hm2 & Hk).
    exists (m1 ++ m2), rest2. rewrite <- app_assoc. repeat split; [by constructor|done].
  - destruct (exec r1 s k) as [y|] eqn:H1.
    + intros [= ->]. destruct (IH1 _ _ _ H1) as (m & rest & -> & Hm & Hk).
      exists m, rest. repeat split; [by apply matches_alt_l|done].
    + intros H2. destruct (IH2 _ _ _ H2) as (m & rest & -> & Hm & Hk).
      exists m, rest. repeat split; [by apply matches_alt_r|done].
  - destruct (exec r1 s k) as [y|] eqn:H1.
    + intros [= ->]. destruct (IH1 _ _ _ H1) as (m & rest & -> & Hm & Hk).
      exists m, rest. repeat split; [by apply matches_opt_some|done].
    + intros Hk. exists [], s. repeat split; [apply matches_opt_none|done].
  - intros H. destruct (plus_sound _ _ _ _ H) as (c & m & rest & -> & Hc & Hm & Hk).
    exists (c :: m), rest. repeat split; [by constructor|done].
Qed.

Lemma plus_cons cl c s k :
  plus cl (c :: s) k =
  if class_mem cl c
  then match plus cl s k with Some rest => Some rest | None => k s end
  else None.
Proof. done. Qed.



(** A match found at the head of [s] is a text of the pattern. *)
Lemma match_at_sound r s n :
  match_at r s = Some n → n ≤ length s ∧ matches r (take n s).
Proof.
  unfold match_at. destruct (exec r s Some) as [rest|] eqn:H; [|done].
  intros [= <-]. destruct (exec_sound _ _ _ _ H) as (m & rest' & -> & Hm & [= ->]).
  rewrite length_app. split; [lia|].
  replace (length m + length rest - length rest) with (length m) by lia.
  by rewrite take_app_length.
Qed.


Lemma fits_app c1 c2 s :
  fits (c1 ++ c2) s = fits c1 s && fits c2 (drop (length c1) s).
Proof.
  revert s. induction c1 as [|cl c1 IH]; intros s; simpl; [done|].
  destruct s as [|c s]; [done|]. rewrite IH. by rewrite andb_assoc.
Qed.

Lemma fits_length cls s : fits cls s = true → length cls ≤ length s.
Proof.
  revert s. induction cls as [|cl cls IH]; intros [|c s]; simpl; try done; [lia|].
  intros [_ H]%andb_true_iff. apply IH in H. lia.
Qed.

Lemma fits_take cls s n :
  length cls ≤ n → fits cls (take n s) = fits cls s.
Proof.
  revert s n. induction cls as [|cl cls IH]; intros s n Hn; simpl; [done|].
  destruct n; [simpl in Hn; lia|]. destruct s as [|c s]; simpl; [done|].
  rewrite IH; [done|]. simpl in Hn. lia.
Qed.

Lemma fits_app_r cls s rest :
  length cls ≤ length s → fits cls (s ++ rest) = fits cls s.
Proof.
  revert s. induction cls as [|cl cls IH]; intros s Hn; simpl; [done|].
  destruct s as [|c s]; simpl in *; [lia|]. rewrite IH; [done|lia].
Qed.

(** A pattern without alternatives matches byte by byte. *)
Lemma exec_fits r : ∀ cls s k,
  classes r = Some cls →
  exec r s k = if fits cls s then k (drop (length cls) s) else None.
Proof.
  induction r as [|c|cl|r1 IH1 r2 IH2|r1 IH1 r2 IH2|r1 IH1|cl]; intros cls s k; simpl;
    try done.
  - by intros [= <-].
  - intros [= <-]. destruct s as [|d s]; simpl; [done|].
    unfold class_mem. simpl. rewrite orb_false_r, andb_true_r. done.
  - intros [= <-]. destruct s as [|d s]; simpl; [done|].
    by rewrite andb_true_r.
  - destruct (classes r1) as [c1|] eqn:E1; [|done].
    destruct (classes r2) as [c2|] eqn:E2; [|done]. intros [= <-].
    rewrite (IH1 c1 _ _ eq_refl), fits_app. destruct (fits c1 s); [|done].
    rewrite (IH2 c2 _ _ eq_refl), length_app, drop_drop. done.
Qed.

Lemma match_at_fits r cls s :
  classes r = Some cls →
  match_at r s = if fits cls s then Some (length cls) else None.
Proof.
  intros Hr. unfold match_at. rewrite (exec_fits r cls s Some Hr).
  destruct (fits cls s) eqn:Hf; [|done]. f_equal.
  apply fits_length in Hf. rewrite length_drop. lia.
Qed.

(** The scans pass over the bytes of a match. *)
Lemma find_from_skip r m rest pos :
  find_from r (m ++ rest) (length m) pos = find_from r rest 0 (length m + pos).
Proof.
  revert pos. induction m as [|c m IH]; intros pos; simpl.
  - by destruct rest.
  - rewrite IH. f_equal. lia.
Qed.

Lemma replace_from_skip r repl m rest :
  regexp.replace_from r repl (m ++ rest) (length m) = regexp.replace_from r repl rest 0.
Proof. induction m as [|c m IH]; simpl; [by destruct rest|done]. Qed.

Lemma strings_replace_from_skip old new m rest :
  strings.replace_from old new (m ++ rest) (length m) = strings.replace_from old new rest 0.
Proof. induction m as [|c m IH]; simpl; [by destruct rest|done]. Qed.

End regexp_facts.

(** * Facts about hexadecimal digits and UUIDs *)

Section uuid_facts.

Implicit Types (c : ascii) (m s : text).

Lemma hexdigit_fromHexChar c :
  class_mem hexdigit c = true →
  ∃ n, uuid.fromHexChar c = Some n ∧ (n < 16)%N ∧ uuid.hexDigit n = lower c.
Proof.
  destruct c as [[] [] [] [] [] [] [] []]; vm_compute; intros H; try discriminate H;
    eexists; (split; [reflexivity|split; reflexivity]).
Qed.

Lemma nibbles (hi lo : N) :
  (hi < 16)%N → (lo < 16)%N →
  N.shiftr (hi * 16 + lo) 4 = hi ∧ N.land (hi * 16 + lo) 15 = lo.
Proof.
  intros Hhi Hlo. split.
  - rewrite N.shiftr_div_pow2. change (2 ^ 4)%N with 16%N.
    symmetry. apply (N.div_unique _ _ _ lo); lia.
  - change 15%N with (N.ones 4). rewrite N.land_ones. change (2 ^ 4)%N with 16%N.
    symmetry. apply (N.mod_unique _ _ hi); lia.
Qed.

Lemma version_hexdigit c :
  class_mem [Range "1" "5"] c = true → class_mem hexdigit c = true.
Proof. destruct c as [[] [] [] [] [] [] [] []]; vm_compute; done. Qed.

Lemma variant_hexdigit c :
  class_mem [Single "8"; Single "9"; Single "a"; Single "b"; Single "A"; Single "B"] c = true →
  class_mem hexdigit c = true.
Proof. destruct c as [[] [] [] [] [] [] [] []]; vm_compute; done. Qed.

Lemma dash_eq c : class_mem dash c = true → c = "-"%char.
Proof. destruct c as [[] [] [] [] [] [] [] []]; vm_compute; done. Qed.

Lemma fits_uuid_hexHyphen m :
  fits uuidClasses m = true → fits hexHyphenClasses m = true.
Proof.
  intros H. pose proof (fits_length _ _ H) as Hl. change (length uuidClasses) with 36 in Hl.
  do 36 (destruct m as [|? m]; [simpl in Hl; lia|]).
  cbn [fits uuidClasses hexHyphenClasses replicate app] in *.
  repeat match type of H with (_ && _ = true) => apply andb_true_iff in H as [? H] end.
  repeat match goal with |- (_ && _ = true) => apply andb_true_iff; split end;
    auto using version_hexdigit, variant_hexdigit.
Qed.

(** A match of the pattern parses, and prints in lower case. *)
Lemma FromString_hexHyphen m :
  isHexHyphen m = true →
  ∃ id, uuid.FromString m = Ok id ∧ length id = 16 ∧ uuid.String id = map lower m.
Proof.
  unfold isHexHyphen. intros [Hl H]%andb_true_iff. apply Nat.eqb_eq in Hl.
  do 36 (destruct m as [|? m]; [simpl in Hl; lia|]).
  destruct m; [|simpl in Hl; lia]. clear Hl.
  cbn [fits hexHyphenClasses replicate app] in H.
  repeat match type of H with (_ && _ = true) => apply andb_true_iff in H as [? H] end.
  repeat match goal with
         | Hd : class_mem dash ?c = true |- _ => apply dash_eq in Hd; subst c
         | Hx : class_mem hexdigit ?c = true |- _ =>
             let n := fresh "n" in
             destruct (hexdigit_fromHexChar c Hx) as (n & ? & ? & ?); clear Hx
         end.
  unfold uuid.FromString, uuid.decodeCanonical.
  cbn -[uuid.fromHexChar uuid.hexDigit N.mul N.add].
  repeat match goal with Hn : uuid.fromHexChar _ = Some _ |- _ => rewrite Hn; clear Hn end.
  cbn -[uuid.fromHexChar uuid.hexDigit N.mul N.add N.shiftr N.land].
  eexists. split; [reflexivity|]. split; [reflexivity|].
  unfold uuid.String, uuid.hexEncode.
  cbn -[uuid.fromHexChar uuid.hexDigit N.mul N.add N.shiftr N.land lower].
  repeat match goal with
         | |- context [N.shiftr (?hi * 16 + ?lo) 4] =>
             rewrite (proj1 (nibbles hi lo ltac:(assumption) ltac:(assumption)))
         | |- context [N.land (?hi * 16 + ?lo) 15] =>
             rewrite (proj2 (nibbles hi lo ltac:(assumption) ltac:(assumption)))
         end.
  repeat match goal with Hn : uuid.hexDigit _ = lower _ |- _ => rewrite Hn; clear Hn end.
  reflexivity.
Qed.

End uuid_facts.

(** * Facts about the scan and the finder *)

Section finder_facts.

Implicit Types (r : re) (s m : text) (oms : list (nat * text)).

(** Every match of the scan is the preferred match at its offset. *)
Lemma find_from_match r s : ∀ skip pos,
  Forall (λ om, pos + skip ≤ om.1
                ∧ ∃ n, match_at r (drop (om.1 - pos) s) = Some (S n)
                       ∧ om.2 = take (S n) (drop (om.1 - pos) s))
         (find_from r s skip pos).
Proof.
  induction s as [|c s IH]; intros skip pos; simpl; [constructor|].
  assert (Hweak : ∀ k, Forall (λ om, S pos + k ≤ om.1
                ∧ ∃ n, match_at r (drop (om.1 - S pos) s) = Some (S n)
                       ∧ om.2 = take (S n) (drop (om.1 - S pos) s)) (find_from r s k (S pos)) →
          Forall (λ om, pos + S k ≤ om.1
                ∧ ∃ n, match_at r (drop (om.1 - pos) (c :: s)) = Some (S n)
                       ∧ om.2 = take (S n) (drop (om.1 - pos) (c :: s))) (find_from r s k (S pos))).
  { intros k Hk. eapply Forall_impl; [exact Hk|]. intros [o m] (Ho & n & Hn & Hm). simpl in *.
    split; [lia|]. exists n. replace (o - pos) with (S (o - S pos)) by lia. done. }
  destruct skip as [|skip].
  - destruct (match_at r (c :: s)) as [[|n]|] eqn:Hm.
    + eapply Forall_impl; [apply (Hweak 0), IH|]. intros om (? & ?). split; [lia|done].
    + constructor.
      * simpl. split; [lia|]. exists n. rewrite Nat.sub_diag. done.
      * eapply Forall_impl; [apply (Hweak n), IH|]. intros om (? & ?). split; [lia|done].
    + eapply Forall_impl; [apply (Hweak 0), IH|]. intros om (? & ?). split; [lia|done].
  - apply (Hweak skip), IH.
Qed.

(** The matches are listed from left to right and do not overlap. *)
Lemma find_from_sorted r s : ∀ skip pos,
  StronglySorted (λ x y, x.1 + length x.2 ≤ y.1) (find_from r s skip pos).
Proof.
  induction s as [|c s IH]; intros skip pos; simpl; [constructor|].
  destruct skip as [|skip]; [|apply IH].
  destruct (match_at r (c :: s)) as [[|n]|] eqn:Hm; try apply IH.
  constructor; [apply IH|].
  eapply Forall_impl; [apply find_from_match|]. intros om [Ho _]. simpl.
  rewrite length_take. lia.
Qed.

(** A byte at which a match starts lies in a match of the scan, and
    starts it unless an earlier match reaches over it. *)
Lemma find_from_covers r s : ∀ skip pos p n,
  match_at r (drop p s) = Some (S n) → skip ≤ p →
  ∃ o m, (o, m) ∈ find_from r s skip pos
         ∧ o ≤ pos + p < o + length m
         ∧ (o = pos + p → m = take (S n) (drop p s)).
Proof.
  induction s as [|c s IH]; intros skip pos p n Hm Hskip.
  - rewrite drop_nil in Hm. apply match_at_sound in Hm as [Hn _]. simpl in Hn. lia.
  - cbn [find_from]. destruct skip as [|skip].
    + destruct p as [|p].
      * cbn [drop] in Hm. rewrite Hm. exists pos, (take (S n) (c :: s)).
        pose proof (match_at_sound _ _ _ Hm) as [Hn _].
        split_and!; [apply list_elem_of_here|lia|rewrite length_take; lia|done].
      * cbn [drop] in Hm.
        destruct (match_at r (c :: s)) as [[|n']|] eqn:Hhead.
        -- destruct (IH 0 (S pos) p n Hm ltac:(lia)) as (o & m & Hel & Ho & Heq).
           exists o, m. split_and!; [done|lia|lia|]. intros ->. apply Heq. lia.
        -- destruct (decide (p < n')) as [Hlt|Hge].
           ++ exists pos, (take (S n') (c :: s)).
              pose proof (match_at_sound _ _ _ Hhead) as [Hn _].
              split_and!; [apply list_elem_of_here|lia|rewrite length_take; lia|lia].
           ++ destruct (IH n' (S pos) p n Hm ltac:(lia)) as (o & m & Hel & Ho & Heq).
              exists o, m. split_and!; [by apply list_elem_of_further|lia|lia|].
              intros ->. apply Heq. lia.
        -- destruct (IH 0 (S pos) p n Hm ltac:(lia)) as (o & m & Hel & Ho & Heq).
           exists o, m. split_and!; [done|lia|lia|]. intros ->. apply Heq. lia.
    + destruct p as [|p]; [lia|]. cbn [drop] in Hm.
      destruct (IH skip (S pos) p n Hm ltac:(lia)) as (o & m & Hel & Ho & Heq).
      exists o, m. split_and!; [done|lia|lia|]. intros ->. apply Heq. lia.
Qed.

Lemma classes_uuidRegexp : classes uuidRegexp = Some uuidClasses.
Proof. reflexivity. Qed.

Lemma match_at_uuid s :
  match_at uuidRegexp s = if fits uuidClasses s then Some 36 else None.
Proof. apply (match_at_fits _ _ _ classes_uuidRegexp). Qed.

(** What the finder matches is a UUID as the pattern describes it. *)
Lemma FindAllStringIndex_uuid s :
  Forall (λ om, length om.2 = 36 ∧ fits uuidClasses om.2 = true
                ∧ om.2 = take 36 (drop om.1 s))
         (FindAllStringIndex uuidRegexp s).
Proof.
  eapply Forall_impl; [apply find_from_match|].
  intros [o m] (_ & n & Hn & ->). cbn [fst snd] in *. rewrite Nat.sub_0_r in *.
  rewrite match_at_uuid in Hn.
  destruct (fits uuidClasses (drop o s)) eqn:Hf; [|done]. injection Hn as <-.
  pose proof (fits_length _ _ Hf) as Hl. change (length uuidClasses) with 36 in Hl.
  split_and!; [rewrite length_take; lia| |done].
  by rewrite fits_take.
Qed.

Lemma uuid_match_hexHyphen m :
  length m = 36 → fits uuidClasses m = true → isHexHyphen m = true.
Proof.
  intros Hl Hf. unfold isHexHyphen. rewrite Hl. simpl. by apply fits_uuid_hexHyphen.
Qed.

Lemma parsesTo_spec id m : parsesTo id m = true ↔ uuid.FromString m = Ok id.
Proof.
  unfold parsesTo. destruct (uuid.FromString m) as [x|e]; [|done].
  rewrite bool_decide_eq_true. split; [by intros ->|by intros [= ->]].
Qed.

Lemma firstIn_hit o m oms id :
  uuid.FromString m = Ok id → firstIn ((o, m) :: oms) id = Some o.
Proof.
  intros H. unfold firstIn. rewrite filter_cons_True; [done|].
  by apply parsesTo_spec.
Qed.

Lemma firstIn_miss o m oms id a :
  uuid.FromString m = Ok id → a ≠ id → firstIn ((o, m) :: oms) a = firstIn oms a.
Proof.
  intros H Ha. unfold firstIn. rewrite filter_cons_False; [done|].
  cbn [snd]. rewrite parsesTo_spec, H. by intros [= ->].
Qed.

(** The loop of the finder: what it appends is free of duplicates and
    in the order of the first offsets. *)
Lemma findUUIDs_loop_spec oms :
  Forall (λ om, isHexHyphen om.2 = true) oms →
  StronglySorted (λ x y, x.1 < y.1) oms →
  ∀ seen res, (∀ x, x ∈ seen ↔ x ∈ res) → NoDup res →
  ∃ new, findUUIDs_loop (map snd oms) seen res = Ok (res ++ new)
    ∧ NoDup (res ++ new)
    ∧ (∀ a, a ∈ new → ∃ oa, firstIn oms a = Some oa ∧ oa ∈ map fst oms)
    ∧ (∀ i j a b, new !! i = Some a → new !! j = Some b → i < j →
         ∃ oa ob, firstIn oms a = Some oa ∧ firstIn oms b = Some ob ∧ oa < ob)
    ∧ (∀ om, om ∈ oms → ∃ id, uuid.FromString om.2 = Ok id ∧ id ∈ res ++ new).
Proof.
  induction oms as [|[o m] oms IH]; intros Hhex Hsort seen res Hseen Hnd.
  - exists []. rewrite app_nil_r. split_and!; [done|done|..].
    + intros a Ha. by apply elem_of_nil in Ha.
    + intros i j a b Ha. by rewrite lookup_nil in Ha.
    + intros om Hom. by apply elem_of_nil in Hom.
  - apply Forall_cons in Hhex as [Hm Hhex]. apply StronglySorted_inv in Hsort as [Hsort Hlt].
    destruct (FromString_hexHyphen m Hm) as (id & Hid & _ & _).
    cbn [map snd findUUIDs_loop]. rewrite Hid. cbn [wrap mbind result_bind].
    destruct (bool_decide (id ∈ seen)) eqn:Hin.
    + apply bool_decide_eq_true in Hin. apply Hseen in Hin.
      destruct (IH Hhex Hsort seen res Hseen Hnd) as (new & Hloop & Hnd' & Hfirst & Hord & Hall).
      assert (Hne : ∀ a, a ∈ new → a ≠ id).
      { intros a Ha ->. apply NoDup_app in Hnd' as (_ & Hdisj & _). by apply (Hdisj id). }
      exists new. split_and!; [done|done|..].
      * intros a Ha. destruct (Hfirst a Ha) as (oa & Hoa & Hel).
        exists oa. rewrite (firstIn_miss _ _ _ _ _ Hid (Hne a Ha)). split; [done|].
        cbn [map fst]. by apply list_elem_of_further.
      * intros i j a b Ha Hb Hij. destruct (Hord i j a b Ha Hb Hij) as (oa & ob & ? & ? & ?).
        exists oa, ob.
        rewrite (firstIn_miss _ _ _ _ _ Hid (Hne a (list_elem_of_lookup_2 _ _ _ Ha))).
        rewrite (firstIn_miss _ _ _ _ _ Hid (Hne b (list_elem_of_lookup_2 _ _ _ Hb))).
        done.
      * intros om [->|Hom]%elem_of_cons.
        -- exists id. split; [done|]. apply elem_of_app. by left.
        -- by apply Hall.
    + apply bool_decide_eq_false in Hin. rewrite Hseen in Hin.
      destruct (IH Hhex Hsort ({[id]} ∪ seen) (res ++ [id])) as (new & Hloop & Hnd' & Hfirst & Hord & Hall).
      { intros x. rewrite elem_of_union, elem_of_singleton, elem_of_app, list_elem_of_singleton, Hseen.
        tauto. }
      { apply NoDup_app. split_and!; [done| |apply NoDup_singleton].
        intros x Hx ->%list_elem_of_singleton. done. }
      rewrite <- app_assoc in Hloop, Hnd', Hall. cbn [app] in Hloop, Hnd', Hall.
      assert (Hne : ∀ a, a ∈ new → a ≠ id).
      { intros a Ha ->. apply NoDup_app in Hnd' as (_ & _ & Hnd'').
        apply NoDup_cons in Hnd'' as [Hnot _]. done. }
      exists (id :: new). split_and!; [done|done|..].
      * intros a [->|Ha]%elem_of_cons.
        -- exists o. split; [by apply firstIn_hit|]. cbn [map fst]. apply list_elem_of_here.
        -- destruct (Hfirst a Ha) as (oa & Hoa & Hel). exists oa.
           rewrite (firstIn_miss _ _ _ _ _ Hid (Hne a Ha)). split; [done|].
           cbn [map fst]. by apply list_elem_of_further.
      * intros i j a b Ha Hb Hij. destruct j as [|j]; [lia|]. cbn [lookup list_lookup] in Hb.
        simpl in Hb.
        assert (Hbn : b ∈ new) by (by eapply list_elem_of_lookup_2).
        destruct i as [|i].
        -- injection Ha as <-. destruct (Hfirst b Hbn) as (ob & Hob & Hel).
           exists o, ob. rewrite (firstIn_hit _ _ _ _ Hid).
           rewrite (firstIn_miss _ _ _ _ _ Hid (Hne b Hbn)). split_and!; [done|done|].
           apply list_elem_of_fmap in Hel as ([ob' m'] & -> & Hel).
           rewrite Forall_forall in Hlt. apply (Hlt _ Hel).
        -- simpl in Ha. assert (Han : a ∈ new) by (by eapply list_elem_of_lookup_2).
           destruct (Hord i j a b Ha Hb ltac:(lia)) as (oa & ob & ? & ? & ?).
           exists oa, ob.
           rewrite (firstIn_miss _ _ _ _ _ Hid (Hne a Han)).
           rewrite (firstIn_miss _ _ _ _ _ Hid (Hne b Hbn)). done.
      * intros om [->|Hom]%elem_of_cons.
        -- exists id. split; [done|]. apply elem_of_app. right. apply list_elem_of_here.
        -- by apply Hall.
Qed.

End finder_facts.

Section finder_results.

Implicit Types (s m u : text).

Lemma find_from_increasing r s : ∀ skip pos,
  StronglySorted (λ x y, x.1 < y.1) (find_from r s skip pos).
Proof.
  induction s as [|c s IH]; intros skip pos; simpl; [constructor|].
  destruct skip as [|skip]; [|apply IH].
  destruct (match_at r (c :: s)) as [[|n]|] eqn:Hm; try apply IH.
  constructor; [apply IH|].
  eapply Forall_impl; [apply find_from_match|]. intros om [Ho _]. simpl. lia.
Qed.

(** The finder never fails, and lists each UUID once, in the order of
    the offsets at which the UUIDs are first matched. *)
Lemma findUUIDs_spec s :
  ∃ ids, findUUIDs s = Ok ids
    ∧ NoDup ids
    ∧ (∀ a, a ∈ ids → ∃ oa, firstOffset s a = Some oa)
    ∧ (∀ i j a b, ids !! i = Some a → ids !! j = Some b → i < j →
         ∃ oa ob, firstOffset s a = Some oa ∧ firstOffset s b = Some ob ∧ oa < ob)
    ∧ (∀ m, m ∈ FindAllString uuidRegexp s →
         ∃ id, uuid.FromString m = Ok id ∧ id ∈ ids).
Proof.
  destruct (findUUIDs_loop_spec (FindAllStringIndex uuidRegexp s)) with (seen := (∅ : gset uuid.UUID)) (res := @nil uuid.UUID)
    as (ids & Hloop & Hnd & Hfirst & Hord & Hall).
  - eapply Forall_impl; [apply FindAllStringIndex_uuid|].
    intros om (Hl & Hf & _). by apply uuid_match_hexHyphen.
  - apply find_from_increasing.
  - intros x. rewrite elem_of_empty, elem_of_nil. done.
  - constructor.
  - exists ids. cbn [app] in *. split_and!; [done|done| |done|].
    + intros a Ha. destruct (Hfirst a Ha) as (oa & Hoa & _). by exists oa.
    + intros m ([o m'] & -> & Hom)%list_elem_of_fmap. by apply Hall.
Qed.

Lemma findUUIDs_total s : ∃ ids, findUUIDs s = Ok ids.
Proof. destruct (findUUIDs_spec s) as (ids & H & _). by exists ids. Qed.

Lemma replaceUUIDs_total s : ∃ out, replaceUUIDs s = Ok out.
Proof.
  destruct (findUUIDs_total s) as (ids & H). unfold replaceUUIDs. rewrite H.
  by eexists.
Qed.

(** The loop of [replaceUUIDs] as a left fold over the numbered UUIDs. *)
Lemma replaceUUIDs_loop_fold ids : ∀ idx str,
  replaceUUIDs_loop idx ids str =
  fold_left (λ acc p, strings.Replace acc (uuid.String p.2) (replacementPattern (p.1 + 1)))
            (imap (λ i id, (idx + i, id)) ids) str.
Proof.
  induction ids as [|id ids IH]; intros idx str; [done|].
  cbn [replaceUUIDs_loop imap fold_left fst snd]. rewrite IH, Nat.add_0_r.
  f_equal. apply imap_ext. intros i x _. simpl. f_equal. lia.
Qed.

(** The sequence number of a match is one more than the index of its
    UUID in the list of the finder. *)
Lemma sequenceNumber_spec s :
  ∃ ids, findUUIDs s = Ok ids ∧ NoDup ids
    ∧ ∀ m, m ∈ FindAllString uuidRegexp s →
        ∃ id i, uuid.FromString m = Ok id ∧ ids !! i = Some id
                ∧ sequenceNumber s m = Some (i + 1).
Proof.
  destruct (findUUIDs_spec s) as (ids & Hfind & Hnd & _ & _ & Hall).
  exists ids. split_and!; [done|done|].
  intros m Hm. destruct (Hall m Hm) as (id & Hid & Hin).
  apply list_elem_of_lookup_1 in Hin as [i Hi]. exists id, i. split_and!; [done|done|].
  unfold sequenceNumber. rewrite Hfind, Hid.
  destruct (list_find (λ x, x = id) ids) as [[k x]|] eqn:Hk.
  - apply list_find_Some in Hk as (Hk & -> & _). simpl.
    rewrite (NoDup_lookup _ _ _ _ Hnd Hk Hi). f_equal. lia.
  - apply list_find_None in Hk. rewrite Forall_forall in Hk.
    exfalso. apply (Hk id); [by eapply list_elem_of_lookup_2|done].
Qed.

End finder_results.

(** * The claims *)

Section case_facts.

Implicit Types (c : ascii) (m u s : text).

Lemma fromHexChar_lower c : uuid.fromHexChar (lower c) = uuid.fromHexChar c.
Proof. destruct c as [[] [] [] [] [] [] [] []]; reflexivity. Qed.

Lemma lower_hexdigit c : class_mem hexdigit c = true → class_mem hexdigit (lower c) = true.
Proof. destruct c as [[] [] [] [] [] [] [] []]; vm_compute; done. Qed.

Lemma lower_version c :
  class_mem [Range "1" "5"] c = true → class_mem [Range "1" "5"] (lower c) = true.
Proof. destruct c as [[] [] [] [] [] [] [] []]; vm_compute; done. Qed.

Lemma lower_variant c :
  class_mem [Single "8"; Single "9"; Single "a"; Single "b"; Single "A"; Single "B"] c = true →
  class_mem [Single "8"; Single "9"; Single "a"; Single "b"; Single "A"; Single "B"] (lower c) = true.
Proof. destruct c as [[] [] [] [] [] [] [] []]; vm_compute; done. Qed.

Lemma lower_dash c : class_mem dash c = true → class_mem dash (lower c) = true.
Proof. destruct c as [[] [] [] [] [] [] [] []]; vm_compute; done. Qed.

(** Parsing does not see the case of the digits. *)
Lemma FromString_lower m :
  isHexHyphen m = true → uuid.FromString (map lower m) = uuid.FromString m.
Proof.
  unfold isHexHyphen. intros [Hl H]%andb_true_iff. apply Nat.eqb_eq in Hl.
  do 36 (destruct m as [|? m]; [simpl in Hl; lia|]).
  destruct m; [|simpl in Hl; lia]. clear Hl.
  cbn [fits hexHyphenClasses replicate app] in H.
  repeat match type of H with (_ && _ = true) => apply andb_true_iff in H as [? H] end.
  repeat match goal with
         | Hd : class_mem dash ?c = true |- _ => apply dash_eq in Hd; subst c
         end.
  unfold uuid.FromString, uuid.decodeCanonical.
  cbn -[uuid.fromHexChar lower N.mul N.add bool_decide].
  change (lower "-"%char) with "-"%char.
  rewrite !bool_decide_eq_true_2 by done. cbn [negb].
  rewrite !fromHexChar_lower.
  repeat match goal with
         | Hx : class_mem hexdigit ?c = true |- _ =>
             let n := fresh "n" in
             destruct (hexdigit_fromHexChar c Hx) as (n & -> & _ & _); clear Hx
         end.
  reflexivity.
Qed.

Lemma fits_uuid_lower m :
  length m = 36 → fits uuidClasses m = true → fits uuidClasses (map lower m) = true.
Proof.
  intros Hl H.
  do 36 (destruct m as [|? m]; [simpl in Hl; lia|]).
  destruct m; [|simpl in Hl; lia]. clear Hl.
  cbn [fits uuidClasses replicate app map] in *.
  repeat match type of H with (_ && _ = true) => apply andb_true_iff in H as [? H] end.
  repeat match goal with |- (_ && _ = true) => apply andb_true_iff; split end;
    auto using lower_hexdigit, lower_version, lower_variant, lower_dash.
Qed.

(** The pattern is the generic shape with the two constraints. *)
Lemma fits_uuid_iff u :
  isHexHyphen u = true →
  fits uuidClasses u = true ↔ versionOk u = true ∧ variantOk u = true.
Proof.
  unfold isHexHyphen. intros [Hl H]%andb_true_iff. apply Nat.eqb_eq in Hl.
  do 36 (destruct u as [|? u]; [simpl in Hl; lia|]).
  destruct u; [|simpl in Hl; lia]. clear Hl.
  cbn [fits uuidClasses hexHyphenClasses replicate app] in *.
  unfold versionOk, variantOk. cbn [lookup list_lookup].
  repeat match type of H with (_ && _ = true) => apply andb_true_iff in H as [? H] end.
  split.
  - intros Hu.
    repeat match type of Hu with (_ && _ = true) => apply andb_true_iff in Hu as [? Hu] end.
    done.
  - intros [Hv Hw].
    repeat match goal with |- (_ && _ = true) => apply andb_true_iff; split end; done.
Qed.

Lemma find_from_short s : ∀ pos,
  length s < 36 → find_from uuidRegexp s 0 pos = [].
Proof.
  induction s as [|c s IH]; intros pos Hl; [done|].
  cbn [find_from]. rewrite match_at_uuid.
  destruct (fits uuidClasses (c :: s)) eqn:Hf.
  - apply fits_length in Hf. change (length uuidClasses) with 36 in Hf. lia.
  - apply IH. simpl in Hl. lia.
Qed.

(** The finder on a text of 36 bytes. *)
Lemma FindAllStringIndex_36 u :
  length u = 36 →
  FindAllStringIndex uuidRegexp u = if fits uuidClasses u then [(0, u)] else [].
Proof.
  intros Hl. unfold FindAllStringIndex. destruct u as [|c u]; [done|].
  cbn [find_from]. rewrite match_at_uuid.
  destruct (fits uuidClasses (c :: u)) eqn:Hf.
  - rewrite <- Hl at 1. rewrite firstn_all. f_equal.
    simpl in Hl. injection Hl as Hl.
    rewrite <- (app_nil_r u) at 1. rewrite <- Hl. apply find_from_skip.
  - apply find_from_short. simpl in Hl. lia.
Qed.

(** Every listed UUID is the value of a match, and prints as that match
    in lower case. *)
Lemma findUUIDs_origin s ids id :
  findUUIDs s = Ok ids → id ∈ ids →
  ∃ m, m ∈ FindAllString uuidRegexp s ∧ uuid.FromString m = Ok id
       ∧ uuid.String id = map lower m.
Proof.
  intros Hfind Hin. destruct (findUUIDs_spec s) as (ids' & Hfind' & _ & Hfirst & _).
  rewrite Hfind in Hfind'. injection Hfind' as <-.
  destruct (Hfirst id Hin) as (o & Ho). unfold firstOffset, firstIn in Ho.
  destruct (head _) as [[o' m]|] eqn:Hh; [|done].
  apply head_Some_elem_of, list_elem_of_filter in Hh as [Hp Hel]. cbn [snd] in Hp.
  apply parsesTo_spec in Hp. exists m. split_and!; [|done|].
  - apply list_elem_of_fmap. by exists (o', m).
  - pose proof (FindAllStringIndex_uuid s) as Hall. rewrite Forall_forall in Hall.
    destruct (Hall _ Hel) as (Hl & Hf & _). cbn [snd] in *.
    destruct (FromString_hexHyphen m (uuid_match_hexHyphen m Hl Hf)) as (id' & Hid' & _ & Hs).
    rewrite Hp in Hid'. by injection Hid' as <-.
Qed.

End case_facts.

(** C8. A text of 36 bytes in the generic 8-4-4-4-12 shape of hexadecimal
    digits and hyphens is matched by the finder exactly when its version
    digit is in 1..5 and its variant nibble is one of 8, 9, a, b, A, B.
    When the constraint fails the text is matched in no context, the
    finder finds nothing in it, the replacement returns it unchanged, and
    it is never the text that a replacement step looks for. *)
Theorem uuid_finder_requires_version_and_variant (u : text) :
  isHexHyphen u = true →
  (FindAllString uuidRegexp u = [u] ↔ versionOk u = true ∧ variantOk u = true)
  ∧ (versionOk u && variantOk u = false →
       (∀ post, match_at uuidRegexp (u ++ post) = None)
       ∧ FindAllString uuidRegexp u = []
       ∧ replaceUUIDs u = Ok u
       ∧ ∀ s ids id, findUUIDs s = Ok ids → id ∈ ids → uuid.String id ≠ u).
Proof.
  intros Hu. pose proof (fits_uuid_iff u Hu) as Hiff.
  assert (Hl : length u = 36).
  { unfold isHexHyphen in Hu. apply andb_true_iff in Hu as [Hl _]. by apply Nat.eqb_eq. }
  unfold FindAllString. rewrite (FindAllStringIndex_36 u Hl). split.
  - destruct (fits uuidClasses u); cbn [map snd].
    + split; [intros _; by apply Hiff|done].
    + split; [done|]. intros Hv. apply Hiff in Hv. done.
  - intros Hbad.
    assert (Hf : fits uuidClasses u = false).
    { destruct (fits uuidClasses u); [|done].
      destruct Hiff as [Hiff _]. destruct (Hiff eq_refl) as [Hv Hw].
      rewrite Hv, Hw in Hbad. done. }
    split_and!.
    + intros post. rewrite match_at_uuid, fits_app_r, Hf; [done|].
      change (length uuidClasses) with 36. lia.
    + by rewrite Hf.
    + unfold replaceUUIDs, findUUIDs, FindAllString.
      rewrite (FindAllStringIndex_36 u Hl), Hf. reflexivity.
    + intros s ids id Hfind Hin Heq.
      destruct (findUUIDs_origin s ids id Hfind Hin) as (m & Hm & _ & Hs).
      apply list_elem_of_fmap in Hm as ([o m'] & -> & Hel).
      pose proof (FindAllStringIndex_uuid s) as Hall. rewrite Forall_forall in Hall.
      destruct (Hall _ Hel) as (Hlm & Hfm & _). cbn [snd] in *.
      pose proof (fits_uuid_lower m' Hlm Hfm) as Hlow. rewrite <- Hs, Heq, Hf in Hlow. done.
Qed.

Lemma uuid_finder_requires_version_and_variant_witness :
  let u := T "d7a282f6-1c10-059e-bb44-55a1a6d48bdd" in
  isHexHyphen u = true
  ∧ (FindAllString uuidRegexp u = [u] ↔ versionOk u = true ∧ variantOk u = true)
  ∧ (versionOk u && variantOk u = false →
       (∀ post, match_at uuidRegexp (u ++ post) = None)
       ∧ FindAllString uuidRegexp u = []
       ∧ replaceUUIDs u = Ok u
       ∧ ∀ s ids id, findUUIDs s = Ok ids → id ∈ ids → uuid.String id ≠ u).
Proof.
  intros u. split; [reflexivity|].
  apply (uuid_finder_requires_version_and_variant u). reflexivity.
Defined.

(** C3, at the failing input: a UUID in upper case is found by the finder
    and left in the text by the replacement, which looks for its lower
    case print. *)
Theorem uppercase_uuid_is_found_and_not_replaced :
  let s := T "D7A282F6-1C10-459E-BB44-55A1A6D48BDD" in
  FindAllString uuidRegexp s = [s]
  ∧ (∃ id, findUUIDs s = Ok [id]
           ∧ uuid.String id = T "d7a282f6-1c10-459e-bb44-55a1a6d48bdd")
  ∧ replaceUUIDs s = Ok s.
Proof.
  intros s. split_and!; [by vm_compute| |by vm_compute].
  eexists. split; vm_compute; reflexivity.
Qed.

(** * Facts about the replacement of times *)

Section time_facts.

Implicit Types (r : re) (s m rest post : text) (k : text → option text).






(** A match at the head of the text is replaced, and the scan goes on
    after it. *)
Lemma ReplaceAllString_head r repl m post :
  m ≠ [] → exec r (m ++ post) Some = Some post →
  ReplaceAllString r (m ++ post) repl = repl ++ ReplaceAllString r post repl.
Proof.
  intros Hm He. destruct m as [|c m]; [done|].
  unfold ReplaceAllString. cbn [app regexp.replace_from].
  unfold match_at. cbn [app] in He. rewrite He.
  replace (length (c :: m ++ post) - length post) with (S (length m))
    by (simpl; rewrite length_app; lia).
  by rewrite replace_from_skip.
Qed.

(** Where no match starts, the byte is kept. *)
Lemma ReplaceAllString_keep r repl c s :
  match_at r (c :: s) = None →
  ReplaceAllString r (c :: s) repl = c :: ReplaceAllString r s repl.
Proof. intros H. unfold ReplaceAllString. cbn [regexp.replace_from]. by rewrite H. Qed.

(** A run of the class followed by a byte outside of it: the greedy
    repetition takes the whole run when the rest then matches. *)
Lemma plus_run cl ys rest k x :
  ys ≠ [] → Forall (λ d, class_mem cl d = true) ys →
  k rest = Some x →
  match rest with [] => True | c :: _ => class_mem cl c = false end →
  plus cl (ys ++ rest) k = Some x.
Proof.
  intros Hne Hys Hk Hrest. destruct ys as [|y ys]; [done|]. clear Hne.
  revert y Hys. induction ys as [|y' ys IH]; intros y Hys.
  - apply Forall_cons in Hys as [Hy _]. cbn [app]. rewrite plus_cons, Hy.
    destruct rest as [|c rest]; simpl; [done|]. by rewrite Hrest.
  - apply Forall_cons in Hys as [Hy Hys]. cbn [app]. rewrite plus_cons, Hy.
    cbn [app] in IH. by rewrite (IH y' Hys).
Qed.

End time_facts.

Section field_facts.

Implicit Types (s : text) (k : text → option text) (v : nat).

Local Tactic Notation "field" ident(v) integer(n) :=
  do n (destruct v as [|v];
        [try lia; vm_compute;
         try match goal with |- context [match ?o with Some _ => _ | None => _ end] =>
               destruct o end;
         reflexivity|]);
  lia.

Lemma exec_month v s k :
  1 ≤ v ≤ 12 → exec rfc3339.month (twoDigits v ++ s) k = k s.
Proof. intros Hv. field v 13. Qed.

Lemma exec_day v s k :
  1 ≤ v ≤ 31 → exec rfc3339.day (twoDigits v ++ s) k = k s.
Proof. intros Hv. field v 32. Qed.

Lemma exec_hour v s k :
  v ≤ 23 → exec rfc3339.hour (twoDigits v ++ s) k = k s.
Proof. intros Hv. field v 24. Qed.

Lemma exec_minute v s k :
  v ≤ 59 → exec rfc3339.minute (twoDigits v ++ s) k = k s.
Proof. intros Hv. field v 60. Qed.

Lemma exec_second v s k :
  v ≤ 60 → exec rfc3339.second (twoDigits v ++ s) k = k s.
Proof. intros Hv. field v 61. Qed.

Lemma forallb_true_Forall (f : ascii → bool) (l : text) :
  forallb f l = true → Forall (λ d, f d = true) l.
Proof.
  induction l as [|c l IH]; simpl; [constructor|].
  intros [Hc Hl]%andb_true_iff. constructor; [done|by apply IH].
Qed.

Lemma exec_offset_minutes v s k :
  v ≤ 59 →
  exec (Seq [Lit ":"; Cls [Range "0" "5"]; Cls digit]) (":"%char :: twoDigits v ++ s) k = k s.
Proof. intros Hv. field v 60. Qed.

Lemma exec_zone z s k :
  validZone z = true → exec rfc3339.timeZoneOffset (renderZone z ++ s) k = k s.
Proof.
  destruct z as [upper|positive hh mm]; cbn [validZone renderZone].
  - intros _. destruct upper; vm_compute; by destruct (k s).
  - intros [Hh Hm]%andb_true_iff. apply Nat.leb_le in Hh, Hm.
    unfold rfc3339.timeZoneOffset.
    change (Alt (Cat (Cls [Single "0"; Single "1"]) (Cls digit))
                (Cat (Lit "2") (Cls [Range "0" "3"]))) with rfc3339.hour.
    rewrite <- !app_assoc.
    assert (Hrest : ∀ c, class_mem [Single "Z"; Single "z"] c = false →
              class_mem [Single "+"; Single "|"; Single "-"] c = true →
              exec (Alt (Cls [Single "Z"; Single "z"])
                      (Seq [Cls [Single "+"; Single "|"; Single "-"]; rfc3339.hour;
                            Lit ":"; Cls [Range "0" "5"]; Cls digit]))
                   (c :: twoDigits hh ++ T ":" ++ twoDigits mm ++ s) k = k s).
    { intros c Hz Hsign. cbn [exec Seq]. rewrite Hz, Hsign.
      rewrite exec_hour by done.
      apply (exec_offset_minutes mm s (λ s', k s') Hm). }
    destruct positive; apply Hrest; reflexivity.
Qed.

Lemma exec_subSecond_none s k :
  match s with c :: _ => Ascii.eqb c "." = false | [] => True end →
  exec rfc3339.subSecond s k = k s.
Proof.
  destruct s as [|c s]; cbn; [done|]. intros ->. done.
Qed.

(** The pattern matches a rendered time, and nothing beyond it. *)
Lemma exec_rfc3339_span sp post :
  validSpan sp = true →
  exec rfc3339Pattern (renderSpan sp ++ post) Some = Some post.
Proof.
  unfold validSpan. rewrite !andb_true_iff.
  intros ((((((((((Hne & Hyd) & Hm1) & Hm2) & Hd1) & Hd2) & Hh) & Hmi) & Hs) & Hf) & Hz).
  apply negb_true_iff, bool_decide_eq_false in Hne.
  apply forallb_true_Forall in Hyd.
  apply Nat.leb_le in Hm1, Hm2, Hd1, Hd2, Hh, Hmi, Hs.
  unfold renderSpan, rfc3339Pattern, rfc3339.pattern, rfc3339.datePattern, rfc3339.timePattern,
    rfc3339.year.
  rewrite <- !app_assoc. cbn [exec Seq T list_ascii_of_string app].
  apply plus_run; [done|done| |done].
  rewrite Ascii.eqb_refl, exec_month by done. cbn [app]. rewrite Ascii.eqb_refl, exec_day by done.
  assert (Htime : ∀ c, class_mem [Single "T"; Single "t"] c = true →
    (match
       c :: twoDigits (spanHour sp) ++ ":"%char :: twoDigits (spanMinute sp) ++
         ":"%char :: twoDigits (spanSecond sp) ++
         match spanFraction sp with Some f => T "." ++ f | None => [] end ++
         renderZone (spanZone sp) ++ post
     with
     | [] => None
     | d :: s' =>
         if class_mem [Single "T"; Single "t"] d
         then exec rfc3339.hour s'
                (λ s'0, exec (Cat (Lit ":") (Cat rfc3339.minute (Cat (Lit ":")
                   (Cat rfc3339.second (Cat rfc3339.subSecond Eps))))) s'0
                   (λ s'1, exec rfc3339.timeZoneOffset s'1 (λ s'2, Some s'2)))
         else None
     end) = Some post).
  { intros c Hc. rewrite Hc, exec_hour by done. cbn [exec]. rewrite Ascii.eqb_refl.
    rewrite exec_minute by done. cbn [app]. rewrite Ascii.eqb_refl. rewrite exec_second by done.
    destruct (spanFraction sp) as [f|].
    - apply andb_true_iff in Hf as [Hfne Hfd].
      apply negb_true_iff, bool_decide_eq_false in Hfne.
      apply forallb_true_Forall in Hfd.
      unfold rfc3339.subSecond. cbn [exec].
      cbn [T list_ascii_of_string app]. rewrite Ascii.eqb_refl.
      rewrite (plus_run digit f (renderZone (spanZone sp) ++ post) _ post); [done|done|done| |].
      + by rewrite exec_zone.
      + destruct (spanZone sp) as [[]|[] ? ?]; reflexivity.
    - cbn [app]. rewrite exec_subSecond_none.
      + cbn [exec]. by rewrite exec_zone.
      + destruct (spanZone sp) as [[]|[] ? ?]; reflexivity. }
  destruct (spanUpperT sp); cbn [T list_ascii_of_string app]; apply Htime; reflexivity.
Qed.

End field_facts.

Section time_results.

Implicit Types (s pre post : text).

Lemma renderSpan_nonempty sp : validSpan sp = true → renderSpan sp ≠ [].
Proof.
  unfold validSpan. rewrite !andb_true_iff. intros H.
  assert (Hne : spanYear sp ≠ []).
  { destruct H as ((((((((((Hne & _) & _) & _) & _) & _) & _) & _) & _) & _) & _).
    by apply negb_true_iff, bool_decide_eq_false in Hne. }
  unfold renderSpan. destruct (spanYear sp); [done|]. done.
Qed.

(** No match of the RFC3339 pattern starts at a byte that is not a digit. *)
Lemma match_at_rfc3339_nondigit c s :
  isDigit c = false → match_at rfc3339Pattern (c :: s) = None.
Proof.
  intros Hc. unfold match_at, rfc3339Pattern, rfc3339.pattern, rfc3339.datePattern, rfc3339.year.
  cbn [exec Seq]. rewrite plus_cons. unfold isDigit in Hc. by rewrite Hc.
Qed.

Lemma ReplaceAllString_rfc3339_nondigits pre s repl :
  Forall (λ c, isDigit c = false) pre →
  ReplaceAllString rfc3339Pattern (pre ++ s) repl = pre ++ ReplaceAllString rfc3339Pattern s repl.
Proof.
  induction 1 as [|c pre Hc _ IH]; [done|]. cbn [app].
  rewrite ReplaceAllString_keep by (by apply match_at_rfc3339_nondigit). by rewrite IH.
Qed.

End time_results.


(** * Facts about the comparison *)

Section compare_facts.

Implicit Types (w : world) (opts : CompareOptions) (s actual expected : text).

Lemma replaceTimes_total s : ∃ out, replaceTimes s = Ok out.
Proof. by eexists. Qed.

Lemma normalize_total opts s : ∃ out, normalize opts s = Ok out.
Proof.
  unfold normalize. destruct (UUIDAgnostic opts), (DateTimeAgnostic opts);
    try destruct (replaceUUIDs_total s) as [u ->]; cbn; by eexists.
Qed.

(** The comparison once the path is resolved and the object serialised:
    the update when requested, the read, and the comparison of the two
    normalised texts. *)
Lemma testableCompareWithGolden_unfold update goldenFile actualObj opts w absPath actual :
  filepath.Abs (cwd w) goldenFile = Ok absPath →
  serialize actualObj opts = Ok actual →
  testableCompareWithGolden update goldenFile actualObj opts w =
  match (if update then updateGolden absPath actual opts w else (w, Ok ())) with
  | (w1, Ok _) =>
      match ioutil.ReadFile absPath w1 with
      | Ok expected =>
          match normalize opts expected, normalize opts actual with
          | Ok expectedStr, Ok actualStr =>
              (w1, if bool_decide (expectedStr = actualStr) then Ok ()
                   else Err (mismatch absPath expectedStr actualStr))
          | Err e, _ => (w1, Err e)
          | _, Err e => (w1, Err e)
          end
      | Err e =>
          (w1, Err (ErrorfW (T "failed to read golden file %q: %w")
                      [filepath.toString absPath] e))
      end
  | (w1, Err e) => (w1, Err e)
  end.
Proof.
  intros HAbs Hser. unfold testableCompareWithGolden, reading, pure, mbind, io_bind.
  rewrite HAbs. cbn [wrap]. rewrite Hser. unfold mret, io_ret.
  assert (Htail : ∀ w1,
    match wrap "failed to read golden file %q: %w" [filepath.toString absPath]
            (ioutil.ReadFile absPath w1) with
    | Ok a0 =>
        match (if UUIDAgnostic opts
               then wrap "failed to replace UUIDs with more generic ones: %w" [] (replaceUUIDs a0)
               else Ok a0) with
        | Ok a1 =>
            match (if UUIDAgnostic opts
                   then wrap "failed to replace UUIDs with more generic ones: %w" []
                          (replaceUUIDs actual)
                   else Ok actual) with
            | Ok a2 =>
                match (if DateTimeAgnostic opts
                       then wrap "failed to replace RFC3339 times with default time: %w" []
                              (replaceTimes a1)
                       else Ok a1) with
                | Ok a3 =>
                    match (if DateTimeAgnostic opts
                           then wrap "failed to replace RFC3339 times with default time: %w" []
                                  (replaceTimes a2)
                           else Ok a2) with
                    | Ok a4 =>
                        (if bool_decide (a3 = a4) then (λ w0, (w0, Ok ()))
                         else λ w0, (w0, Err (mismatch absPath a3 a4))) w1
                    | Err e => (w1, Err e)
                    end
                | Err e => (w1, Err e)
                end
            | Err e => (w1, Err e)
            end
        | Err e => (w1, Err e)
        end
    | Err e => (w1, Err e)
    end =
    match ioutil.ReadFile absPath w1 with
    | Ok expected =>
        match normalize opts expected, normalize opts actual with
        | Ok expectedStr, Ok actualStr =>
            (w1, if bool_decide (expectedStr = actualStr) then Ok ()
                 else Err (mismatch absPath expectedStr actualStr))
        | Err e, _ => (w1, Err e)
        | _, Err e => (w1, Err e)
        end
    | Err e =>
        (w1, Err (ErrorfW (T "failed to read golden file %q: %w")
                    [filepath.toString absPath] e))
    end).
  { intros w1. destruct (ioutil.ReadFile absPath w1) as [expected|e]; cbn [wrap]; [|done].
    unfold normalize.
    destruct (replaceUUIDs_total expected) as [eu Heu].
    destruct (replaceUUIDs_total actual) as [au Hau].
    destruct (UUIDAgnostic opts), (DateTimeAgnostic opts); rewrite ?Heu, ?Hau;
      cbn [wrap replaceTimes mbind result_bind]; by destruct (bool_decide _). }
  destruct update.
  - destruct (updateGolden absPath actual opts w) as [w1 [[]|e]]; [apply Htail|done].
  - apply Htail.
Qed.

End compare_facts.

Section compare_results.

Implicit Types (w : world) (opts : CompareOptions).

Lemma MkdirAll_cwd p w w' : os.MkdirAll p w = Ok w' → cwd w' = cwd w.
Proof.
  unfold os.MkdirAll. destruct (os.mkdirAll_rev (rev p) (files w)); cbn; [|done].
  by intros [= <-].
Qed.

Lemma fileAbove_insert p n w :
  os.fileAbove p (World (cwd w) (<[p := n]> (files w))) = os.fileAbove p w.
Proof.
  unfold os.fileAbove. assert (Hk : ∀ k, k ∈ seq 0 (length p) → k < length p).
  { intros k Hk. apply elem_of_seq in Hk. lia. }
  revert Hk. generalize (seq 0 (length p)). intros ks Hks.
  induction ks as [|k ks IH]; [done|]. cbn [existsb].
  rewrite IH by (intros k' Hk'; apply Hks; by apply list_elem_of_further). f_equal.
  unfold os.isFile. cbn [files]. rewrite lookup_insert_ne; [done|].
  intros Heq. apply (f_equal length) in Heq. rewrite length_take in Heq.
  pose proof (Hks k (list_elem_of_here _ _)). lia.
Qed.

Lemma WriteFile_read p data w w' :
  ioutil.WriteFile p data w = Ok w' →
  cwd w' = cwd w ∧ ioutil.ReadFile p w' = Ok data.
Proof.
  unfold ioutil.WriteFile, ioutil.ReadFile.
  destruct (os.fileAbove p w) eqn:Habove; [done|].
  assert (Hnew : ioutil.ReadFile p (World (cwd w) (<[p := File data]> (files w))) = Ok data
                 ∨ p = []).
  { destruct p as [|c p]; [by right|left]. unfold ioutil.ReadFile.
    rewrite fileAbove_insert, Habove. cbn [os.lookup files]. by rewrite lookup_insert_eq. }
  unfold os.lookup.
  destruct p as [|c p]; [done|].
  destruct Hnew as [Hnew|?]; [|done]. unfold ioutil.ReadFile in Hnew.
  destruct (files w !! (c :: p)) as [[d|]|]; try done;
    destruct (filepath.Dir (c :: p)) as [|c' p']; try done;
    try (destruct (files w !! (c' :: p')) as [[d'|]|]; try done);
    intros [= <-]; cbn [cwd]; by split.
Qed.

End compare_results.

(** C7. Once the path is resolved, the object serialised, the update (when
    requested) done and the golden file read, the comparison returns no
    error exactly when the two normalised texts are equal; when they differ
    it returns the error of a mismatch, whose message is the text
    [mismatch of actual output and golden-file], the quoted path, a colon
    and, on the next line, the rendered diff of the two normalised texts. *)
Theorem comparison_fails_iff_normalized_texts_differ
    (update : bool) (goldenFile : text) (actualObj : object) (opts : CompareOptions)
    (w w1 : world) (absPath : list text) (actual expected : text) :
  filepath.Abs (cwd w) goldenFile = Ok absPath →
  serialize actualObj opts = Ok actual →
  (if update then updateGolden absPath actual opts w else (w, Ok ())) = (w1, Ok ()) →
  ioutil.ReadFile absPath w1 = Ok expected →
  ∃ expectedStr actualStr,
    normalize opts expected = Ok expectedStr
    ∧ normalize opts actual = Ok actualStr
    ∧ (testableCompareWithGolden update goldenFile actualObj opts w = (w1, Ok ())
       ↔ expectedStr = actualStr)
    ∧ (expectedStr ≠ actualStr →
       testableCompareWithGolden update goldenFile actualObj opts w
       = (w1, Err (mismatch absPath expectedStr actualStr)))
    ∧ ∀ Quote DiffPrettyText,
        mismatchMessage Quote DiffPrettyText (mismatch absPath expectedStr actualStr)
        = Some (T "mismatch of actual output and golden-file "
                ++ Quote (filepath.toString absPath) ++ T ":" ++ [LF] ++ T " "
                ++ DiffPrettyText expectedStr actualStr ++ T " " ++ [LF]).
Proof.
  intros HAbs Hser Hup Hread.
  destruct (normalize_total opts expected) as [e He].
  destruct (normalize_total opts actual) as [a Ha].
  exists e, a.
  rewrite (testableCompareWithGolden_unfold _ _ _ _ _ _ _ HAbs Hser), Hup, Hread, He, Ha.
  split_and!; [done|done| | |].
  - destruct (bool_decide_reflect (e = a)) as [->|Hne]; [done|].
    split; [by intros [= ?]|done].
  - intros Hne. by rewrite bool_decide_eq_false_2.
  - intros Quote DiffPrettyText. reflexivity.
Qed.

Lemma comparison_fails_iff_normalized_texts_differ_witness :
  (filepath.Abs (cwd helloWorld) (T "hello.golden") = Ok [T "work"; T "hello.golden"]
   ∧ serialize (textObject (T "help")) plainOptions = Ok (T "help")
   ∧ ioutil.ReadFile [T "work"; T "hello.golden"] helloWorld = Ok (T "hello"))
  ∧ ∃ expectedStr actualStr,
      normalize plainOptions (T "hello") = Ok expectedStr
      ∧ normalize plainOptions (T "help") = Ok actualStr
      ∧ (testableCompareWithGolden false (T "hello.golden") (textObject (T "help")) plainOptions
           helloWorld = (helloWorld, Ok ())
         ↔ expectedStr = actualStr)
      ∧ (expectedStr ≠ actualStr →
         testableCompareWithGolden false (T "hello.golden") (textObject (T "help")) plainOptions
           helloWorld
         = (helloWorld, Err (mismatch [T "work"; T "hello.golden"] expectedStr actualStr)))
      ∧ ∀ Quote DiffPrettyText,
          mismatchMessage Quote DiffPrettyText
            (mismatch [T "work"; T "hello.golden"] expectedStr actualStr)
          = Some (T "mismatch of actual output and golden-file "
                  ++ Quote (filepath.toString [T "work"; T "hello.golden"]) ++ T ":" ++ [LF]
                  ++ T " " ++ DiffPrettyText expectedStr actualStr ++ T " " ++ [LF]).
Proof.
  assert (H1 : filepath.Abs (cwd helloWorld) (T "hello.golden") = Ok [T "work"; T "hello.golden"])
    by (vm_compute; reflexivity).
  assert (H2 : serialize (textObject (T "help")) plainOptions = Ok (T "help"))
    by (vm_compute; reflexivity).
  assert (H3 : ioutil.ReadFile [T "work"; T "hello.golden"] helloWorld = Ok (T "hello"))
    by (vm_compute; reflexivity).
  split; [by split_and!|].
  apply (comparison_fails_iff_normalized_texts_differ false (T "hello.golden")
           (textObject (T "help")) plainOptions helloWorld helloWorld
           [T "work"; T "hello.golden"] (T "help") (T "hello") H1 H2 eq_refl H3).
Defined.

(** C9. A comparison that is not an update leaves the world as it is.
    When the golden file is absent it returns an error; with the object
    serialised, the error is that of the failed read, which wraps the error
    of the file system for the path that was not found: [ENOTDIR] when a
    regular file stands above the path, [ENOENT] otherwise. *)
Theorem missing_golden_file_fails_and_writes_nothing
    (goldenFile : text) (actualObj : object) (opts : CompareOptions)
    (w : world) (absPath : list text) :
  filepath.Abs (cwd w) goldenFile = Ok absPath →
  os.lookup absPath w = None →
  (testableCompareWithGolden false goldenFile actualObj opts w).1 = w
  ∧ (∃ e, (testableCompareWithGolden false goldenFile actualObj opts w).2 = Err e)
  ∧ (∀ actual, serialize actualObj opts = Ok actual →
       testableCompareWithGolden false goldenFile actualObj opts w
       = (w, Err (ErrorfW (T "failed to read golden file %q: %w")
                    [filepath.toString absPath]
                    (PathError "open" absPath
                       (if os.fileAbove absPath w then ENOTDIR else ENOENT))))).
Proof.
  intros HAbs Hmiss.
  assert (Hread : ioutil.ReadFile absPath w
                  = Err (PathError "open" absPath
                           (if os.fileAbove absPath w then ENOTDIR else ENOENT))).
  { unfold ioutil.ReadFile. rewrite Hmiss. by destruct (os.fileAbove absPath w). }
  destruct (serialize actualObj opts) as [actual|e] eqn:Hser.
  - rewrite (testableCompareWithGolden_unfold _ _ _ _ _ _ _ HAbs Hser), Hread.
    split_and!; [done|by eexists|]. by intros ? [= <-].
  - assert (Hrun : testableCompareWithGolden false goldenFile actualObj opts w = (w, Err e)).
    { unfold testableCompareWithGolden, reading, pure, mbind, io_bind.
      rewrite HAbs. cbn [wrap]. by rewrite Hser. }
    rewrite Hrun. split_and!; [done|by eexists|done].
Qed.

Lemma missing_golden_file_fails_and_writes_nothing_witness :
  ((filepath.Abs (cwd emptyWorld) (T "not_existing_file.golden.json")
      = Ok [T "work"; T "not_existing_file.golden.json"]
    ∧ os.lookup [T "work"; T "not_existing_file.golden.json"] emptyWorld = None)
   ∧ (testableCompareWithGolden false (T "not_existing_file.golden.json")
        (textObject (T "hello")) agnosticOptions emptyWorld).1 = emptyWorld
   ∧ (∃ e, (testableCompareWithGolden false (T "not_existing_file.golden.json")
              (textObject (T "hello")) agnosticOptions emptyWorld).2 = Err e)
   ∧ (∀ actual, serialize (textObject (T "hello")) agnosticOptions = Ok actual →
        testableCompareWithGolden false (T "not_existing_file.golden.json")
          (textObject (T "hello")) agnosticOptions emptyWorld
        = (emptyWorld,
           Err (ErrorfW (T "failed to read golden file %q: %w")
                  [filepath.toString [T "work"; T "not_existing_file.golden.json"]]
                  (PathError "open" [T "work"; T "not_existing_file.golden.json"] ENOENT)))))
  ∧ ((filepath.Abs (cwd helloWorld) (T "hello.golden/new.golden")
        = Ok [T "work"; T "hello.golden"; T "new.golden"]
      ∧ os.lookup [T "work"; T "hello.golden"; T "new.golden"] helloWorld = None)
     ∧ (∀ actual, serialize (textObject (T "hello")) plainOptions = Ok actual →
          testableCompareWithGolden false (T "hello.golden/new.golden")
            (textObject (T "hello")) plainOptions helloWorld
          = (helloWorld,
             Err (ErrorfW (T "failed to read golden file %q: %w")
                    [filepath.toString [T "work"; T "hello.golden"; T "new.golden"]]
                    (PathError "open" [T "work"; T "hello.golden"; T "new.golden"]
                       ENOTDIR))))).
Proof.
  assert (H1 : filepath.Abs (cwd emptyWorld) (T "not_existing_file.golden.json")
               = Ok [T "work"; T "not_existing_file.golden.json"]) by (vm_compute; reflexivity).
  assert (H2 : os.lookup [T "work"; T "not_existing_file.golden.json"] emptyWorld = None)
    by (vm_compute; reflexivity).
  assert (H3 : filepath.Abs (cwd helloWorld) (T "hello.golden/new.golden")
               = Ok [T "work"; T "hello.golden"; T "new.golden"]) by (vm_compute; reflexivity).
  assert (H4 : os.lookup [T "work"; T "hello.golden"; T "new.golden"] helloWorld = None)
    by (vm_compute; reflexivity).
  assert (E1 : os.fileAbove [T "work"; T "not_existing_file.golden.json"] emptyWorld = false)
    by (vm_compute; reflexivity).
  assert (E2 : os.fileAbove [T "work"; T "hello.golden"; T "new.golden"] helloWorld = true)
    by (vm_compute; reflexivity).
  pose proof (missing_golden_file_fails_and_writes_nothing (T "not_existing_file.golden.json")
                (textObject (T "hello")) agnosticOptions emptyWorld
                [T "work"; T "not_existing_file.golden.json"] H1 H2) as (Ha & Hb & Hc).
  pose proof (missing_golden_file_fails_and_writes_nothing (T "hello.golden/new.golden")
                (textObject (T "hello")) plainOptions helloWorld
                [T "work"; T "hello.golden"; T "new.golden"] H3 H4) as (_ & _ & Hd).
  rewrite E1 in Hc. rewrite E2 in Hd.
  split; (split; [by split|]); [by split_and!|done].
Defined.

(** C6, as stated, fails: with the option for times, an update for the
    text [2020-01-01T00:00:00+01:99-01-01T00:00:00Z] writes a golden file
    whose own normalisation differs from it, so the update and the
    comparison after it both return the error of a mismatch. *)
Lemma update_then_compare_fails_on_broken_offset :
  testableCompareWithGolden true (T "times.golden") (textObject brokenOffsetText)
    timeOptions emptyWorld
  = (brokenWorld,
     Err (mismatch [T "work"; T "times.golden"]
            (T "0001-01-01T00:00:00Z0001-01-01T00:00:00Z")
            (T "2020-01-01T00:00:00+01:0001-01-01T00:00:00Z")))
  ∧ ioutil.ReadFile [T "work"; T "times.golden"] brokenWorld
    = Ok (T "2020-01-01T00:00:00+01:0001-01-01T00:00:00Z")
  ∧ testableCompareWithGolden false (T "times.golden") (textObject brokenOffsetText)
      timeOptions brokenWorld
    = (brokenWorld,
       Err (mismatch [T "work"; T "times.golden"]
              (T "0001-01-01T00:00:00Z0001-01-01T00:00:00Z")
              (T "2020-01-01T00:00:00+01:0001-01-01T00:00:00Z"))).
Proof. split_and!; vm_compute; reflexivity. Qed.

(** C6, amended.  When the path is resolved, the object serialised, and
    the directory and the golden file written, the update and the
    comparison that follows it on the same object return the same result,
    in the world the update left; the result is no error exactly when the
    normalisation of the text written is that text again, as it is when no
    option of normalisation is set. *)
Theorem update_then_compare_passes_on_normal_forms
    (goldenFile : text) (actualObj : object) (opts : CompareOptions)
    (w w' w1 : world) (absPath : list text) (actual tmp : text) :
  filepath.Abs (cwd w) goldenFile = Ok absPath →
  serialize actualObj opts = Ok actual →
  normalize opts actual = Ok tmp →
  os.MkdirAll (filepath.Dir absPath) w = Ok w' →
  ioutil.WriteFile absPath tmp w' = Ok w1 →
  ∃ r,
    testableCompareWithGolden true goldenFile actualObj opts w = (w1, r)
    ∧ testableCompareWithGolden false goldenFile actualObj opts w1 = (w1, r)
    ∧ (r = Ok () ↔ normalize opts tmp = Ok tmp)
    ∧ (UUIDAgnostic opts = false → DateTimeAgnostic opts = false → r = Ok ()).
Proof.
  intros HAbs Hser Hnorm Hmk Hwr.
  destruct (WriteFile_read _ _ _ _ Hwr) as [Hcwd1 Hread].
  pose proof (MkdirAll_cwd _ _ _ Hmk) as Hcwd'.
  assert (HAbs1 : filepath.Abs (cwd w1) goldenFile = Ok absPath) by (by rewrite Hcwd1, Hcwd').
  assert (Hup : updateGolden absPath actual opts w = (w1, Ok ())).
  { unfold updateGolden, writing, pure, mbind, io_bind. rewrite Hmk. cbn [wrap].
    rewrite Hnorm, Hwr. done. }
  destruct (normalize_total opts tmp) as [e He].
  exists (if bool_decide (e = tmp) then Ok () else Err (mismatch absPath e tmp)).
  rewrite (testableCompareWithGolden_unfold _ _ _ _ _ _ _ HAbs Hser), Hup, Hread, He, Hnorm.
  rewrite (testableCompareWithGolden_unfold _ _ _ _ _ _ _ HAbs1 Hser), Hread, He, Hnorm.
  split_and!; [done|done| |].
  - destruct (bool_decide_reflect (e = tmp)) as [->|Hne]; [done|].
    split; [done|]. intros [= ->]. done.
  - intros Hu Ht. unfold normalize in He. rewrite Hu, Ht in He. cbn in He.
    injection He as <-. by rewrite bool_decide_eq_true_2.
Qed.

Lemma update_then_compare_passes_on_normal_forms_witness :
  (filepath.Abs (cwd emptyWorld) (T "not/existing/folder/file.golden.json")
     = Ok [T "work"; T "not"; T "existing"; T "folder"; T "file.golden.json"]
   ∧ serialize (textObject (T "at 2017-04-21T04:38:26.777609Z")) agnosticOptions
     = Ok (T "at 2017-04-21T04:38:26.777609Z")
   ∧ normalize agnosticOptions (T "at 2017-04-21T04:38:26.777609Z")
     = Ok (T "at 0001-01-01T00:00:00Z")
   ∧ os.MkdirAll [T "work"; T "not"; T "existing"; T "folder"] emptyWorld = Ok folderWorld
   ∧ ioutil.WriteFile [T "work"; T "not"; T "existing"; T "folder"; T "file.golden.json"]
       (T "at 0001-01-01T00:00:00Z") folderWorld = Ok goldenWorld)
  ∧ ∃ r,
      testableCompareWithGolden true (T "not/existing/folder/file.golden.json")
        (textObject (T "at 2017-04-21T04:38:26.777609Z")) agnosticOptions emptyWorld
      = (goldenWorld, r)
      ∧ testableCompareWithGolden false (T "not/existing/folder/file.golden.json")
          (textObject (T "at 2017-04-21T04:38:26.777609Z")) agnosticOptions goldenWorld
        = (goldenWorld, r)
      ∧ (r = Ok () ↔ normalize agnosticOptions (T "at 0001-01-01T00:00:00Z")
                      = Ok (T "at 0001-01-01T00:00:00Z"))
      ∧ (UUIDAgnostic agnosticOptions = false → DateTimeAgnostic agnosticOptions = false →
         r = Ok ()).
Proof.
  assert (H1 : filepath.Abs (cwd emptyWorld) (T "not/existing/folder/file.golden.json")
       = Ok [T "work"; T "not"; T "existing"; T "folder"; T "file.golden.json"])
    by (vm_compute; reflexivity).
  assert (H2 : serialize (textObject (T "at 2017-04-21T04:38:26.777609Z")) agnosticOptions
       = Ok (T "at 2017-04-21T04:38:26.777609Z")) by (vm_compute; reflexivity).
  assert (H3 : normalize agnosticOptions (T "at 2017-04-21T04:38:26.777609Z")
       = Ok (T "at 0001-01-01T00:00:00Z")) by (vm_compute; reflexivity).
  assert (H4 : os.MkdirAll [T "work"; T "not"; T "existing"; T "folder"] emptyWorld
       = Ok folderWorld) by (vm_compute; reflexivity).
  assert (H5 : ioutil.WriteFile [T "work"; T "not"; T "existing"; T "folder"; T "file.golden.json"]
         (T "at 0001-01-01T00:00:00Z") folderWorld = Ok goldenWorld) by (vm_compute; reflexivity).
  split; [split_and!; [exact H1|exact H2|exact H3|exact H4|exact H5]|].
  exact (update_then_compare_passes_on_normal_forms (T "not/existing/folder/file.golden.json")
           (textObject (T "at 2017-04-21T04:38:26.777609Z")) agnosticOptions
           emptyWorld folderWorld goldenWorld _ _ _ H1 H2 H3 H4 H5).
Defined.

Section fixed_points.

Implicit Types (r : re) (s repl : text).

(** A text in which every match is the replacement itself is left as it
    is. *)
Lemma replace_from_fixed r repl s : ∀ skip pos,
  skip ≤ length s →
  Forall (λ om, om.2 = repl) (find_from r s skip pos) →
  regexp.replace_from r repl s skip = drop skip s.
Proof.
  induction s as [|c s IH]; intros skip pos Hskip Hall; [by rewrite drop_nil|].
  cbn [find_from regexp.replace_from] in *. destruct skip as [|skip].
  - destruct (match_at r (c :: s)) as [[|n]|] eqn:Hm.
    + cbn [drop]. f_equal. apply (IH 0 (S pos)); [lia|done].
    + apply Forall_cons in Hall as [Hhead Hall]. cbn [snd] in Hhead.
      pose proof (match_at_sound _ _ _ Hm) as [Hn _]. simpl in Hn.
      rewrite (IH n (S pos)); [|lia|done]. rewrite <- Hhead.
      cbn [drop]. apply (take_drop (S n) (c :: s)).
    + cbn [drop]. f_equal. apply (IH 0 (S pos)); [lia|done].
  - cbn [drop]. apply (IH skip (S pos)); [simpl in Hskip; lia|done].
Qed.

Lemma ReplaceAllString_fixed r s repl :
  Forall (λ m, m = repl) (FindAllString r s) → ReplaceAllString r s repl = s.
Proof.
  intros Hall. unfold ReplaceAllString.
  rewrite (replace_from_fixed r repl s 0 0); [done|lia|].
  unfold FindAllString, FindAllStringIndex in Hall. by apply Forall_fmap in Hall.
Qed.

End fixed_points.


(** * Facts about the text as the finder cuts it *)

Section token_facts.

Implicit Types (s m b y : text) (toks : list token) (f : text → text).

Lemma render_tokens_from s : ∀ skip,
  skip ≤ length s → render (tokens_from s skip) = drop skip s.
Proof.
  induction s as [|c s IH]; intros skip Hskip; [by rewrite drop_nil|].
  cbn [tokens_from]. destruct skip as [|skip].
  - destruct (match_at uuidRegexp (c :: s)) as [[|n]|] eqn:Hm.
    + cbn [render flat_map app drop]. f_equal. apply (IH 0). lia.
    + pose proof (match_at_sound _ _ _ Hm) as [Hn _]. simpl in Hn.
      cbn [render flat_map]. fold (render (tokens_from s n)). rewrite (IH n) by lia.
      apply (take_drop (S n) (c :: s)).
    + cbn [render flat_map app drop]. f_equal. apply (IH 0). lia.
  - cbn [drop]. apply IH. simpl in Hskip. lia.
Qed.

Lemma render_tokens s : render (tokens s) = s.
Proof. apply (render_tokens_from s 0). lia. Qed.

Lemma blocks_tokens_from s : ∀ skip pos,
  blocks (tokens_from s skip) = map snd (find_from uuidRegexp s skip pos).
Proof.
  induction s as [|c s IH]; intros skip pos; [done|].
  cbn [tokens_from find_from]. destruct skip as [|skip]; [|apply IH].
  destruct (match_at uuidRegexp (c :: s)) as [[|n]|]; cbn [blocks flat_map app map snd];
    try apply IH.
  f_equal. apply IH.
Qed.

Lemma blocks_tokens s : blocks (tokens s) = FindAllString uuidRegexp s.
Proof. apply blocks_tokens_from. Qed.

Lemma tokens_from_scanned s : ∀ skip, skip ≤ length s → scanned (tokens_from s skip).
Proof.
  induction s as [|c s IH]; intros skip Hskip; [constructor|].
  cbn [tokens_from]. destruct skip as [|skip].
  - rewrite match_at_uuid.
    destruct (fits uuidClasses (c :: s)) eqn:Hf.
    + pose proof (fits_length _ _ Hf) as Hl. change (length uuidClasses) with 36 in Hl.
      constructor.
      * rewrite length_take. lia.
      * by rewrite fits_take.
      * apply IH. simpl in Hl. lia.
    + constructor; [|apply IH; lia]. rewrite render_tokens_from by lia. done.
  - apply IH. simpl in Hskip. lia.
Qed.

Lemma tokens_scanned s : scanned (tokens s).
Proof. apply tokens_from_scanned. lia. Qed.

Lemma scanned_blocks_length toks :
  scanned toks → ∀ m, m ∈ blocks toks → length m = 36.
Proof.
  induction 1 as [|c toks _ _ IH|b0 toks Hb0 _ _ IH]; intros b Hb.
  - by apply elem_of_nil in Hb.
  - apply IH. exact Hb.
  - unfold blocks in Hb. cbn [flat_map app] in Hb.
    apply elem_of_cons in Hb as [->|Hb]; [done|by apply IH].
Qed.

Lemma render_app toks1 toks2 : render (toks1 ++ toks2) = render toks1 ++ render toks2.
Proof. apply flat_map_app. Qed.

(** A plain byte is in no class of the pattern. *)
Lemma plain_hexdigit c : isPlain c = true → class_mem hexdigit c = false.
Proof. destruct c as [[] [] [] [] [] [] [] []]; vm_compute; done. Qed.

Lemma plain_dash c : isPlain c = true → class_mem dash c = false.
Proof. destruct c as [[] [] [] [] [] [] [] []]; vm_compute; done. Qed.

Lemma plain_version c : isPlain c = true → class_mem [Range "1" "5"] c = false.
Proof. destruct c as [[] [] [] [] [] [] [] []]; vm_compute; done. Qed.

Lemma plain_variant c :
  isPlain c = true →
  class_mem [Single "8"; Single "9"; Single "a"; Single "b"; Single "A"; Single "B"] c = false.
Proof. destruct c as [[] [] [] [] [] [] [] []]; vm_compute; done. Qed.

Lemma uuidClasses_plain :
  Forall (λ cl, ∀ c, isPlain c = true → class_mem cl c = false) uuidClasses.
Proof.
  unfold uuidClasses. cbn [replicate app].
  repeat (constructor; [first [exact plain_hexdigit|exact plain_dash|exact plain_version
                              |exact plain_variant]|]).
  constructor.
Qed.

Lemma fits_lookup cls : ∀ t j cl,
  fits cls t = true → cls !! j = Some cl →
  ∃ c, t !! j = Some c ∧ class_mem cl c = true.
Proof.
  induction cls as [|cl0 cls IH]; intros t j cl Hf Hj; [done|].
  destruct t as [|c t]; [done|]. cbn [fits] in Hf. apply andb_true_iff in Hf as [Hc Hf].
  destruct j as [|j].
  - injection Hj as <-. by exists c.
  - by apply (IH t j cl).
Qed.

(** Where the bytes before the UUIDs are plain, a run of bytes of the
    classes cannot reach into a UUID: it reads the same bytes whatever
    stands for the UUIDs. *)
Lemma fits_gaps f cls : ∀ toks,
  Forall (λ cl, ∀ c, isPlain c = true → class_mem cl c = false) cls →
  delimitedFrom false toks = true →
  fits cls (render (mapBlocks f toks)) = true → fits cls (render toks) = true.
Proof.
  induction cls as [|cl cls IH]; intros toks Hcls Hd Hf; [done|].
  apply Forall_cons in Hcls as [Hcl Hcls].
  destruct toks as [|[c|m] toks]; [done| |done].
  cbn [mapBlocks map render flat_map app fits delimitedFrom] in *.
  apply andb_true_iff in Hf as [Hc Hf]. rewrite Hc. cbn [andb].
  apply IH; [done| |done].
  destruct (isPlain c) eqn:Hp; [|done]. by rewrite (Hcl c Hp) in Hc.
Qed.

Lemma gap_nofit f c toks before :
  scanned (Gap c :: toks) → delimitedFrom before (Gap c :: toks) = true →
  fits uuidClasses (c :: render (mapBlocks f toks)) = false.
Proof.
  intros Hs Hd. inversion Hs as [|c' toks' Hno Hs'|]; subst.
  destruct (fits uuidClasses (c :: render (mapBlocks f toks))) eqn:Hf; [|done].
  rewrite <- Hno. symmetry.
  apply (fits_gaps f uuidClasses (Gap c :: toks) uuidClasses_plain); [|done].
  cbn [delimitedFrom] in *.
  destruct (isPlain c) eqn:Hp; [|done].
  pose proof uuidClasses_plain as Hall. apply Forall_cons in Hall as [Hcl _].
  cbn [fits uuidClasses replicate app] in Hf. by rewrite (Hcl c Hp) in Hf.
Qed.

(** A run of 36 bytes of the classes cannot cross the end of a UUID
    that is followed by a plain byte or by the end of the text. *)
Lemma cross_end b y k :
  k ≤ length b → length b - k < 36 → plainFirst y →
  fits uuidClasses (drop k b ++ y) = false.
Proof.
  intros Hk Hlen Hy.
  destruct (fits uuidClasses (drop k b ++ y)) eqn:Hf; [|done].
  assert (Hj : ∃ cl, uuidClasses !! (length b - k) = Some cl).
  { apply lookup_lt_is_Some. by change (length uuidClasses) with 36. }
  destruct Hj as [cl Hcl].
  destruct (fits_lookup _ _ _ _ Hf Hcl) as (c & Hc & Hmem).
  rewrite lookup_app_r in Hc by (rewrite length_drop; lia).
  rewrite length_drop, Nat.sub_diag in Hc.
  destruct y as [|c' y]; [done|]. injection Hc as ->.
  pose proof uuidClasses_plain as Hall. rewrite Forall_forall in Hall.
  rewrite (Hall cl (list_elem_of_lookup_2 _ _ _ Hcl) c Hy) in Hmem. done.
Qed.

End token_facts.

Section placeholder_facts.

Implicit Types (s m b y old new : text) (toks : list token).

Lemma digit_of_mod n : isDigit (ascii_of_nat (48 + n mod 10)) = true.
Proof.
  pose proof (Nat.mod_upper_bound n 10 ltac:(lia)) as H.
  remember (n mod 10) as r eqn:Hr. clear Hr.
  do 10 (destruct r as [|r]; [reflexivity|]). lia.
Qed.

Lemma digits_digits fuel : ∀ n acc,
  Forall (λ c, isDigit c = true) acc →
  Forall (λ c, isDigit c = true) (fmt.digits fuel n acc).
Proof.
  induction fuel as [|fuel IH]; intros n acc Hacc; [done|].
  cbn [fmt.digits].
  assert (Hacc' : Forall (λ c, isDigit c = true) (ascii_of_nat (48 + n mod 10) :: acc)).
  { constructor; [apply digit_of_mod|done]. }
  destruct (n / 10 =? 0); [done|by apply IH].
Qed.

Lemma decimal_digits n : Forall (λ c, isDigit c = true) (fmt.decimal n).
Proof. apply digits_digits. constructor. Qed.

(** A number below [10 ^ k] has at most [k] digits. *)
Lemma digits_length fuel : ∀ n acc k,
  n < 10 ^ k → 1 ≤ k →
  length (fmt.digits fuel n acc) ≤ k + length acc.
Proof.
  induction fuel as [|fuel IH]; intros n acc k Hn Hk; [simpl; lia|].
  cbn [fmt.digits]. destruct (Nat.eqb_spec (n / 10) 0) as [Hz|Hnz]; [simpl; lia|].
  destruct k as [|[|k]]; [lia| |].
  - exfalso. apply Hnz. apply Nat.div_small. simpl in Hn. lia.
  - etransitivity; [apply (IH (n / 10) _ (S k))|simpl; lia]; [|lia].
    apply Nat.Div0.div_lt_upper_bound. rewrite <- Nat.pow_succ_r'. done.
Qed.

Lemma decimal_length n k : n < 10 ^ k → 1 ≤ k → length (fmt.decimal n) ≤ k.
Proof.
  intros Hn Hk. pose proof (digits_length (S n) n [] k Hn Hk) as H.
  cbn [length] in H. unfold fmt.decimal. lia.
Qed.

Lemma pad012d_length_12 n : n < 10 ^ 12 → length (fmt.pad012d n) = 12.
Proof.
  intros Hn. pose proof (decimal_length n 12 Hn ltac:(lia)) as H.
  unfold fmt.pad012d. rewrite length_app, length_replicate. lia.
Qed.

Lemma replacementPattern_length n : n < 10 ^ 12 → length (replacementPattern n) = 36.
Proof.
  intros Hn. unfold replacementPattern. rewrite length_app, (pad012d_length_12 n Hn). done.
Qed.

Lemma pad012d_digits n : Forall (λ c, isDigit c = true) (fmt.pad012d n).
Proof.
  unfold fmt.pad012d. apply Forall_app. split; [|apply decimal_digits].
  apply Forall_replicate. done.
Qed.

Lemma pad012d_length n : 12 ≤ length (fmt.pad012d n).
Proof. unfold fmt.pad012d. rewrite length_app, length_replicate. lia. Qed.

Lemma digit_not_dash c : isDigit c = true → class_mem dash c = false.
Proof. destruct c as [[] [] [] [] [] [] [] []]; vm_compute; done. Qed.

(** No match of the pattern starts at a byte of a placeholder. *)
Lemma placeholder_nofit n y k :
  plainFirst y → k ≤ length (replacementPattern n) →
  fits uuidClasses (drop k (replacementPattern n) ++ y) = false.
Proof.
  intros Hy Hk.
  destruct (decide (length (replacementPattern n) - k < 36)) as [Hshort|Hlong].
  { by apply cross_end. }
  unfold replacementPattern in *.
  pose proof (pad012d_digits n) as Hdig. pose proof (pad012d_length n) as Hlen.
  set (ds := fmt.pad012d n) in *. clearbody ds.
  rewrite length_app in Hlong, Hk. change (length (T "00000000-0000-0000-0000-")) with 24 in *.
  destruct (fits uuidClasses (drop k (T "00000000-0000-0000-0000-" ++ ds) ++ y)) eqn:Hf; [|done].
  exfalso.
  destruct (decide (16 ≤ k)) as [Hbig|Hsmall].
  - assert (Hcl : uuidClasses !! 8 = Some dash) by done.
    destruct (fits_lookup _ _ _ _ Hf Hcl) as (c & Hc & Hmem).
    rewrite lookup_app_l in Hc by (rewrite length_drop, length_app; simpl; lia).
    rewrite lookup_drop, lookup_app_r in Hc by (simpl; lia).
    rewrite Forall_forall in Hdig.
    rewrite (digit_not_dash c (Hdig c (list_elem_of_lookup_2 _ _ _ Hc))) in Hmem. done.
  - do 5 (destruct ds as [|? ds]; [simpl in Hlen; lia|]).
    repeat match goal with H : Forall _ (_ :: _) |- _ => apply Forall_cons in H as [? H] end.
    do 16 (destruct k as [|k];
      [cbn [fits drop app T list_ascii_of_string uuidClasses replicate] in Hf;
       repeat match goal with H : (_ && _ = true) |- _ => apply andb_true_iff in H as [? ?] end;
       solve [ match goal with
               | H : class_mem dash _ = true |- _ => vm_compute in H; discriminate H
               | H : class_mem [Range "1" "5"] _ = true |- _ => vm_compute in H; discriminate H
               end
             | match goal with
               | H : class_mem dash ?c = true, Hd : isDigit ?c = true |- _ =>
                   rewrite (digit_not_dash c Hd) in H; discriminate H
               end ]|]).
    lia.
Qed.

Lemma placeholder_not_uuid n : fits uuidClasses (replacementPattern n) = false.
Proof.
  pose proof (placeholder_nofit n [] 0 I ltac:(lia)) as H.
  by rewrite drop_0, app_nil_r in H.
Qed.

Lemma HasPrefix_spec t old : strings.HasPrefix t old = true ↔ ∃ rest, t = old ++ rest.
Proof.
  revert t. induction old as [|p old IH]; intros t.
  - destruct t; cbn [strings.HasPrefix]; (split; [intros _; by eexists|done]).
  - destruct t as [|c t]; cbn [strings.HasPrefix]; [split; [done|intros [? [=]]]|].
    rewrite andb_true_iff, IH. split.
    + intros [Hc [rest ->]]. apply Ascii.eqb_eq in Hc as ->. by exists rest.
    + intros [rest [= -> ->]]. split; [apply Ascii.eqb_refl|by exists rest].
Qed.

Lemma HasPrefix_fits cls t old :
  strings.HasPrefix t old = true → length cls ≤ length old → fits cls old = true →
  fits cls t = true.
Proof.
  intros [rest ->]%HasPrefix_spec Hl Hf. by rewrite fits_app_r.
Qed.

Lemma HasPrefix_same_length b y old :
  length b = length old → strings.HasPrefix (b ++ y) old = true → b = old.
Proof.
  intros Hl [rest Heq]%HasPrefix_spec.
  apply app_inj_1 in Heq as [-> _]; done.
Qed.

Lemma Replace_keep old new x y :
  (∀ k, k < length x → strings.HasPrefix (drop k x ++ y) old = false) →
  strings.replace_from old new (x ++ y) 0 = x ++ strings.replace_from old new y 0.
Proof.
  induction x as [|c x IH]; intros Hno; [done|].
  cbn [app strings.replace_from].
  pose proof (Hno 0 ltac:(simpl; lia)) as H0. cbn [drop app] in H0. rewrite H0.
  f_equal. apply IH. intros k Hk. apply (Hno (S k)). simpl. lia.
Qed.

Lemma Replace_hit old new y :
  old ≠ [] →
  strings.replace_from old new (old ++ y) 0 = new ++ strings.replace_from old new y 0.
Proof.
  intros Hne. destruct old as [|c old]; [done|].
  cbn [app strings.replace_from].
  assert (Hp : strings.HasPrefix (c :: old ++ y) (c :: old) = true).
  { apply HasPrefix_spec. by exists y. }
  rewrite Hp. f_equal.
  replace (length (c :: old) - 1) with (length old) by (simpl; lia).
  apply strings_replace_from_skip.
Qed.

Lemma find_keep x y : ∀ pos,
  (∀ k, k < length x → fits uuidClasses (drop k x ++ y) = false) →
  find_from uuidRegexp (x ++ y) 0 pos = find_from uuidRegexp y 0 (length x + pos).
Proof.
  induction x as [|c x IH]; intros pos Hno; [done|].
  cbn [app find_from]. rewrite match_at_uuid.
  pose proof (Hno 0 ltac:(simpl; lia)) as H0. cbn [drop app] in H0. rewrite H0.
  rewrite IH; [f_equal; simpl; lia|].
  intros k Hk. apply (Hno (S k)). simpl. lia.
Qed.

End placeholder_facts.

Section replace_facts.

Implicit Types (s m b y old new : text) (toks : list token) (h : text → text).

Lemma delimited_block h before m rest :
  delimitedFrom before (Block m :: rest) = true →
  isLowerText m = true ∧ plainFirst (render (mapBlocks h rest))
  ∧ delimitedFrom false rest = true.
Proof.
  cbn [delimitedFrom]. rewrite !andb_true_iff. intros [[[_ Hlow] Hnext] Hrest].
  split_and!; [done| |done].
  destruct rest as [|[c|m'] rest]; [done|done|done].
Qed.

(** No occurrence of a UUID starts inside what stands for another. *)
Lemma block_no_prefix h old m y k :
  fits uuidClasses old = true → length old = 36 → blockOk h →
  length m = 36 → plainFirst y → h m ≠ old → k < length (h m) →
  strings.HasPrefix (drop k (h m) ++ y) old = false.
Proof.
  intros Hold Hlen Hh Hm Hy Hne Hk.
  destruct (strings.HasPrefix (drop k (h m) ++ y) old) eqn:Hp; [|done]. exfalso.
  destruct (Hh m) as [Heq|[n Heq]]; rewrite Heq in *.
  - destruct k as [|k].
    + rewrite drop_0 in Hp. apply HasPrefix_same_length in Hp; [done|lia].
    + pose proof (HasPrefix_fits uuidClasses _ _ Hp) as Hf.
      rewrite cross_end in Hf; [|lia|lia|done].
      discriminate Hf; [by rewrite Hlen|done].
  - pose proof (HasPrefix_fits uuidClasses _ _ Hp) as Hf.
    rewrite placeholder_nofit in Hf; [|done|lia].
    discriminate Hf; [by rewrite Hlen|done].
Qed.

Lemma render_gap c toks : render (Gap c :: toks) = c :: render toks.
Proof. done. Qed.

Lemma render_block m toks : render (Block m :: toks) = m ++ render toks.
Proof. done. Qed.

Lemma mapBlocks_gap h c toks : mapBlocks h (Gap c :: toks) = Gap c :: mapBlocks h toks.
Proof. done. Qed.

Lemma mapBlocks_block h m toks :
  mapBlocks h (Block m :: toks) = Block (h m) :: mapBlocks h toks.
Proof. done. Qed.

(** One step of the loop on the text as the finder cut it: the UUIDs
    equal to [old] become [new], everything else stays. *)
Lemma Replace_tokens old new h :
  fits uuidClasses old = true → length old = 36 → blockOk h →
  ∀ toks before, scanned toks → delimitedFrom before toks = true →
  strings.replace_from old new (render (mapBlocks h toks)) 0
  = render (mapBlocks (λ m, if bool_decide (h m = old) then new else h m) toks).
Proof.
  intros Hold Hlen Hh. induction toks as [|[c|m] toks IH]; intros before Hs Hd; [done|..].
  - rewrite !mapBlocks_gap, !render_gap. cbn [strings.replace_from].
    assert (Hp : strings.HasPrefix (c :: render (mapBlocks h toks)) old = false).
    { destruct (strings.HasPrefix _ old) eqn:Hp; [|done].
      pose proof (HasPrefix_fits uuidClasses _ _ Hp) as Hf.
      rewrite (gap_nofit h c toks before Hs Hd) in Hf.
      discriminate Hf; [by rewrite Hlen|done]. }
    rewrite Hp. f_equal.
    inversion Hs; subst. apply (IH (isPlain c)); done.
  - inversion Hs as [| |m' toks' Hm Hfm Hs']; subst.
    destruct (delimited_block h before m toks Hd) as (Hlow & Hy & Hrest).
    rewrite !mapBlocks_block, !render_block.
    rewrite <- (IH false Hs' Hrest).
    destruct (bool_decide_reflect (h m = old)) as [Heq|Hne].
    + rewrite Heq. apply Replace_hit. intros ->. done.
    + apply Replace_keep. intros k Hk. by apply block_no_prefix.
Qed.

Lemma mapBlocks_ext f g toks :
  (∀ m, m ∈ blocks toks → f m = g m) → mapBlocks f toks = mapBlocks g toks.
Proof.
  induction toks as [|[c|m] toks IH]; intros Hfg; [done|..]; cbn [mapBlocks map].
  - f_equal. apply IH. intros m Hm. by apply Hfg.
  - rewrite (Hfg m) by (cbn; apply list_elem_of_here). f_equal.
    apply IH. intros m' Hm'. apply Hfg. cbn. by apply list_elem_of_further.
Qed.

Lemma mapBlocks_id toks : mapBlocks (λ m, m) toks = toks.
Proof. induction toks as [|[c|m] toks IH]; [done|..]; cbn [mapBlocks map]; by f_equal. Qed.

Lemma substitute_placeholder ids : ∀ idx n,
  Forall (λ id, fits uuidClasses (uuid.String id) = true) ids →
  substitute idx ids (replacementPattern n) = replacementPattern n.
Proof.
  induction ids as [|id ids IH]; intros idx n Hids; [done|].
  apply Forall_cons in Hids as [Hid Hids]. cbn [substitute].
  rewrite bool_decide_eq_false_2; [by apply IH|].
  intros Heq. rewrite Heq, placeholder_not_uuid in Hid. done.
Qed.

(** The loop of [replaceUUIDs] on the text as the finder cut it. *)
Lemma replaceUUIDs_loop_tokens toks before :
  scanned toks → delimitedFrom before toks = true →
  ∀ ids idx h,
    Forall (λ id, fits uuidClasses (uuid.String id) = true
                  ∧ length (uuid.String id) = 36) ids →
    blockOk h →
    replaceUUIDs_loop idx ids (render (mapBlocks h toks))
    = render (mapBlocks (λ m, substitute idx ids (h m)) toks).
Proof.
  intros Hs Hd. induction ids as [|id ids IH]; intros idx h Hids Hh; [done|].
  apply Forall_cons in Hids as [[Hid Hlen] Hids].
  cbn [replaceUUIDs_loop]. unfold strings.Replace.
  rewrite (Replace_tokens _ _ h Hid Hlen Hh toks before Hs Hd).
  rewrite IH; [|done|].
  - f_equal. apply mapBlocks_ext. intros m _. cbn [substitute].
    rewrite (bool_decide_ext (uuid.String id = h m) (h m = uuid.String id)) by done.
    destruct (bool_decide (h m = uuid.String id)); [|done].
    apply substitute_placeholder. eapply Forall_impl; [exact Hids|]. by intros ? [? _].
  - intros m. destruct (bool_decide (h m = uuid.String id)); [right; by eexists|apply Hh].
Qed.

End replace_facts.

Section delimited_results.

Implicit Types (s m : text) (toks : list token).

Lemma below_pow12 n : (N.of_nat n < 10 ^ 12)%N → n < 10 ^ 12.
Proof.
  intros H. change (10 ^ 12) with (N.to_nat 10 ^ N.to_nat 12).
  rewrite <- N2Nat.inj_pow. set (b := (10 ^ 12)%N) in *. lia.
Qed.

Lemma isLowerText_lower m : isLowerText m = true → map lower m = m.
Proof.
  induction m as [|c m IH]; [done|]. cbn [isLowerText forallb map].
  intros [Hc Hm]%andb_true_iff. apply Ascii.eqb_eq in Hc. rewrite Hc. f_equal. by apply IH.
Qed.

Lemma delimited_blocks_lower toks : ∀ before,
  delimitedFrom before toks = true → ∀ m, m ∈ blocks toks → isLowerText m = true.
Proof.
  induction toks as [|[c|m0] toks IH]; intros before Hd m Hm.
  - by apply elem_of_nil in Hm.
  - by apply (IH (isPlain c)).
  - cbn [delimitedFrom] in Hd. rewrite !andb_true_iff in Hd.
    destruct Hd as [[[_ Hlow] _] Hrest].
    cbn [blocks flat_map app] in Hm. apply elem_of_cons in Hm as [->|Hm]; [done|].
    by apply (IH false).
Qed.

(** The strings the loop looks for are UUIDs as the pattern describes
    them. *)
Lemma findUUIDs_strings s ids :
  findUUIDs s = Ok ids →
  Forall (λ id, fits uuidClasses (uuid.String id) = true
                ∧ length (uuid.String id) = 36) ids.
Proof.
  intros Hfind. apply Forall_forall. intros id Hin.
  destruct (findUUIDs_origin s ids id Hfind Hin) as (m & Hm & _ & Hs).
  apply list_elem_of_fmap in Hm as ([o m'] & -> & Hel).
  pose proof (FindAllStringIndex_uuid s) as Hall. rewrite Forall_forall in Hall.
  destruct (Hall _ Hel) as (Hlm & Hfm & _). cbn [snd] in *.
  rewrite Hs. split; [by apply fits_uuid_lower|by rewrite length_map].
Qed.

Lemma substitute_at ids : ∀ idx i id m,
  ids !! i = Some id → uuid.String id = m →
  (∀ j id', j < i → ids !! j = Some id' → uuid.String id' ≠ m) →
  substitute idx ids m = replacementPattern (idx + i + 1).
Proof.
  induction ids as [|id0 ids IH]; intros idx i id m Hi Hs Hbefore; [done|].
  cbn [substitute]. destruct i as [|i].
  - injection Hi as ->. rewrite bool_decide_eq_true_2 by done. f_equal. lia.
  - rewrite bool_decide_eq_false_2 by (apply (Hbefore 0 id0); [lia|done]).
    rewrite (IH (S idx) i id m Hi Hs); [f_equal; lia|].
    intros j id' Hj Hid'. apply (Hbefore (S j) id'); [lia|done].
Qed.

(** For a match in lower case the loop substitutes the placeholder of its
    sequence number. *)
Lemma substitute_placeholderOf s ids m :
  findUUIDs s = Ok ids → m ∈ FindAllString uuidRegexp s → map lower m = m →
  ∃ n, sequenceNumber s m = Some n
       ∧ substitute 0 ids m = replacementPattern n
       ∧ placeholderOf s m = replacementPattern n.
Proof.
  intros Hfind Hm Hlow.
  destruct (sequenceNumber_spec s) as (ids' & Hfind' & Hnd & Hnum).
  rewrite Hfind in Hfind'. injection Hfind' as <-.
  destruct (Hnum m Hm) as (id & i & Hid & Hi & Hn).
  assert (Hhex : ∀ m', m' ∈ FindAllString uuidRegexp s → isHexHyphen m' = true).
  { intros m' ([o m''] & -> & Hel)%list_elem_of_fmap.
    pose proof (FindAllStringIndex_uuid s) as Hf. rewrite Forall_forall in Hf.
    destruct (Hf _ Hel) as (? & ? & _). by apply uuid_match_hexHyphen. }
  destruct (FromString_hexHyphen m (Hhex m Hm)) as (id0 & Hid0 & _ & Hs).
  rewrite Hid in Hid0. injection Hid0 as <-. rewrite Hlow in Hs.
  exists (i + 1). split_and!; [done| |by unfold placeholderOf; rewrite Hn].
  rewrite (substitute_at ids 0 i id m Hi Hs); [done|].
  intros j id' Hj Hid' Heq.
  destruct (findUUIDs_origin s ids id' Hfind (list_elem_of_lookup_2 _ _ _ Hid'))
    as (m' & Hm' & Hfrom' & Hs').
  rewrite Heq in Hs'.
  pose proof (FromString_lower m' (Hhex m' Hm')) as Hl. rewrite <- Hs', Hid, Hfrom' in Hl.
  injection Hl as ->. pose proof (NoDup_lookup _ _ _ _ Hnd Hi Hid'). lia.
Qed.

(** In a text whose UUIDs are all placeholders the finder finds nothing. *)
Lemma find_from_placeholders h toks : ∀ before pos,
  scanned toks → delimitedFrom before toks = true →
  (∀ m, m ∈ blocks toks → ∃ n, h m = replacementPattern n) →
  find_from uuidRegexp (render (mapBlocks h toks)) 0 pos = [].
Proof.
  induction toks as [|[c|m] toks IH]; intros before pos Hs Hd Hh; [done|..].
  - rewrite mapBlocks_gap, render_gap. cbn [find_from].
    rewrite match_at_uuid, (gap_nofit h c toks before Hs Hd).
    inversion Hs; subst. by apply (IH (isPlain c)).
  - inversion Hs as [| |m' toks' Hm Hfm Hs']; subst.
    destruct (delimited_block h before m toks Hd) as (Hlow & Hy & Hrest).
    rewrite mapBlocks_block, render_block.
    destruct (Hh m) as [n Hn]; [cbn; apply list_elem_of_here|]. rewrite Hn.
    rewrite find_keep.
    + apply (IH false); [done|done|]. intros m' Hm'. apply Hh. cbn.
      by apply list_elem_of_further.
    + intros k Hk. apply placeholder_nofit; [done|lia].
Qed.

(** The replacement on a text whose UUIDs are in lower case and stand
    between plain bytes. *)
Lemma replaceUUIDs_delimited s :
  wellDelimited s = true →
  replaceUUIDs s = Ok (render (mapBlocks (placeholderOf s) (tokens s)))
  ∧ ∀ m, m ∈ blocks (tokens s) →
      length m = 36
      ∧ ∃ n, sequenceNumber s m = Some n ∧ placeholderOf s m = replacementPattern n.
Proof.
  intros Hd. unfold wellDelimited in Hd.
  destruct (findUUIDs_total s) as [ids Hfind].
  assert (Hblocks : ∀ m, m ∈ blocks (tokens s) →
            ∃ n, sequenceNumber s m = Some n
                 ∧ substitute 0 ids m = replacementPattern n
                 ∧ placeholderOf s m = replacementPattern n).
  { intros m Hm. apply (substitute_placeholderOf s ids m Hfind).
    - by rewrite <- blocks_tokens.
    - apply isLowerText_lower. by apply (delimited_blocks_lower _ _ Hd). }
  split.
  - unfold replaceUUIDs. rewrite Hfind. cbn [wrap mbind result_bind]. f_equal.
    rewrite <- (render_tokens s) at 1. rewrite <- (mapBlocks_id (tokens s)) at 1.
    rewrite (replaceUUIDs_loop_tokens (tokens s) true (tokens_scanned s) Hd ids 0 (λ m, m)
               (findUUIDs_strings s ids Hfind)); [|by left].
    f_equal. apply mapBlocks_ext. intros m Hm.
    destruct (Hblocks m Hm) as (n & _ & -> & ->). done.
  - intros m Hm. split.
    + by apply (scanned_blocks_length (tokens s) (tokens_scanned s)).
    + destruct (Hblocks m Hm) as (n & Hn & _ & Hp). by exists n.
Qed.

(** The output of that replacement holds no UUID that the finder
    matches. *)
Lemma replaceUUIDs_delimited_settled s out :
  wellDelimited s = true → replaceUUIDs s = Ok out → findUUIDs out = Ok [].
Proof.
  intros Hd Hout. destruct (replaceUUIDs_delimited s Hd) as [Hrep Hblocks].
  rewrite Hrep in Hout. injection Hout as <-.
  unfold findUUIDs, FindAllString, FindAllStringIndex.
  rewrite (find_from_placeholders (placeholderOf s) (tokens s) true 0 (tokens_scanned s) Hd);
    [done|].
  intros m Hm. destruct (Hblocks m Hm) as (_ & n & _ & Hp). by exists n.
Qed.

End delimited_results.

(** * Facts about decimal digits *)

Section decimal_facts.

Lemma digit_value r : r < 10 → nat_of_ascii (ascii_of_nat (48 + r)) - 48 = r.
Proof. intros Hr. rewrite nat_ascii_embedding by lia. lia. Qed.

(** The loop writes the digits of [n] in front of [acc]. *)
Lemma digits_value fuel : ∀ n acc,
  n < fuel →
  ∃ ds, fmt.digits fuel n acc = ds ++ acc ∧ decimalValue ds = n.
Proof.
  induction fuel as [|fuel IH]; intros n acc Hfuel; [lia|].
  cbn [fmt.digits].
  pose proof (Nat.div_mod_eq n 10) as Hdm.
  pose proof (Nat.mod_upper_bound n 10 ltac:(lia)) as Hmod.
  destruct (Nat.eqb_spec (n / 10) 0) as [Hz|Hnz].
  - exists [ascii_of_nat (48 + n mod 10)]. split; [done|].
    unfold decimalValue. cbn [fold_left]. rewrite digit_value by done. lia.
  - destruct (IH (n / 10) (ascii_of_nat (48 + n mod 10) :: acc)) as (ds & Hds & Hval).
    { assert (n / 10 < n) by (apply Nat.div_lt; lia). lia. }
    exists (ds ++ [ascii_of_nat (48 + n mod 10)]). split.
    + by rewrite Hds, <- app_assoc.
    + unfold decimalValue in *. rewrite fold_left_app. cbn [fold_left].
      rewrite Hval, digit_value by done. lia.
Qed.

Lemma decimalValue_zeros k t : decimalValue (replicate k "0"%char ++ t) = decimalValue t.
Proof.
  unfold decimalValue. rewrite fold_left_app. f_equal.
  induction k as [|k IH]; [done|]. cbn [replicate fold_left]. exact IH.
Qed.

Lemma pad012d_value n : decimalValue (fmt.pad012d n) = n.
Proof.
  unfold fmt.pad012d. rewrite decimalValue_zeros. unfold fmt.decimal.
  destruct (digits_value (S n) n [] ltac:(lia)) as (ds & -> & Hval).
  by rewrite app_nil_r.
Qed.

End decimal_facts.

(** * Texts that differ in the values of their UUIDs *)

Section renaming_facts.

Implicit Types (s m b y : text) (toks : list token) (f : text → text).

Lemma isLowerUUID_spec u :
  isLowerUUID u = true →
  length u = 36 ∧ fits uuidClasses u = true ∧ isLowerText u = true.
Proof.
  unfold isLowerUUID. intros [Hfind Hlow]%andb_true_iff.
  apply bool_decide_eq_true in Hfind.
  unfold FindAllString in Hfind.
  pose proof (FindAllStringIndex_uuid u) as Hall.
  destruct (FindAllStringIndex uuidRegexp u) as [|[o m] [|]]; [done| |done].
  cbn in Hfind. injection Hfind as ->.
  apply Forall_cons in Hall as [(Hl & Hf & _) _]. done.
Qed.

Lemma tokens_from_skip x : ∀ y, tokens_from (x ++ y) (length x) = tokens_from y 0.
Proof.
  induction x as [|c x IH]; intros y; [done|].
  cbn [app length tokens_from]. apply IH.
Qed.

Lemma tokens_block b y :
  length b = 36 → fits uuidClasses b = true →
  tokens_from (b ++ y) 0 = Block b :: tokens_from y 0.
Proof.
  intros Hl Hf. destruct b as [|c b]; [done|].
  cbn [app tokens_from]. change (c :: b ++ y) with ((c :: b) ++ y).
  rewrite match_at_uuid, fits_app_r, Hf by (rewrite Hl; done).
  rewrite <- Hl at 1. rewrite take_app_length.
  f_equal. cbn [length] in Hl. replace 35 with (length b) by lia.
  apply tokens_from_skip.
Qed.

(** The scan of a text with other UUIDs in the places of its UUIDs cuts
    it in the same places. *)
Lemma tokens_render_mapBlocks f toks : ∀ before,
  scanned toks → delimitedFrom before toks = true →
  (∀ m, m ∈ blocks toks → length (f m) = 36 ∧ fits uuidClasses (f m) = true) →
  tokens_from (render (mapBlocks f toks)) 0 = mapBlocks f toks.
Proof.
  induction toks as [|[c|m] toks IH]; intros before Hs Hd Hf; [done|..].
  - rewrite mapBlocks_gap, render_gap. cbn [tokens_from].
    rewrite match_at_uuid, (gap_nofit f c toks before Hs Hd).
    inversion Hs; subst. f_equal. by apply (IH (isPlain c)).
  - inversion Hs as [| |m' toks' Hm Hfm Hs']; subst.
    destruct (delimited_block f before m toks Hd) as (_ & _ & Hrest).
    rewrite mapBlocks_block, render_block.
    destruct (Hf m) as [Hl Hfit]; [unfold blocks; cbn; apply list_elem_of_here|].
    rewrite (tokens_block _ _ Hl Hfit). f_equal.
    apply (IH false); [done|done|].
    intros m' Hm'. apply Hf. unfold blocks. cbn. by apply list_elem_of_further.
Qed.

Lemma delimited_mapBlocks f toks : ∀ before,
  delimitedFrom before toks = true →
  (∀ m, m ∈ blocks toks → isLowerText (f m) = true) →
  delimitedFrom before (mapBlocks f toks) = true.
Proof.
  induction toks as [|[c|m] toks IH]; intros before Hd Hf; [done|..].
  - rewrite mapBlocks_gap. cbn [delimitedFrom]. by apply IH.
  - rewrite mapBlocks_block. cbn [delimitedFrom] in *.
    rewrite !andb_true_iff in Hd. destruct Hd as [[[Hb _] Hnext] Hrest].
    rewrite Hb, (Hf m) by (unfold blocks; cbn; apply list_elem_of_here).
    rewrite (IH false Hrest)
      by (intros m' Hm'; apply Hf; unfold blocks; cbn; by apply list_elem_of_further).
    destruct toks as [|[c|m'] toks]; [done|by rewrite mapBlocks_gap, Hnext|done].
Qed.

Lemma blocks_mapBlocks f toks : blocks (mapBlocks f toks) = map f (blocks toks).
Proof.
  induction toks as [|[c|m] toks IH]; [done|exact IH|].
  unfold blocks in *. cbn [mapBlocks map flat_map app]. by f_equal.
Qed.

(** On texts in lower case the loop of the finder is the loop on the
    texts. *)
Lemma findUUIDs_loop_lower ms :
  Forall (λ m, isHexHyphen m = true ∧ map lower m = m) ms →
  ∀ seen res,
    (∀ x, x ∈ seen ↔ x ∈ res) →
    (∀ id, id ∈ res → uuid.FromString (uuid.String id) = Ok id) →
    ∃ out, findUUIDs_loop ms seen res = Ok out
           ∧ map uuid.String out = firstAppearances ms (map uuid.String res).
Proof.
  induction ms as [|m ms IH]; intros Hms seen res Hseen Hround.
  - by exists res.
  - apply Forall_cons in Hms as [[Hhex Hlow] Hms].
    destruct (FromString_hexHyphen m Hhex) as (id & Hid & _ & Hstr).
    rewrite Hlow in Hstr.
    cbn [findUUIDs_loop firstAppearances]. rewrite Hid. cbn [wrap mbind result_bind].
    assert (Hiff : id ∈ seen ↔ m ∈ map uuid.String res).
    { rewrite Hseen. split.
      - intros Hin. rewrite <- Hstr. apply list_elem_of_fmap. by exists id.
      - intros (id' & Heq & Hin')%list_elem_of_fmap.
        pose proof (Hround id' Hin') as Hr. rewrite <- Heq, <- Hstr in Hr.
        rewrite Hstr, Hid in Hr. by injection Hr as ->. }
    rewrite (bool_decide_ext _ _ Hiff).
    destruct (bool_decide (m ∈ map uuid.String res)); [by apply IH|].
    destruct (IH Hms ({[id]} ∪ seen) (res ++ [id])) as (out & Hout & Hmap).
    + intros x. rewrite elem_of_union, elem_of_singleton, elem_of_app, list_elem_of_singleton.
      rewrite Hseen. tauto.
    + intros id' [Hin| ->%list_elem_of_singleton]%elem_of_app; [by apply Hround|].
      by rewrite Hstr.
    + exists out. split; [done|]. by rewrite Hmap, map_app, <- Hstr.
Qed.

Lemma firstAppearances_subset ms : ∀ res x,
  x ∈ firstAppearances ms res → x ∈ ms ∨ x ∈ res.
Proof.
  induction ms as [|m ms IH]; intros res x Hx; [by right|].
  cbn [firstAppearances] in Hx. destruct (bool_decide (m ∈ res)).
  - destruct (IH res x Hx) as [?|?]; [left; by apply list_elem_of_further|by right].
  - destruct (IH _ x Hx) as [?|[?| ->%list_elem_of_singleton]%elem_of_app].
    + left. by apply list_elem_of_further.
    + by right.
    + left. apply list_elem_of_here.
Qed.

Lemma firstAppearances_map f ms : ∀ res,
  injectiveOn f (ms ++ res) →
  firstAppearances (map f ms) (map f res) = map f (firstAppearances ms res).
Proof.
  induction ms as [|m ms IH]; intros res Hinj; [done|].
  cbn [map firstAppearances].
  assert (Hiff : f m ∈ map f res ↔ m ∈ res).
  { split.
    - intros (m' & Heq & Hin')%list_elem_of_fmap.
      rewrite (Hinj m m'); [done|apply list_elem_of_here| |done].
      apply elem_of_app. right. done.
    - intros Hin. apply list_elem_of_fmap. by exists m. }
  rewrite (bool_decide_ext _ _ Hiff). destruct (bool_decide (m ∈ res)).
  - apply IH. intros a b Ha Hb. apply Hinj; by apply list_elem_of_further.
  - rewrite <- (IH (res ++ [m])); [by rewrite map_app|].
    intros a b Ha Hb. apply Hinj.
    + apply elem_of_app in Ha as [?|[?| ->%list_elem_of_singleton]%elem_of_app].
      * apply list_elem_of_further, elem_of_app. by left.
      * apply list_elem_of_further, elem_of_app. by right.
      * apply list_elem_of_here.
    + apply elem_of_app in Hb as [?|[?| ->%list_elem_of_singleton]%elem_of_app].
      * apply list_elem_of_further, elem_of_app. by left.
      * apply list_elem_of_further, elem_of_app. by right.
      * apply list_elem_of_here.
Qed.

(** What the loop of the replacement substitutes for a string it looks
    for depends on the strings of the UUIDs only. *)
Lemma substitute_renamed f m : ∀ ids1 ids2 idx,
  map uuid.String ids2 = map f (map uuid.String ids1) →
  injectiveOn f (m :: map uuid.String ids1) →
  m ∈ map uuid.String ids1 →
  substitute idx ids2 (f m) = substitute idx ids1 m.
Proof.
  induction ids1 as [|id1 ids1 IH]; intros [|id2 ids2] idx Hmap Hinj Hm;
    [by apply elem_of_nil in Hm|by apply elem_of_nil in Hm|discriminate Hmap|].
  injection Hmap as Hhead Hmap.
  cbn [substitute]. rewrite Hhead.
  assert (Hiff : f (uuid.String id1) = f m ↔ uuid.String id1 = m).
  { split; [|by intros ->]. apply Hinj.
    - apply list_elem_of_further. cbn [map]. apply list_elem_of_here.
    - apply list_elem_of_here. }
  rewrite (bool_decide_ext _ _ Hiff).
  destruct (bool_decide (uuid.String id1 = m)) eqn:Hdec; [done|].
  apply bool_decide_eq_false in Hdec.
  cbn [map] in Hm. apply elem_of_cons in Hm as [->|Hm]; [done|].
  apply IH; [done| |done]. intros a b Ha Hb. apply Hinj.
  - apply elem_of_cons in Ha as [->|Ha]; [apply list_elem_of_here|].
    cbn [map]. by do 2 apply list_elem_of_further.
  - apply elem_of_cons in Hb as [->|Hb]; [apply list_elem_of_here|].
    cbn [map]. by do 2 apply list_elem_of_further.
Qed.

Lemma firstAppearances_complete ms : ∀ res x,
  x ∈ ms ∨ x ∈ res → x ∈ firstAppearances ms res.
Proof.
  induction ms as [|m ms IH]; intros res x [Hx|Hx]; [by apply elem_of_nil in Hx|done|..];
    cbn [firstAppearances]; destruct (bool_decide (m ∈ res)) eqn:Hdec.
  - apply bool_decide_eq_true in Hdec. apply IH.
    apply elem_of_cons in Hx as [->|Hx]; [by right|by left].
  - apply IH. apply elem_of_cons in Hx as [->|Hx]; [|by left].
    right. apply elem_of_app. right. apply list_elem_of_here.
  - apply IH. by right.
  - apply IH. right. apply elem_of_app. by left.
Qed.

(** The matches of a text whose UUIDs are in lower case. *)
Lemma delimited_blocks_hex toks before :
  scanned toks → delimitedFrom before toks = true →
  Forall (λ m, isHexHyphen m = true ∧ map lower m = m) (blocks toks).
Proof.
  intros Hs Hd. apply Forall_forall. intros m Hm.
  pose proof (scanned_blocks_length toks Hs m Hm) as Hl. split.
  - apply uuid_match_hexHyphen; [done|].
    clear Hd Hl. induction Hs as [|c toks _ _ IH|b0 toks _ Hb0 _ IH].
    + by apply elem_of_nil in Hm.
    + by apply IH.
    + unfold blocks in Hm. cbn [flat_map app] in Hm.
      apply elem_of_cons in Hm as [->|Hm]; [done|by apply IH].
  - apply isLowerText_lower. by apply (delimited_blocks_lower toks before Hd).
Qed.

(** The replacement on a text whose UUIDs are in lower case and stand
    between plain bytes, through the strings the finder lists. *)
Lemma replaceUUIDs_substitute s :
  wellDelimited s = true →
  ∃ ids, findUUIDs s = Ok ids
    ∧ map uuid.String ids = firstAppearances (blocks (tokens s)) []
    ∧ replaceUUIDs s = Ok (render (mapBlocks (substitute 0 ids) (tokens s))).
Proof.
  intros Hd. unfold wellDelimited in Hd.
  destruct (findUUIDs_loop_lower (blocks (tokens s))
              (delimited_blocks_hex _ _ (tokens_scanned s) Hd) ∅ [])
    as (ids & Hloop & Hmap).
  { intros x. rewrite elem_of_nil. set_solver. }
  { intros id Hin. by apply elem_of_nil in Hin. }
  assert (Hfind : findUUIDs s = Ok ids) by (unfold findUUIDs; by rewrite <- blocks_tokens).
  exists ids. split_and!; [done|done|].
  unfold replaceUUIDs. rewrite Hfind. cbn [wrap mbind result_bind]. f_equal.
  rewrite <- (render_tokens s) at 1. rewrite <- (mapBlocks_id (tokens s)) at 1.
  rewrite (replaceUUIDs_loop_tokens (tokens s) true (tokens_scanned s) Hd ids 0 (λ m, m)
             (findUUIDs_strings s ids Hfind)); [done|by left].
Qed.

(** Other UUIDs in the places of the UUIDs of a text, each time the same
    one for the same UUID and different ones for different UUIDs: the
    replacement gives the same output. *)
Lemma replaceUUIDs_renamed s f :
  wellDelimited s = true →
  (∀ m, m ∈ FindAllString uuidRegexp s → isLowerUUID (f m) = true) →
  injectiveOn f (FindAllString uuidRegexp s) →
  wellDelimited (render (mapBlocks f (tokens s))) = true
  ∧ FindAllString uuidRegexp (render (mapBlocks f (tokens s)))
    = map f (FindAllString uuidRegexp s)
  ∧ replaceUUIDs (render (mapBlocks f (tokens s))) = replaceUUIDs s.
Proof.
  intros Hd Hf Hinj. rewrite <- blocks_tokens in Hf, Hinj.
  assert (Htok : tokens (render (mapBlocks f (tokens s))) = mapBlocks f (tokens s)).
  { apply (tokens_render_mapBlocks f (tokens s) true (tokens_scanned s) Hd).
    intros m Hm. destruct (isLowerUUID_spec _ (Hf m Hm)) as (? & ? & _). done. }
  assert (Hd2 : wellDelimited (render (mapBlocks f (tokens s))) = true).
  { unfold wellDelimited. rewrite Htok. apply delimited_mapBlocks; [done|].
    intros m Hm. by destruct (isLowerUUID_spec _ (Hf m Hm)) as (_ & _ & ?). }
  split_and!; [done|by rewrite <- !blocks_tokens, Htok, blocks_mapBlocks|].
  destruct (replaceUUIDs_substitute s Hd) as (ids1 & _ & Hmap1 & ->).
  destruct (replaceUUIDs_substitute _ Hd2) as (ids2 & _ & Hmap2 & ->).
  rewrite Htok in *. rewrite blocks_mapBlocks in Hmap2.
  change (@nil text) with (map f []) in Hmap2.
  rewrite firstAppearances_map, <- Hmap1 in Hmap2 by (by rewrite app_nil_r).
  f_equal. f_equal.
  assert (Hcomp : ∀ g toks, mapBlocks g (mapBlocks f toks) = mapBlocks (λ m, g (f m)) toks).
  { intros g toks. unfold mapBlocks. rewrite map_map. apply map_ext. by intros [c|m]. }
  rewrite Hcomp. apply mapBlocks_ext. intros m Hm.
  apply substitute_renamed; [done| |rewrite Hmap1; apply firstAppearances_complete; by left].
  intros a b Ha Hb. apply Hinj.
  - apply elem_of_cons in Ha as [->|Ha]; [done|].
    rewrite Hmap1 in Ha. apply firstAppearances_subset in Ha as [?|Ha]; [done|].
    by apply elem_of_nil in Ha.
  - apply elem_of_cons in Hb as [->|Hb]; [done|].
    rewrite Hmap1 in Hb. apply firstAppearances_subset in Hb as [?|Hb]; [done|].
    by apply elem_of_nil in Hb.
Qed.

End renaming_facts.

(** * Times in their places *)

Section pass_facts.

Implicit Types (s x y pre post : text) (k : text → option text).

(** A pass keeps the bytes at which no match starts. *)
Lemma ReplaceAllString_pass r repl x : ∀ y,
  (∀ j, j < length x → match_at r (drop j x ++ y) = None) →
  ReplaceAllString r (x ++ y) repl = x ++ ReplaceAllString r y repl.
Proof.
  induction x as [|c x IH]; intros y Hx; [done|].
  cbn [app]. rewrite ReplaceAllString_keep by (apply (Hx 0); cbn; lia).
  f_equal. apply IH. intros j Hj. apply (Hx (S j)). cbn. lia.
Qed.

Lemma exec_Str n : ∀ s k,
  exec (Str n) s k = if strings.HasPrefix s n then k (drop (length n) s) else None.
Proof.
  induction n as [|c n IH]; intros s k; [by destruct s|].
  destruct s as [|d s]; [done|]. cbn [Str exec strings.HasPrefix length drop].
  destruct (Ascii.eqb d c); [apply IH|done].
Qed.

Lemma upper_not_digit c : isUpper c = true → isDigit c = false.
Proof. destruct c as [[] [] [] [] [] [] [] []]; vm_compute; done. Qed.

Lemma digit_not_hyphen c : isDigit c = true → Ascii.eqb c "-" = false.
Proof. destruct c as [[] [] [] [] [] [] [] []]; vm_compute; done. Qed.

Lemma HasPrefix_upper n : ∀ z post,
  Forall (λ c, isUpper c = true) n → startsUpper post = false →
  strings.HasPrefix (z ++ post) n = true → strings.HasPrefix z n = true.
Proof.
  induction n as [|c n IH]; intros z post Hn Hpost H; [by destruct z|].
  apply Forall_cons in Hn as [Hc Hn].
  destruct z as [|d z].
  - destruct post as [|p post]; [done|].
    cbn [app strings.HasPrefix] in H. cbn [startsUpper] in Hpost.
    apply andb_true_iff in H as [Hp _]. apply Ascii.eqb_eq in Hp. subst p.
    by rewrite Hc in Hpost.
  - cbn [app strings.HasPrefix] in *. apply andb_true_iff in H as [-> H].
    by apply (IH z post).
Qed.

(** No match of the first pattern starts at a digit whose run of digits
    is followed by a byte that is not a hyphen. *)
Lemma plus_noDigitHyphen x : ∀ y k,
  (∀ c s, Ascii.eqb c "-" = false → k (c :: s) = None) →
  noDigitHyphen x = true → x ≠ [] →
  plus digit (x ++ y) k = None.
Proof.
  induction x as [|c x IH]; intros y k Hk Hx Hne; [done|].
  cbn [app]. rewrite plus_cons. cbn [noDigitHyphen] in Hx.
  apply andb_true_iff in Hx as [Hc Hx]. unfold isDigit in Hc.
  destruct (class_mem digit c); [|done].
  destruct x as [|d x]; [done|].
  apply negb_true_iff in Hc.
  rewrite (IH y k Hk Hx) by done. cbn [app]. by apply Hk.
Qed.

Lemma noDigitHyphen_drop x : ∀ j, noDigitHyphen x = true → noDigitHyphen (drop j x) = true.
Proof.
  induction x as [|c x IH]; intros [|j] Hx; [done|done|done|].
  cbn [drop]. apply IH. cbn [noDigitHyphen] in Hx. by apply andb_true_iff in Hx as [_ ?].
Qed.

Lemma match_at_rfc3339_noDigitHyphen x y j :
  noDigitHyphen x = true → j < length x →
  match_at rfc3339Pattern (drop j x ++ y) = None.
Proof.
  intros Hx Hj. pose proof (noDigitHyphen_drop x j Hx) as Hd.
  assert (Hne : drop j x ≠ []).
  { intros Heq. apply (f_equal length) in Heq. rewrite length_drop in Heq. cbn in Heq. lia. }
  unfold match_at, rfc3339Pattern, rfc3339.pattern, rfc3339.datePattern, rfc3339.year.
  cbn [exec Seq]. rewrite plus_noDigitHyphen; [done| |done|done].
  intros c s Hc. by rewrite Hc.
Qed.

Lemma noDigitHyphen_quiet x y :
  Forall (λ c, isDigit c = false) x → noDigitHyphen (x ++ y) = noDigitHyphen y.
Proof.
  induction 1 as [|c x Hc _ IH]; [done|]. cbn [app noDigitHyphen]. by rewrite Hc, IH.
Qed.

Lemma noDigitHyphen_cons c x :
  isDigit c = false → noDigitHyphen (c :: x) = noDigitHyphen x.
Proof. intros Hc. cbn [noDigitHyphen]. by rewrite Hc. Qed.

Lemma noDigitHyphen_digits ds c rest :
  Forall (λ d, isDigit d = true) ds → Ascii.eqb c "-" = false →
  noDigitHyphen (ds ++ c :: rest) = noDigitHyphen (c :: rest).
Proof.
  intros Hds Hc. induction Hds as [|d ds Hd Hds IH]; [done|].
  cbn [app]. cbn [noDigitHyphen] in *. rewrite Hd, IH.
  destruct Hds as [|d' ds Hd' _]; cbn [app].
  - by rewrite Hc.
  - by rewrite (digit_not_hyphen d' Hd').
Qed.

Lemma twoDigits_digits v : v < 100 → Forall (λ d, isDigit d = true) (twoDigits v).
Proof.
  intros Hv. unfold twoDigits, digitChar. repeat constructor.
  - assert (Hq : v / 10 = (v / 10) mod 10).
    { symmetry. apply Nat.mod_small. apply Nat.Div0.div_lt_upper_bound. lia. }
    rewrite Hq. apply digit_of_mod.
  - apply digit_of_mod.
Qed.

(** No match of the second pattern starts at a byte that is not a capital
    letter. *)
Lemma match_at_lastModified_nonupper c s :
  isUpper c = false → match_at lastModifiedPattern (c :: s) = None.
Proof.
  destruct c as [[] [] [] [] [] [] [] []]; intros H; vm_compute in H;
    first [discriminate H|vm_compute; reflexivity].
Qed.

Lemma ReplaceAllString_lastModified_nonupper pre s repl :
  Forall (λ c, isUpper c = false) pre →
  ReplaceAllString lastModifiedPattern (pre ++ s) repl
  = pre ++ ReplaceAllString lastModifiedPattern s repl.
Proof.
  induction 1 as [|c pre Hc _ IH]; [done|]. cbn [app].
  rewrite ReplaceAllString_keep by (by apply match_at_lastModified_nonupper). by rewrite IH.
Qed.

(** The first pass puts a capital letter at the start of its output only
    where the text starts with one. *)
Lemma startsUpper_rfc3339 post :
  startsUpper (ReplaceAllString rfc3339Pattern post rfc3339Default) = startsUpper post.
Proof.
  destruct post as [|c post]; [done|].
  destruct (isDigit c) eqn:Hc.
  - assert (Hu : isUpper c = false).
    { destruct (isUpper c) eqn:Hu; [|done]. apply upper_not_digit in Hu. congruence. }
    unfold ReplaceAllString. cbn [regexp.replace_from startsUpper]. rewrite Hu.
    destruct (match_at rfc3339Pattern (c :: post)) as [[|n]|]; cbn; by rewrite ?Hu.
  - by rewrite ReplaceAllString_keep by (by apply match_at_rfc3339_nondigit).
Qed.

(** No match of the second pattern starts in the literal of the first. *)
Lemma match_at_lastModified_literal y j :
  j < length rfc3339Default →
  match_at lastModifiedPattern (drop j rfc3339Default ++ y) = None.
Proof.
  intros Hj. do 20 (destruct j as [|j]; [vm_compute; reflexivity|]).
  cbn in Hj. lia.
Qed.

End pass_facts.

Section date_facts.

Implicit Types (s x y pre post : text) (k : text → option text) (d : httpDate).

Local Ltac names H :=
  cbn in H;
  repeat (apply elem_of_cons in H as [->|H]);
  [..|by apply elem_of_nil in H].

Lemma exec_dayName n s k :
  n ∈ dayNames → exec rfc7232.dayName (n ++ s) k = k s.
Proof.
  intros H. names H;
    (vm_compute;
     try match goal with |- context [match ?o with Some _ => _ | None => _ end] =>
           destruct o end;
     reflexivity).
Qed.

Lemma exec_monthName n s k :
  n ∈ monthNames → exec rfc7232.month (n ++ s) k = k s.
Proof.
  intros H. names H;
    (vm_compute;
     try match goal with |- context [match ?o with Some _ => _ | None => _ end] =>
           destruct o end;
     reflexivity).
Qed.

Lemma exec_digits n ds s k :
  length ds = n → Forall (λ c, isDigit c = true) ds →
  exec (Rep n (Cls digit)) (ds ++ s) k = k s.
Proof.
  intros <- Hds. induction Hds as [|c ds Hc _ IH]; [done|].
  cbn [length Rep exec app]. unfold isDigit in Hc. by rewrite Hc.
Qed.

Lemma exec_tz z post :
  z ≠ [] → Forall (λ c, isUpper c = true) z → zoneEnds z post = true →
  exec rfc7232.tz (z ++ post) Some = Some post.
Proof.
  intros Hne Hz [Hname|Hother]%orb_true_iff.
  - apply bool_decide_eq_true in Hname. names Hname; reflexivity.
  - apply andb_true_iff in Hother as [Hnames Hpost]. apply negb_true_iff in Hpost.
    cbn [zoneNames map forallb] in Hnames. rewrite !andb_true_iff in Hnames.
    destruct Hnames as (H1 & H2 & H3 & H4 & _).
    assert (Hno : ∀ n, Forall (λ c, isUpper c = true) n →
              strings.HasPrefix z n = false → strings.HasPrefix (z ++ post) n = false).
    { intros n Hn Hf. destruct (strings.HasPrefix (z ++ post) n) eqn:Hp; [|done].
      apply (HasPrefix_upper n z post Hn Hpost) in Hp. congruence. }
    apply negb_true_iff in H1, H2, H3, H4.
    unfold rfc7232.tz. cbn [Alts exec].
    rewrite !exec_Str.
    rewrite (Hno (T "GMT")), (Hno (T "CEST")), (Hno (T "UTC")), (Hno (T "IST"));
      try done; try (repeat constructor).
    apply plus_run; [done|done|done|].
    destruct post as [|c post]; [done|]. exact Hpost.
Qed.

(** The pattern matches a rendered time, up to the end of its zone. *)
Lemma exec_lastModified_date d post :
  validDate d = true → zoneEnds (dateZone d) post = true →
  exec lastModifiedPattern (renderDate d ++ post) Some = Some post.
Proof.
  unfold validDate. rewrite !andb_true_iff.
  intros ((((((((((Hdn & Hdl) & Hdd) & Hmn) & Hyl) & Hyd) & Hh) & Hmi) & Hs) & Hzne) & Hzu) Hz.
  apply bool_decide_eq_true in Hdn, Hmn.
  apply Nat.eqb_eq in Hdl, Hyl. apply forallb_true_Forall in Hdd, Hyd, Hzu.
  apply negb_true_iff, bool_decide_eq_false in Hzne.
  apply Nat.leb_le in Hh, Hmi, Hs.
  unfold renderDate, lastModifiedPattern, rfc7232.pattern.
  rewrite <- !app_assoc. cbn [Seq exec].
  rewrite exec_dayName by done. cbn [T list_ascii_of_string app Str exec].
  rewrite !Ascii.eqb_refl. unfold rfc7232.day, rfc7232.year.
  rewrite exec_digits by done. rewrite Ascii.eqb_refl, exec_monthName by done.
  rewrite Ascii.eqb_refl, exec_digits by done. rewrite Ascii.eqb_refl.
  change rfc7232.hour with rfc3339.hour. rewrite exec_hour by done.
  rewrite Ascii.eqb_refl.
  change rfc7232.minute with rfc3339.minute. rewrite exec_minute by done.
  rewrite Ascii.eqb_refl.
  change rfc7232.second with rfc3339.second. rewrite exec_second by done.
  rewrite Ascii.eqb_refl. by apply exec_tz.
Qed.

Lemma renderDate_nonempty d : validDate d = true → renderDate d ≠ [].
Proof.
  unfold validDate. rewrite !andb_true_iff.
  intros ((((((((((Hdn & _) & _) & _) & _) & _) & _) & _) & _) & _) & _).
  apply bool_decide_eq_true in Hdn. unfold renderDate. names Hdn; done.
Qed.

Lemma renderDate_noDigitHyphen d :
  validDate d = true → noDigitHyphen (renderDate d) = true.
Proof.
  unfold validDate. rewrite !andb_true_iff.
  intros ((((((((((Hdn & Hdl) & Hdd) & Hmn) & Hyl) & Hyd) & Hh) & Hmi) & Hs) & Hzne) & Hzu).
  apply bool_decide_eq_true in Hdn, Hmn.
  apply forallb_true_Forall in Hdd, Hyd, Hzu.
  apply Nat.leb_le in Hh, Hmi, Hs.
  assert (Hnames : ∀ n, n ∈ dayNames ∨ n ∈ monthNames → Forall (λ c, isDigit c = false) n).
  { intros n [H|H]; names H; repeat constructor. }
  unfold renderDate. cbn [T list_ascii_of_string app].
  rewrite noDigitHyphen_quiet by (apply Hnames; by left).
  rewrite !noDigitHyphen_cons by reflexivity.
  rewrite noDigitHyphen_digits, noDigitHyphen_cons by done.
  rewrite noDigitHyphen_quiet by (apply Hnames; by right).
  rewrite noDigitHyphen_cons by reflexivity.
  rewrite noDigitHyphen_digits, noDigitHyphen_cons by done.
  rewrite noDigitHyphen_digits, noDigitHyphen_cons
    by (try apply twoDigits_digits; try done; lia).
  rewrite noDigitHyphen_digits, noDigitHyphen_cons
    by (try apply twoDigits_digits; try done; lia).
  rewrite noDigitHyphen_digits, noDigitHyphen_cons
    by (try apply twoDigits_digits; try done; lia).
  rewrite <- (app_nil_r (dateZone d)). rewrite noDigitHyphen_quiet; [done|].
  eapply Forall_impl; [exact Hzu|]. intros c Hc. by apply upper_not_digit.
Qed.

Lemma quiet_split pre :
  Forall (λ c, isQuiet c = true) pre →
  Forall (λ c, isDigit c = false) pre ∧ Forall (λ c, isUpper c = false) pre.
Proof.
  intros H. split; (eapply Forall_impl; [exact H|]); intros c Hc;
    unfold isQuiet in Hc; apply andb_true_iff in Hc as [H1 H2];
    by apply negb_true_iff in H1, H2.
Qed.

(** A time of the second kind between quiet bytes and any text: it is
    replaced by the literal, the bytes before it are kept, and the text
    after it is rewritten as it is on its own. *)
Lemma replaceTimes_date pre d post :
  Forall (λ c, isQuiet c = true) pre →
  validDate d = true → zoneEnds (dateZone d) post = true →
  replaceTimes (pre ++ renderDate d ++ post)
  = (out ← replaceTimes post; Ok (pre ++ lastModifiedDefault ++ out)).
Proof.
  intros [Hpd Hpu]%quiet_split Hd Hz. unfold replaceTimes. cbn [mbind result_bind]. f_equal.
  rewrite ReplaceAllString_rfc3339_nondigits by done.
  rewrite (ReplaceAllString_pass rfc3339Pattern _ (renderDate d) post)
    by (intros j Hj; apply match_at_rfc3339_noDigitHyphen;
        [by apply renderDate_noDigitHyphen|done]).
  rewrite ReplaceAllString_lastModified_nonupper by done. f_equal.
  apply ReplaceAllString_head; [by apply renderDate_nonempty|].
  apply exec_lastModified_date; [done|].
  unfold zoneEnds in *. by rewrite startsUpper_rfc3339.
Qed.

(** The same for a time of the first kind. *)
Lemma replaceTimes_span pre sp post :
  Forall (λ c, isQuiet c = true) pre →
  validSpan sp = true →
  replaceTimes (pre ++ renderSpan sp ++ post)
  = (out ← replaceTimes post; Ok (pre ++ rfc3339Default ++ out)).
Proof.
  intros [Hpd Hpu]%quiet_split Hsp. unfold replaceTimes. cbn [mbind result_bind]. f_equal.
  rewrite ReplaceAllString_rfc3339_nondigits by done.
  rewrite (ReplaceAllString_head rfc3339Pattern rfc3339Default (renderSpan sp) post)
    by (first [by apply renderSpan_nonempty|by apply exec_rfc3339_span]).
  rewrite ReplaceAllString_lastModified_nonupper by done.
  by rewrite (ReplaceAllString_pass lastModifiedPattern _ rfc3339Default)
    by (intros j Hj; by apply match_at_lastModified_literal).
Qed.

End date_facts.

(** * The update of the golden file *)

Section update_facts.

Implicit Types (w : world) (p q : list text) (fs : gmap (list text) node).

Lemma prefix_snoc_inv q p (c : text) :
  q `prefix_of` p ++ [c] → q = p ++ [c] ∨ q `prefix_of` p.
Proof.
  intros [k Hk]. destruct k as [|c' k _] using rev_ind.
  - left. by rewrite app_nil_r in Hk.
  - right. rewrite app_assoc in Hk. apply app_inj_tail in Hk as [-> _]. by exists k.
Qed.

Lemma Dir_snoc p (c : text) : filepath.Dir (p ++ [c]) = p.
Proof. unfold filepath.Dir. apply removelast_last. Qed.

Lemma snoc_not_prefix p (c : text) : ¬ (p ++ [c]) `prefix_of` p.
Proof.
  intros [k Hk]. apply (f_equal length) in Hk. rewrite !length_app in Hk. cbn in Hk. lia.
Qed.

(** In a tree everything above a node is a directory. *)
Lemma wellFormed_above w p :
  wellFormed w → is_Some (files w !! p) →
  ∀ q, q `prefix_of` p → q ≠ p → os.lookup q w = Some Directory.
Proof.
  intros Hwf. induction p as [|c p IH] using rev_ind; intros Hp q Hq Hne.
  - destruct Hq as [k Hk]. symmetry in Hk. apply app_eq_nil in Hk as [-> _]. done.
  - destruct (Hwf _ Hp) as [_ Hdir]. rewrite Dir_snoc in Hdir.
    apply prefix_snoc_inv in Hq as [->|Hq]; [done|].
    destruct (decide (q = p)) as [->|Hqp]; [done|].
    apply IH; [|done|done].
    destruct p as [|c' p]; [|by (cbn in Hdir; rewrite Hdir)].
    destruct Hq as [k Hk]. symmetry in Hk. apply app_eq_nil in Hk as [-> _]. done.
Qed.

Lemma lookup_insert_world w p n q :
  q ≠ p → os.lookup q (World (cwd w) (<[p := n]> (files w))) = os.lookup q w.
Proof.
  intros Hne. destruct q as [|c q]; [done|]. cbn [os.lookup files].
  by rewrite lookup_insert_ne.
Qed.

(** [MkdirAll] below directories: the directories of the path exist
    afterwards, the tree stays a tree and nothing else changes. *)
Lemma mkdirAll_rev_ok rp : ∀ w,
  wellFormed w →
  (∀ q d, q `prefix_of` rev rp → files w !! q ≠ Some (File d)) →
  ∃ fs', os.mkdirAll_rev rp (files w) = Ok fs'
    ∧ wellFormed (World (cwd w) fs')
    ∧ (∀ q, q `prefix_of` rev rp → os.lookup q (World (cwd w) fs') = Some Directory)
    ∧ (∀ q, ¬ q `prefix_of` rev rp → fs' !! q = files w !! q).
Proof.
  induction rp as [|c rp IH]; intros w Hwf Hfiles.
  - exists (files w). split_and!; [done|by destruct w| |done].
    intros q [k Hk]. symmetry in Hk. apply app_eq_nil in Hk as [-> _]. done.
  - cbn [os.mkdirAll_rev rev] in *.
    destruct (files w !! (rev rp ++ [c])) as [[d|]|] eqn:Hp.
    + by destruct (Hfiles (rev rp ++ [c]) d).
    + exists (files w). split_and!; [done|by destruct w| |done].
      intros q Hq. destruct (decide (q = rev rp ++ [c])) as [->|Hne].
      * destruct (rev rp); cbn [app os.lookup files]; done.
      * assert (Hlook : os.lookup q w = Some Directory)
          by (apply (wellFormed_above w (rev rp ++ [c])); by rewrite ?Hp).
        by destruct w, q.
    + destruct (IH w Hwf) as (fs1 & Hrun & Hwf1 & Hdirs & Hsame).
      { intros q d Hq. apply Hfiles. destruct Hq as [k ->]. exists (k ++ [c]).
        by rewrite app_assoc. }
      rewrite Hrun. cbn [mbind result_bind].
      exists (<[rev rp ++ [c] := Directory]> fs1).
      assert (Hparent : os.lookup (rev rp) (World (cwd w) fs1) = Some Directory)
        by (by apply Hdirs).
      split_and!; [done| | |].
      * intros q [n Hq]. cbn [files] in Hq.
        destruct (decide (q = rev rp ++ [c])) as [->|Hne].
        -- split; [by destruct (rev rp)|]. rewrite Dir_snoc.
           rewrite (lookup_insert_world (World (cwd w) fs1)); [done|].
           intros Heq. apply (snoc_not_prefix (rev rp) c). by rewrite <- Heq.
        -- rewrite lookup_insert_ne in Hq by done.
           destruct (Hwf1 q (ex_intro _ n Hq)) as [Hq0 Hdir]. split; [done|].
           destruct (decide (filepath.Dir q = rev rp ++ [c])) as [->|Hne'].
           ++ destruct (rev rp); cbn [app os.lookup files]; by rewrite lookup_insert_eq.
           ++ by rewrite (lookup_insert_world (World (cwd w) fs1)).
      * intros q Hq. apply prefix_snoc_inv in Hq as [->|Hq].
        -- destruct (rev rp); cbn [app os.lookup files]; by rewrite lookup_insert_eq.
        -- rewrite (lookup_insert_world (World (cwd w) fs1)); [by apply Hdirs|].
           intros ->. by apply (snoc_not_prefix (rev rp) c).
      * intros q Hq. rewrite lookup_insert_ne by (by intros <-).
        apply Hsame. intros [k Hk]. apply Hq. rewrite Hk. exists (k ++ [c]).
        by rewrite app_assoc.
Qed.

Lemma MkdirAll_ok p w :
  wellFormed w →
  (∀ q d, q `prefix_of` p → files w !! q ≠ Some (File d)) →
  ∃ w', os.MkdirAll p w = Ok w'
    ∧ cwd w' = cwd w
    ∧ wellFormed w'
    ∧ (∀ q, q `prefix_of` p → os.lookup q w' = Some Directory)
    ∧ (∀ q, ¬ q `prefix_of` p → os.lookup q w' = os.lookup q w).
Proof.
  intros Hwf Hfiles. destruct (mkdirAll_rev_ok (rev p) w Hwf) as (fs' & Hrun & ? & ? & Hsame).
  { by rewrite rev_involutive. }
  rewrite rev_involutive in *.
  exists (World (cwd w) fs'). unfold os.MkdirAll. rewrite Hrun.
  split_and!; [done|done|done|done|].
  intros q Hq. destruct q as [|c q]; [done|]. cbn [os.lookup files]. by apply Hsame.
Qed.

(** [MkdirAll] below a file: the error names the file and nothing
    changes. *)
Lemma mkdirAll_rev_below_file rp : ∀ w q d,
  wellFormed w → q `prefix_of` rev rp → files w !! q = Some (File d) →
  os.mkdirAll_rev rp (files w) = Err (PathError "mkdir" q ENOTDIR).
Proof.
  induction rp as [|c rp IH]; intros w q d Hwf Hq Hfile.
  - destruct Hq as [k Hk]. symmetry in Hk. apply app_eq_nil in Hk as [-> _].
    destruct (Hwf [] (ex_intro _ _ Hfile)) as [? _]. done.
  - cbn [os.mkdirAll_rev rev] in *. apply prefix_snoc_inv in Hq as [->|Hq].
    + by rewrite Hfile.
    + destruct (files w !! (rev rp ++ [c])) as [n|] eqn:Hp.
      * assert (Hne : q ≠ rev rp ++ [c]).
        { intros ->. by apply (snoc_not_prefix (rev rp) c). }
        assert (Hdir : os.lookup q w = Some Directory).
        { apply (wellFormed_above w (rev rp ++ [c])); [done|by rewrite Hp| |done].
          destruct Hq as [k ->]. exists (k ++ [c]). by rewrite app_assoc. }
        destruct q as [|c' q]; cbn [os.lookup] in Hdir; [|congruence].
        by destruct (Hwf [] (ex_intro _ _ Hfile)) as [? _].
      * by rewrite (IH w q d Hwf Hq Hfile).
Qed.

Lemma fileAbove_true p w :
  os.fileAbove p w = true →
  ∃ q d, q `prefix_of` p ∧ q ≠ p ∧ files w !! q = Some (File d).
Proof.
  unfold os.fileAbove. intros (k & Hk & Hfile)%existsb_exists.
  apply in_seq in Hk. unfold os.isFile in Hfile.
  destruct (files w !! take k p) as [[d|]|] eqn:Hq; try done.
  exists (take k p), d. split_and!; [|by (intros Heq; apply (f_equal length) in Heq;
                                           rewrite length_take in Heq; lia)|done].
  exists (drop k p). by rewrite take_drop.
Qed.

(** In a tree no regular file stands above what is in a directory. *)
Lemma fileAbove_tree p w :
  wellFormed w → os.lookup (filepath.Dir p) w = Some Directory → os.fileAbove p w = false.
Proof.
  intros Hwf Hdir. destruct (os.fileAbove p w) eqn:Habove; [|done].
  apply fileAbove_true in Habove as (q & d & Hq & Hne & Hfile).
  assert (Hq0 : q ≠ []).
  { intros ->. by destruct (Hwf [] (ex_intro _ _ Hfile)) as [? _]. }
  destruct p as [|c p _] using rev_ind.
  { destruct Hq as [k Hk]. symmetry in Hk. by apply app_eq_nil in Hk as [-> _]. }
  rewrite Dir_snoc in Hdir. apply prefix_snoc_inv in Hq as [->|Hq]; [done|].
  assert (Hlook : os.lookup q w = Some Directory).
  { destruct (decide (q = p)) as [->|Hqp]; [done|].
    apply (wellFormed_above w p); [done| |done|done].
    destruct p as [|c' p]; [|by (cbn in Hdir; rewrite Hdir)].
    destruct Hq as [k Hk]. symmetry in Hk. by apply app_eq_nil in Hk as [-> _]. }
  destruct q as [|c' q]; [done|]. cbn [os.lookup] in Hlook. congruence.
Qed.

Lemma WriteFile_ok p data w :
  wellFormed w →
  os.lookup p w ≠ Some Directory →
  os.lookup (filepath.Dir p) w = Some Directory →
  ∃ w', ioutil.WriteFile p data w = Ok w'
    ∧ cwd w' = cwd w
    ∧ wellFormed w'
    ∧ ioutil.ReadFile p w' = Ok data
    ∧ (∀ q, q ≠ p → os.lookup q w' = os.lookup q w).
Proof.
  intros Hwf Hp Hdir.
  assert (Hp0 : p ≠ []) by (by intros ->).
  exists (World (cwd w) (<[p := File data]> (files w))).
  assert (Hrun : ioutil.WriteFile p data w
                 = Ok (World (cwd w) (<[p := File data]> (files w)))).
  { unfold ioutil.WriteFile. rewrite (fileAbove_tree p w Hwf Hdir), Hdir.
    by destruct (os.lookup p w) as [[|]|]. }
  split_and!; [done|done| |by apply (WriteFile_read p data w)|].
  - intros q [n Hq]. cbn [files] in Hq.
    destruct (decide (q = p)) as [->|Hne].
    + split; [done|]. rewrite lookup_insert_world; [done|].
      intros Heq. destruct p as [|c p _] using rev_ind; [done|].
      rewrite Dir_snoc in Heq. apply (snoc_not_prefix p c). by rewrite <- Heq.
    + rewrite lookup_insert_ne in Hq by done.
      destruct (Hwf q (ex_intro _ n Hq)) as [Hq0 Hqdir]. split; [done|].
      rewrite lookup_insert_world; [done|]. intros Heq. by rewrite Heq in Hqdir.
  - intros q Hne. by apply lookup_insert_world.
Qed.

(** The update in a tree where nothing above the golden file is a file
    and the golden file is no directory. *)
Lemma updateGolden_ok absPath actual opts w :
  wellFormed w →
  (∀ q d, q `prefix_of` filepath.Dir absPath → files w !! q ≠ Some (File d)) →
  os.lookup absPath w ≠ Some Directory →
  ∃ w1 tmp, normalize opts actual = Ok tmp
    ∧ updateGolden absPath actual opts w = (w1, Ok ())
    ∧ cwd w1 = cwd w
    ∧ wellFormed w1
    ∧ ioutil.ReadFile absPath w1 = Ok tmp
    ∧ (∀ q, q `prefix_of` filepath.Dir absPath → os.lookup q w1 = Some Directory)
    ∧ (∀ q, ¬ q `prefix_of` absPath → os.lookup q w1 = os.lookup q w).
Proof.
  intros Hwf Hfiles Hp.
  assert (Hp0 : absPath ≠ []) by (by intros ->).
  destruct absPath as [|c p _] using rev_ind; [done|]. rewrite Dir_snoc in *.
  destruct (MkdirAll_ok p w Hwf Hfiles) as (w' & Hmk & Hcwd & Hwf' & Hdirs & Hsame).
  destruct (normalize_total opts actual) as [tmp Htmp].
  destruct (WriteFile_ok (p ++ [c]) tmp w' Hwf') as (w1 & Hwr & Hcwd1 & Hwf1 & Hread & Hsame1).
  { rewrite Hsame; [done|]. apply snoc_not_prefix. }
  { rewrite Dir_snoc. by apply Hdirs. }
  exists w1, tmp.
  assert (Hrun : updateGolden (p ++ [c]) actual opts w = (w1, Ok ())).
  { unfold updateGolden, writing, pure, mbind, io_bind. rewrite Dir_snoc, Hmk. cbn [wrap].
    rewrite Htmp, Hwr. done. }
  split_and!; [done|done|congruence|done|done| |].
  - intros q Hq. rewrite Hsame1; [by apply Hdirs|].
    intros ->. by apply (snoc_not_prefix p c).
  - intros q Hq. rewrite Hsame1 by (intros ->; by apply Hq).
    apply Hsame. intros [k ->]. apply Hq. exists (k ++ [c]). by rewrite app_assoc.
Qed.

End update_facts.

(** * Texts without a hyphen *)

Section hyphen_facts.

Implicit Types (s m : text).

Lemma matches_rfc3339_hyphen m : matches rfc3339Pattern m → "-"%char ∈ m.
Proof.
  unfold rfc3339Pattern, rfc3339.pattern, rfc3339.datePattern. cbn [Seq].
  intros H. inversion H as [| | |? ? m1 m2 H1 _| | | | |]; subst.
  inversion H1 as [| | |? ? y m3 _ H3| | | | |]; subst.
  inversion H3 as [| | |? ? h m4 Hh _| | | | |]; subst.
  inversion Hh; subst.
  apply elem_of_app. left. apply elem_of_app. right. apply elem_of_app. left.
  apply list_elem_of_here.
Qed.

Lemma fits_uuid_hyphen s : fits uuidClasses s = true → "-"%char ∈ s.
Proof.
  intros H. destruct (fits_lookup uuidClasses s 8 dash H eq_refl) as (c & Hc & Hmem).
  assert (c = "-"%char) as ->.
  { unfold dash in Hmem. cbn in Hmem. rewrite orb_false_r in Hmem. by apply Ascii.eqb_eq. }
  by apply (list_elem_of_lookup_2 s 8).
Qed.

Lemma elem_of_drop_app_nil (c : ascii) s j : c ∈ drop j s ++ [] → c ∈ s.
Proof.
  rewrite app_nil_r. intros H. rewrite <- (take_drop j s). apply elem_of_app. by right.
Qed.

(** Neither the finder nor the first pass of the times matches in a text
    without a hyphen. *)
Lemma hyphen_free_uuids s :
  Forall (λ c, c ≠ "-"%char) s → findUUIDs s = Ok [] ∧ replaceUUIDs s = Ok s.
Proof.
  intros Hs.
  assert (Hnone : FindAllStringIndex uuidRegexp s = []).
  { unfold FindAllStringIndex. rewrite <- (app_nil_r s). rewrite find_keep; [done|].
    intros k _. destruct (fits uuidClasses (drop k s ++ [])) eqn:Hf; [|done].
    apply fits_uuid_hyphen, elem_of_drop_app_nil in Hf.
    rewrite Forall_forall in Hs. by destruct (Hs _ Hf). }
  assert (Hfind : findUUIDs s = Ok []) by (unfold findUUIDs, FindAllString; by rewrite Hnone).
  split; [done|]. unfold replaceUUIDs. by rewrite Hfind.
Qed.

Lemma hyphen_free_rfc3339 s repl :
  Forall (λ c, c ≠ "-"%char) s → ReplaceAllString rfc3339Pattern s repl = s.
Proof.
  intros Hs. rewrite <- (app_nil_r s) at 1. rewrite ReplaceAllString_pass.
  - unfold ReplaceAllString. cbn. by rewrite app_nil_r.
  - intros j _. destruct (match_at rfc3339Pattern (drop j s ++ [])) as [n|] eqn:Hm; [|done].
    apply match_at_sound in Hm as [_ Hm]. apply matches_rfc3339_hyphen in Hm.
    assert (Hin : "-"%char ∈ drop j s ++ []).
    { rewrite <- (take_drop n (drop j s ++ [])). apply elem_of_app. by left. }
    apply elem_of_drop_app_nil in Hin. rewrite Forall_forall in Hs. by destruct (Hs _ Hin).
Qed.

End hyphen_facts.

(** * Paths *)

Section path_facts.

Implicit Types (s c cur : text) (q acc comps : list text).

Lemma split_noSlash s : ∀ cur, "/"%char ∉ s → filepath.split s cur = [cur ++ s].
Proof.
  induction s as [|a s IH]; intros cur Hs; cbn [filepath.split].
  - by rewrite app_nil_r.
  - destruct (Ascii.eqb_spec a "/") as [->|Hne].
    + destruct Hs. apply list_elem_of_here.
    + rewrite IH by (intros H; apply Hs; by apply list_elem_of_further).
      by rewrite <- app_assoc.
Qed.

Lemma split_app_noSlash c : ∀ s cur,
  "/"%char ∉ c → filepath.split (c ++ s) cur = filepath.split s (cur ++ c).
Proof.
  induction c as [|a c IH]; intros s cur Hc; cbn [app].
  - by rewrite app_nil_r.
  - cbn [filepath.split]. destruct (Ascii.eqb_spec a "/") as [->|Hne].
    + destruct Hc. apply list_elem_of_here.
    + rewrite IH by (intros H; apply Hc; by apply list_elem_of_further).
      by rewrite <- app_assoc.
Qed.

Lemma split_components q : ∀ cur,
  Forall (λ c, "/"%char ∉ c) q → q ≠ [] →
  filepath.split (flat_map (λ c, "/"%char :: c) q) cur = cur :: q.
Proof.
  induction q as [|c q IH]; intros cur Hq Hne; [done|].
  apply Forall_cons in Hq as [Hc Hq]. cbn [flat_map app filepath.split].
  change (Ascii.eqb "/" "/") with true. cbn iota. f_equal.
  destruct q as [|c' q].
  - cbn [flat_map]. rewrite app_nil_r. by apply split_noSlash.
  - rewrite split_app_noSlash by done. by rewrite IH.
Qed.

Lemma split_noSlash_components s : ∀ cur,
  "/"%char ∉ cur → Forall (λ c, "/"%char ∉ c) (filepath.split s cur).
Proof.
  induction s as [|a s IH]; intros cur Hcur; cbn [filepath.split].
  - by constructor.
  - destruct (Ascii.eqb_spec a "/") as [->|Hne].
    + constructor; [done|]. apply IH. by intros H%elem_of_nil.
    + apply IH. intros [H|H%list_elem_of_singleton]%elem_of_app; [done|]. by subst.
Qed.

Lemma Forall_removelast {A} (P : A → Prop) (l : list A) :
  Forall P l → Forall P (removelast l).
Proof.
  induction 1 as [|x l Hx Hl IH]; [done|]. cbn [removelast].
  destruct l; [constructor|]. by constructor.
Qed.

Lemma clean_step_keeps (P : text → Prop) acc c :
  Forall P acc → P c → Forall P (filepath.clean_step acc c).
Proof.
  intros Hacc Hc. unfold filepath.clean_step.
  destruct (bool_decide _); [done|]. destruct (bool_decide _).
  - by apply Forall_removelast.
  - apply Forall_app. split; [done|by constructor].
Qed.

Lemma clean_step_kept acc c :
  Forall kept acc → Forall kept (filepath.clean_step acc c).
Proof.
  intros Hacc. unfold filepath.clean_step.
  destruct (bool_decide_reflect (c = [] ∨ c = T ".")) as [|H1]; [done|].
  destruct (bool_decide_reflect (c = T "..")) as [|H2].
  - by apply Forall_removelast.
  - apply Forall_app. split; [done|]. constructor; [|done]. unfold kept. tauto.
Qed.

Lemma fold_clean_keeps (P : text → Prop) comps : ∀ acc,
  Forall P acc → Forall P comps → Forall P (fold_left filepath.clean_step comps acc).
Proof.
  induction comps as [|c comps IH]; intros acc Hacc Hcomps; [done|].
  apply Forall_cons in Hcomps as [Hc Hcomps]. cbn [fold_left].
  apply IH; [by apply clean_step_keeps|done].
Qed.

Lemma fold_clean_kept comps : ∀ acc,
  Forall kept acc → Forall kept (fold_left filepath.clean_step comps acc).
Proof.
  induction comps as [|c comps IH]; intros acc Hacc; [done|].
  cbn [fold_left]. apply IH. by apply clean_step_kept.
Qed.

Lemma fold_clean_id q : ∀ acc,
  Forall kept q → fold_left filepath.clean_step q acc = acc ++ q.
Proof.
  induction q as [|c q IH]; intros acc Hq; [by rewrite app_nil_r|].
  apply Forall_cons in Hq as [(H1 & H2 & H3) Hq]. cbn [fold_left].
  unfold filepath.clean_step at 2.
  rewrite bool_decide_eq_false_2 by tauto. rewrite bool_decide_eq_false_2 by done.
  rewrite IH by done. by rewrite <- app_assoc.
Qed.

(** What [Abs] returns is clean, and it is the path that its string
    denotes. *)
Lemma Abs_clean wd p absPath :
  match wd with Some d => Forall (λ c, "/"%char ∉ c) d | None => True end →
  filepath.Abs wd p = Ok absPath →
  Forall kept absPath ∧ Forall (λ c, "/"%char ∉ c) absPath.
Proof.
  intros Hwd. unfold filepath.Abs, filepath.clean_rooted.
  assert (Hsplit : Forall (λ c, "/"%char ∉ c) (filepath.split p []))
    by (apply split_noSlash_components; by intros H%elem_of_nil).
  destruct (filepath.IsAbs p).
  - intros [= <-]. split; [by apply fold_clean_kept|by apply fold_clean_keeps].
  - destruct wd as [d|]; [|done]. intros [= <-].
    split; [by apply fold_clean_kept|].
    apply fold_clean_keeps; [done|]. apply Forall_app. by split.
Qed.

Lemma Abs_toString wd q :
  Forall kept q → Forall (λ c, "/"%char ∉ c) q →
  filepath.IsAbs (filepath.toString q) = true
  ∧ filepath.Abs wd (filepath.toString q) = Ok q.
Proof.
  intros Hk Hs. destruct q as [|c q].
  - split; reflexivity.
  - assert (Habs : filepath.IsAbs (filepath.toString (c :: q)) = true).
    { unfold filepath.IsAbs, filepath.toString. cbn [flat_map app T list_ascii_of_string].
      cbn [strings.HasPrefix]. change (Ascii.eqb "/" "/") with true.
      by destruct (c ++ flat_map _ q). }
    split; [done|]. unfold filepath.Abs. rewrite Habs. f_equal.
    unfold filepath.toString. rewrite split_components by done.
    unfold filepath.clean_rooted. cbn [fold_left].
    assert (Hnil : filepath.clean_step [] [] = []).
    { unfold filepath.clean_step. rewrite bool_decide_eq_true_2; [done|by left]. }
    rewrite Hnil. exact (fold_clean_id (c :: q) [] Hk).
Qed.

(** The comparison depends on the name of the golden file through the
    absolute path only. *)
Lemma compare_same_path update g1 g2 actualObj opts w absPath :
  filepath.Abs (cwd w) g1 = Ok absPath → filepath.Abs (cwd w) g2 = Ok absPath →
  testableCompareWithGolden update g1 actualObj opts w
  = testableCompareWithGolden update g2 actualObj opts w.
Proof.
  intros H1 H2. unfold testableCompareWithGolden, reading, mbind, io_bind.
  by rewrite H1, H2.
Qed.

End path_facts.

(** * The languages of the two patterns of the times *)

Section language_facts.

Implicit Types (s m : text) (r : re) (c : ascii).

Local Ltac inv_matches :=
  repeat match goal with
  | H : matches (Cat _ _) _ |- _ => inversion H; subst; clear H
  | H : matches (Alt _ _) _ |- _ => inversion H; subst; clear H
  | H : matches (Lit _) _ |- _ => inversion H; subst; clear H
  | H : matches (Cls _) _ |- _ => inversion H; subst; clear H
  | H : matches (Opt _) _ |- _ => inversion H; subst; clear H
  | H : matches (Plus _) _ |- _ => inversion H; subst; clear H
  | H : matches Eps _ |- _ => inversion H; subst; clear H
  end.

Local Ltac split_Forall2 :=
  repeat match goal with
  | H : Forall2 _ (_ :: _) _ |- _ =>
      let m := fresh "m" in let Hm := fresh "Hm" in
      apply Forall2_cons_inv_l in H as (m & ? & Hm & H & ->)
  | H : Forall2 _ [] _ |- _ => apply Forall2_nil_inv_l in H as ->
  end.

Local Ltac fields := repeat match goal with |- Forall2 _ _ _ => constructor end.

Lemma exec_matches r m : exec r m Some = Some [] → matches r m.
Proof.
  intros H. apply exec_sound in H as (m' & rest & -> & Hm & [= ->]). by rewrite app_nil_r.
Qed.

Lemma matches_Seq rs : ∀ ms, Forall2 matches rs ms → matches (Seq rs) (concat ms).
Proof.
  induction rs as [|r rs IH]; intros ms H.
  - apply Forall2_nil_inv_l in H as ->. constructor.
  - apply Forall2_cons_inv_l in H as (m & ms' & Hm & H & ->). cbn [Seq concat].
    constructor; [done|by apply IH].
Qed.

Lemma matches_Seq_eq rs ms m :
  Forall2 matches rs ms → m = concat ms → matches (Seq rs) m.
Proof. intros H ->. by apply matches_Seq. Qed.

Lemma matches_Seq_inv rs : ∀ m,
  matches (Seq rs) m → ∃ ms, Forall2 matches rs ms ∧ m = concat ms.
Proof.
  induction rs as [|r rs IH]; intros m H; cbn [Seq] in H.
  - inversion H; subst. by exists [].
  - inversion H as [| | |? ? m1 m2 H1 H2| | | | |]; subst.
    destruct (IH m2 H2) as (ms & Hms & ->). exists (m1 :: ms). split; [by constructor|done].
Qed.

Lemma matches_Str n m : matches (Str n) m ↔ m = n.
Proof.
  revert m. induction n as [|c n IH]; intros m; cbn [Str].
  - split; [by inversion 1|intros ->; constructor].
  - split.
    + intros H. inv_matches. cbn [app]. f_equal. by apply IH.
    + intros ->. change (c :: n) with ([c] ++ n). constructor; [constructor|by apply IH].
Qed.

Lemma matches_Alts r rs : ∀ m,
  matches (Alts r rs) m ↔ Exists (λ r', matches r' m) (r :: rs).
Proof.
  revert r. induction rs as [|r' rs IH]; intros r m; cbn [Alts].
  - rewrite Exists_cons, Exists_nil. tauto.
  - rewrite Exists_cons, <- IH. split.
    + inversion 1; subst; tauto.
    + intros [H|H]; [by apply matches_alt_l|by apply matches_alt_r].
Qed.

Lemma matches_names (n : string) (ns : list string) m :
  matches (Alts (Str (T n)) (map (λ x : string, Str (T x)) ns)) m ↔ m ∈ map T (n :: ns).
Proof.
  change (Str (T n) :: map (λ x : string, Str (T x)) ns)
    with (map (λ x : string, Str (T x)) (n :: ns)) || idtac.
  rewrite matches_Alts.
  change (Str (T n) :: map (λ x : string, Str (T x)) ns)
    with (map (λ x : string, Str (T x)) (n :: ns)).
  rewrite Exists_exists. split.
  - intros (r & Hr & Hm). apply list_elem_of_fmap in Hr as (x & -> & Hx).
    apply matches_Str in Hm as ->. apply list_elem_of_fmap. by exists x.
  - intros (x & -> & Hx)%list_elem_of_fmap. exists (Str (T x)). split.
    + apply list_elem_of_fmap. by exists x.
    + by apply matches_Str.
Qed.

Lemma matches_Rep_cls k cl : ∀ m,
  matches (Rep k (Cls cl)) m ↔ length m = k ∧ Forall (λ c, class_mem cl c = true) m.
Proof.
  induction k as [|k IH]; intros m; cbn [Rep].
  - split.
    + inversion 1; subst. by split.
    + intros [Hl _]. destruct m; [constructor|done].
  - split.
    + intros H. inv_matches. cbn [app length].
      match goal with H : matches (Rep _ _) _ |- _ => apply IH in H as [<- ?] end.
      split; [done|by constructor].
    + intros [Hl Hm]. destruct m as [|c m]; [done|]. apply Forall_cons in Hm as [Hc Hm].
      change (c :: m) with ([c] ++ m). constructor; [by constructor|].
      apply IH. split; [by injection Hl|done].
Qed.

Lemma matches_Plus cl m :
  matches (Plus cl) m ↔ m ≠ [] ∧ Forall (λ c, class_mem cl c = true) m.
Proof.
  split.
  - inversion 1; subst. split; [done|by constructor].
  - intros [Hne Hm]. destruct m as [|c m]; [done|]. apply Forall_cons in Hm as [? ?].
    by constructor.
Qed.

(** Digits and the numbers they denote. *)
Lemma digit_val c : isDigit c = true → val c < 10 ∧ c = digitChar (val c).
Proof.
  destruct c as [[] [] [] [] [] [] [] []]; intros H; vm_compute in H;
    first [discriminate H|split; [vm_compute; lia|reflexivity]].
Qed.

Lemma twoDigits_pair a b :
  a < 10 → b < 10 → twoDigits (10 * a + b) = [digitChar a; digitChar b].
Proof.
  intros Ha Hb. unfold twoDigits.
  assert (Hd : (10 * a + b) / 10 = a) by (symmetry; apply (Nat.div_unique _ 10 a b); lia).
  assert (Hm : (10 * a + b) mod 10 = b) by (symmetry; apply (Nat.mod_unique _ 10 a b); lia).
  by rewrite Hd, Hm.
Qed.

Lemma twoDigits_val c1 c2 :
  isDigit c1 = true → isDigit c2 = true → [c1; c2] = twoDigits (10 * val c1 + val c2).
Proof.
  intros [H1 E1]%digit_val [H2 E2]%digit_val. rewrite twoDigits_pair by done.
  by rewrite <- E1, <- E2.
Qed.

Local Ltac class_bounds :=
  let H := fresh in
  intros c; destruct c as [[] [] [] [] [] [] [] []]; intros H; vm_compute in H;
  first [discriminate H|split; [reflexivity|vm_compute; lia]].

Lemma class_19 : ∀ c, class_mem [Range "1" "9"] c = true → isDigit c = true ∧ 1 ≤ val c ≤ 9.
Proof. class_bounds. Qed.

Lemma class_012 : ∀ c,
  class_mem [Single "0"; Single "1"; Single "2"] c = true → isDigit c = true ∧ 0 ≤ val c ≤ 2.
Proof. class_bounds. Qed.

Lemma class_12 : ∀ c,
  class_mem [Single "1"; Single "2"] c = true → isDigit c = true ∧ 1 ≤ val c ≤ 2.
Proof. class_bounds. Qed.

Lemma class_01 : ∀ c,
  class_mem [Single "0"; Single "1"] c = true → isDigit c = true ∧ 0 ≤ val c ≤ 1.
Proof. class_bounds. Qed.

Lemma class_03 : ∀ c, class_mem [Range "0" "3"] c = true → isDigit c = true ∧ 0 ≤ val c ≤ 3.
Proof. class_bounds. Qed.

Lemma class_05 : ∀ c, class_mem [Range "0" "5"] c = true → isDigit c = true ∧ 0 ≤ val c ≤ 5.
Proof. class_bounds. Qed.

Lemma class_09 : ∀ c, class_mem digit c = true → isDigit c = true ∧ 0 ≤ val c ≤ 9.
Proof. class_bounds. Qed.

(** After the inversion of a field of two digits: the bytes are digits,
    and the number they denote is in the range of the field. *)
Local Ltac two_digits lo hi :=
  inv_matches;
  repeat match goal with
  | H : class_mem [Range "1" "9"] _ = true |- _ => apply class_19 in H as [? ?]
  | H : class_mem [Single "0"; Single "1"; Single "2"] _ = true |- _ =>
      apply class_012 in H as [? ?]
  | H : class_mem [Single "1"; Single "2"] _ = true |- _ => apply class_12 in H as [? ?]
  | H : class_mem [Single "0"; Single "1"] _ = true |- _ => apply class_01 in H as [? ?]
  | H : class_mem [Range "0" "3"] _ = true |- _ => apply class_03 in H as [? ?]
  | H : class_mem [Range "0" "5"] _ = true |- _ => apply class_05 in H as [? ?]
  | H : class_mem digit _ = true |- _ => apply class_09 in H as [? ?]
  end;
  cbn [app];
  match goal with
  | |- ∃ v, _ ∧ [?c1; ?c2] = twoDigits v =>
      exists (10 * val c1 + val c2); split;
      [change (val "0") with 0 in *; change (val "1") with 1 in *;
       change (val "2") with 2 in *; change (val "3") with 3 in *;
       change (val "6") with 6 in *; lia
      |by apply twoDigits_val]
  end.

Lemma month_inv m : matches rfc3339.month m → ∃ v, 1 ≤ v ≤ 12 ∧ m = twoDigits v.
Proof. unfold rfc3339.month. intros H. two_digits 1 12. Qed.

Lemma day_inv m : matches rfc3339.day m → ∃ v, 1 ≤ v ≤ 31 ∧ m = twoDigits v.
Proof. unfold rfc3339.day. cbn [Alts]. intros H. two_digits 1 31. Qed.

Lemma hour_inv m : matches rfc3339.hour m → ∃ v, v ≤ 23 ∧ m = twoDigits v.
Proof. unfold rfc3339.hour. intros H. two_digits 0 23. Qed.

Lemma minute_inv m : matches rfc3339.minute m → ∃ v, v ≤ 59 ∧ m = twoDigits v.
Proof. unfold rfc3339.minute. intros H. two_digits 0 59. Qed.

Lemma second_inv m : matches rfc3339.second m → ∃ v, v ≤ 60 ∧ m = twoDigits v.
Proof. unfold rfc3339.second. cbn [Str T list_ascii_of_string]. intros H. two_digits 0 60. Qed.

Lemma Forall_forallb (f : ascii → bool) (l : text) :
  Forall (λ d, f d = true) l → forallb f l = true.
Proof. induction 1 as [|c l Hc _ IH]; [done|]. cbn. by rewrite Hc, IH. Qed.

Lemma subSecond_inv m :
  matches rfc3339.subSecond m →
  ∃ f : option text,
    m = match f with Some f => T "." ++ f | None => [] end
    ∧ match f with
      | Some f => negb (bool_decide (f = [])) && forallb isDigit f
      | None => true
      end = true.
Proof.
  unfold rfc3339.subSecond. intros H. inversion H as [| | | | | |? ? H1| |]; subst.
  - inversion H1 as [| | |? ? m1 m2 Hl Hp| | | | |]; subst.
    inversion Hl; subst. apply matches_Plus in Hp as [Hne Hd].
    exists (Some m2). split; [done|]. apply andb_true_iff. split.
    + by apply negb_true_iff, bool_decide_eq_false.
    + by apply Forall_forallb.
  - by exists None.
Qed.

Lemma zone_inv m :
  matches rfc3339.timeZoneOffset m →
  ∃ z, validZone z = true ∧ (m = renderZone z ∨ m = renderZoneBar z).
Proof.
  unfold rfc3339.timeZoneOffset. cbn [Seq]. intros H.
  inversion H as [| | | |? ? ? Hz|? ? ? Ho| | |]; subst.
  - inversion Hz as [| |? c Hc| | | | | |]; subst.
    destruct c as [[] [] [] [] [] [] [] []]; vm_compute in Hc; try discriminate Hc;
      first [by (exists (Zulu true); split; [done|left])
            |by (exists (Zulu false); split; [done|left])].
  - inversion Ho as [| | |? ? m1 m2 Hsign Hrest| | | | |]; subst.
    inversion Hrest as [| | |? ? m3 m4 Hh Hrest'| | | | |]; subst.
    change (Alt (Cat (Cls [Single "0"; Single "1"]) (Cls digit))
                (Cat (Lit "2") (Cls [Range "0" "3"]))) with rfc3339.hour in Hh.
    apply hour_inv in Hh as (hh & Hhh & ->).
    inversion Hrest' as [| | |? ? m5 m6 Hcolon Hmin| | | | |]; subst.
    inversion Hcolon; subst.
    assert (Hmm : ∃ v, v ≤ 59 ∧ m6 = twoDigits v).
    { apply minute_inv. unfold rfc3339.minute.
      inversion Hmin as [| | |? ? a b Ha Hb| | | | |]; subst.
      inversion Hb as [| | |? ? b1 b2 Hb1 Hb2| | | | |]; subst.
      inversion Hb2; subst. rewrite app_nil_r. by constructor. }
    destruct Hmm as (mm & Hmm & ->).
    inversion Hsign as [| |? c Hc| | | | | |]; subst.
    assert (Hvalid : ∀ p, validZone (Offset p hh mm) = true).
    { intros p. cbn. apply andb_true_iff. split; by apply Nat.leb_le. }
    destruct c as [[] [] [] [] [] [] [] []]; vm_compute in Hc; try discriminate Hc;
      first [by (exists (Offset true hh mm); split; [done|left])
            |by (exists (Offset false hh mm); split; [done|left])
            |by (exists (Offset true hh mm); split; [done|right])].
Qed.

Lemma matches_zoneBar z : validZone z = true → matches rfc3339.timeZoneOffset (renderZoneBar z).
Proof.
  destruct z as [u|p hh mm]; intros Hz.
  - apply exec_matches. rewrite <- (app_nil_r (renderZoneBar _)). by apply exec_zone.
  - cbn in Hz. apply andb_true_iff in Hz as [Hh Hm]. apply Nat.leb_le in Hh, Hm.
    unfold rfc3339.timeZoneOffset, renderZoneBar. apply matches_alt_r.
    apply (matches_Seq _ [T "|"; twoDigits hh; T ":"; [digitChar (mm / 10)];
                          [digitChar (mm mod 10)]]).
    fields.
    + by constructor.
    + apply exec_matches.
      change (Alt (Cat (Cls [Single "0"; Single "1"]) (Cls digit))
                  (Cat (Lit "2") (Cls [Range "0" "3"]))) with rfc3339.hour.
      rewrite <- (app_nil_r (twoDigits hh)). by apply exec_hour.
    + constructor.
    + constructor.
      assert (Hq : mm / 10 < 6) by (apply Nat.Div0.div_lt_upper_bound; lia).
      revert Hq. generalize (mm / 10). intros q Hq.
      do 6 (destruct q as [|q]; [reflexivity|]). lia.
    + constructor.
      pose proof (Nat.mod_upper_bound mm 10 ltac:(lia)) as Hr.
      revert Hr. generalize (mm mod 10). intros q Hq.
      do 10 (destruct q as [|q]; [reflexivity|]). lia.
Qed.

(** The language of the first pattern. *)
Lemma matches_rfc3339_iff m :
  matches rfc3339Pattern m
  ↔ ∃ sp, validSpan sp = true ∧ (m = renderSpan sp ∨ m = renderSpanBar sp).
Proof.
  split.
  - unfold rfc3339Pattern, rfc3339.pattern. intros H.
    apply matches_Seq_inv in H as (ms & Hms & ->). split_Forall2.
    match goal with H : matches rfc3339.datePattern _ |- _ =>
      unfold rfc3339.datePattern in H; apply matches_Seq_inv in H as (ds & Hds & ->) end.
    match goal with H : matches rfc3339.timePattern _ |- _ =>
      unfold rfc3339.timePattern in H; apply matches_Seq_inv in H as (ts & Hts & ->) end.
    split_Forall2.
    repeat match goal with
    | H : matches rfc3339.year _ |- _ => apply matches_Plus in H as [? ?]
    | H : matches rfc3339.month _ |- _ => apply month_inv in H as (? & ? & ->)
    | H : matches rfc3339.day _ |- _ => apply day_inv in H as (? & ? & ->)
    | H : matches rfc3339.hour _ |- _ => apply hour_inv in H as (? & ? & ->)
    | H : matches rfc3339.minute _ |- _ => apply minute_inv in H as (? & ? & ->)
    | H : matches rfc3339.second _ |- _ => apply second_inv in H as (? & ? & ->)
    | H : matches rfc3339.subSecond _ |- _ => apply subSecond_inv in H as (? & -> & ?)
    | H : matches rfc3339.timeZoneOffset _ |- _ => apply zone_inv in H as (? & ? & ?)
    | H : matches (Lit _) _ |- _ => inversion H; subst; clear H
    end.
    match goal with H : matches (Cls [Single "T"; Single "t"]) ?m |- _ =>
      assert (∃ b : bool, m = if b then T "T" else T "t") as [upper ->];
      [inversion H as [| |? c Hc| | | | | |]; subst;
       destruct c as [[] [] [] [] [] [] [] []]; vm_compute in Hc; try discriminate Hc;
       first [by exists true|by exists false]|clear H]
    end.
    match goal with
    | Hy : Forall _ ?y, Hmo : _ ≤ ?mo ≤ 12, Hd : _ ≤ ?d ≤ 31, Hh : ?h ≤ 23, Hmi : ?mi ≤ 59,
      Hs : ?s ≤ 60, Hz : validZone ?z = true |- context [match ?f with Some _ => _ | None => _ end] =>
        exists {| spanYear := y; spanMonth := mo; spanDay := d; spanUpperT := upper;
                  spanHour := h; spanMinute := mi; spanSecond := s;
                  spanFraction := f; spanZone := z |}
    end.
    split.
    + unfold validSpan. cbn [spanYear spanMonth spanDay spanHour spanMinute spanSecond
                               spanFraction spanZone].
      repeat (apply andb_true_iff; split); try (apply Nat.leb_le; lia); try done.
      * by apply negb_true_iff, bool_decide_eq_false.
      * by apply Forall_forallb.
    + unfold renderSpan, renderSpanBar.
      cbn [spanYear spanMonth spanDay spanHour spanMinute spanSecond spanFraction spanZone
             spanUpperT concat].
      rewrite <- !app_assoc, !app_nil_r.
      match goal with H : _ = renderZone _ ∨ _ = renderZoneBar _ |- _ =>
        destruct H as [->| ->]; [left|right]; reflexivity end.
  - intros (sp & Hsp & [->| ->]).
    + apply exec_matches. rewrite <- (app_nil_r (renderSpan sp)). by apply exec_rfc3339_span.
    + pose proof Hsp as Hv. unfold validSpan in Hv. rewrite !andb_true_iff in Hv.
      destruct Hv as ((((((((((Hne & Hyd) & Hm1) & Hm2) & Hd1) & Hd2) & Hh) & Hmi) & Hs) & Hf) & Hz).
      apply negb_true_iff, bool_decide_eq_false in Hne.
      apply forallb_true_Forall in Hyd.
      apply Nat.leb_le in Hm1, Hm2, Hd1, Hd2, Hh, Hmi, Hs.
      unfold rfc3339Pattern, rfc3339.pattern, renderSpanBar.
      apply (matches_Seq_eq _
               [spanYear sp ++ T "-" ++ twoDigits (spanMonth sp) ++ T "-"
                  ++ twoDigits (spanDay sp);
                if spanUpperT sp then T "T" else T "t";
                twoDigits (spanHour sp) ++ T ":" ++ twoDigits (spanMinute sp) ++ T ":"
                  ++ twoDigits (spanSecond sp)
                  ++ match spanFraction sp with Some f => T "." ++ f | None => [] end;
                renderZoneBar (spanZone sp)]);
        [|cbn [concat]; by rewrite <- !app_assoc, !app_nil_r].
      fields.
      * unfold rfc3339.datePattern.
        apply (matches_Seq_eq _ [spanYear sp; T "-"; twoDigits (spanMonth sp); T "-";
                                 twoDigits (spanDay sp)]);
          [|cbn [concat]; by rewrite !app_nil_r].
        fields.
        -- by apply matches_Plus.
        -- constructor.
        -- apply exec_matches. rewrite <- (app_nil_r (twoDigits _)). by apply exec_month.
        -- constructor.
        -- apply exec_matches. rewrite <- (app_nil_r (twoDigits _)). by apply exec_day.
      * destruct (spanUpperT sp); by constructor.
      * unfold rfc3339.timePattern.
        apply (matches_Seq_eq _ [twoDigits (spanHour sp); T ":"; twoDigits (spanMinute sp);
                                 T ":"; twoDigits (spanSecond sp);
                                 match spanFraction sp with
                                 | Some f => T "." ++ f
                                 | None => []
                                 end]);
          [|cbn [concat]; by rewrite !app_nil_r].
        fields.
        -- apply exec_matches. rewrite <- (app_nil_r (twoDigits _)). by apply exec_hour.
        -- constructor.
        -- apply exec_matches. rewrite <- (app_nil_r (twoDigits _)). by apply exec_minute.
        -- constructor.
        -- apply exec_matches. rewrite <- (app_nil_r (twoDigits _)). by apply exec_second.
        -- unfold rfc3339.subSecond.
           destruct (spanFraction sp) as [f|]; [|apply matches_opt_none].
           apply andb_true_iff in Hf as [Hfne Hfd].
           apply negb_true_iff, bool_decide_eq_false in Hfne.
           apply forallb_true_Forall in Hfd.
           apply matches_opt_some.
           apply (matches_cat (Lit ".") (Plus digit) (T ".") f);
             [constructor|by apply matches_Plus].
      * by apply matches_zoneBar.
Qed.

End language_facts.

Section date_language_facts.

Implicit Types (s m : text) (r : re) (c : ascii).

Local Ltac fields := repeat match goal with |- Forall2 _ _ _ => constructor end.

Local Ltac split_Forall2 :=
  repeat match goal with
  | H : Forall2 _ (_ :: _) _ |- _ =>
      let m := fresh "m" in let Hm := fresh "Hm" in
      apply Forall2_cons_inv_l in H as (m & ? & Hm & H & ->)
  | H : Forall2 _ [] _ |- _ => apply Forall2_nil_inv_l in H as ->
  end.

Lemma zone_upper m :
  matches rfc7232.tz m ↔ m ≠ [] ∧ Forall (λ c, isUpper c = true) m.
Proof.
  unfold rfc7232.tz. rewrite matches_Alts. split.
  - intros H. repeat (apply Exists_cons in H as [H|H]);
      [apply matches_Str in H as ->; split; [done|repeat constructor]..| |].
    + by apply matches_Plus in H.
    + by apply Exists_nil in H.
  - intros H. do 4 apply Exists_cons_tl. apply Exists_cons_hd. by apply matches_Plus.
Qed.

(** The language of the second pattern. *)
Lemma matches_lastModified_iff m :
  matches lastModifiedPattern m ↔ ∃ d, validDate d = true ∧ m = renderDate d.
Proof.
  split.
  - unfold lastModifiedPattern, rfc7232.pattern. intros H.
    apply matches_Seq_inv in H as (ms & Hms & ->). split_Forall2.
    repeat match goal with
    | H : matches rfc7232.dayName _ |- _ => apply matches_names in H
    | H : matches rfc7232.month _ |- _ => apply matches_names in H
    | H : matches rfc7232.day _ |- _ => apply matches_Rep_cls in H as [? ?]
    | H : matches rfc7232.year _ |- _ => apply matches_Rep_cls in H as [? ?]
    | H : matches rfc7232.hour _ |- _ => apply hour_inv in H as (? & ? & ->)
    | H : matches rfc7232.minute _ |- _ => apply minute_inv in H as (? & ? & ->)
    | H : matches rfc7232.second _ |- _ => apply second_inv in H as (? & ? & ->)
    | H : matches rfc7232.tz _ |- _ => apply zone_upper in H as [? ?]
    | H : matches (Str _) _ |- _ => apply matches_Str in H as ->
    | H : matches (Lit _) _ |- _ => inversion H; subst; clear H
    end.
    match goal with
    | Hn : ?n ∈ map T ("Mon"%string :: _), Hd : length ?dd = 2, Hmo : ?mo ∈ map T ("Jan"%string :: _),
      Hy : length ?yy = 4, Hh : ?h ≤ 23, Hmi : ?mi ≤ 59, Hs : ?sec ≤ 60, Hz : ?z ≠ [] |- _ =>
        exists {| dateDayName := n; dateDay := dd; dateMonth := mo; dateYear := yy;
                  dateHour := h; dateMinute := mi; dateSecond := sec; dateZone := z |}
    end.
    split.
    + unfold validDate. cbn [dateDayName dateDay dateMonth dateYear dateHour dateMinute
                               dateSecond dateZone].
      repeat (apply andb_true_iff; split); try (apply Nat.leb_le; lia);
        try (by apply bool_decide_eq_true); try (by apply Nat.eqb_eq);
        try (by apply Forall_forallb).
      by apply negb_true_iff, bool_decide_eq_false.
    + unfold renderDate.
      cbn [dateDayName dateDay dateMonth dateYear dateHour dateMinute dateSecond dateZone
             concat].
      by rewrite ?app_nil_r.
  - intros (d & Hd & ->). unfold validDate in Hd. rewrite !andb_true_iff in Hd.
    destruct Hd as ((((((((((Hdn & Hdl) & Hdd) & Hmn) & Hyl) & Hyd) & Hh) & Hmi) & Hs) & Hzne)
                    & Hzu).
    apply bool_decide_eq_true in Hdn, Hmn.
    apply Nat.eqb_eq in Hdl, Hyl. apply forallb_true_Forall in Hdd, Hyd, Hzu.
    apply negb_true_iff, bool_decide_eq_false in Hzne.
    apply Nat.leb_le in Hh, Hmi, Hs.
    unfold lastModifiedPattern, rfc7232.pattern, renderDate.
    apply (matches_Seq_eq _
             [dateDayName d; T ", "; dateDay d; T " "; dateMonth d; T " "; dateYear d; T " ";
              twoDigits (dateHour d); T ":"; twoDigits (dateMinute d); T ":";
              twoDigits (dateSecond d); T " "; dateZone d]);
      [|cbn [concat]; by rewrite !app_nil_r].
    fields.
    + by apply matches_names.
    + by apply matches_Str.
    + by apply matches_Rep_cls.
    + constructor.
    + by apply matches_names.
    + constructor.
    + by apply matches_Rep_cls.
    + constructor.
    + apply exec_matches. change rfc7232.hour with rfc3339.hour.
      rewrite <- (app_nil_r (twoDigits _)). by apply exec_hour.
    + constructor.
    + apply exec_matches. change rfc7232.minute with rfc3339.minute.
      rewrite <- (app_nil_r (twoDigits _)). by apply exec_minute.
    + constructor.
    + apply exec_matches. change rfc7232.second with rfc3339.second.
      rewrite <- (app_nil_r (twoDigits _)). by apply exec_second.
    + constructor.
    + by apply zone_upper.
Qed.

(** What the scan of a pattern returns is in the language of the
    pattern. *)
Lemma FindAllString_matches r s m : m ∈ FindAllString r s → matches r m.
Proof.
  intros ([o m'] & -> & Hel)%list_elem_of_fmap.
  pose proof (find_from_match r s 0 0) as Hall. rewrite Forall_forall in Hall.
  destruct (Hall _ Hel) as (_ & n & Hm & ->). cbn [fst snd] in *.
  by apply match_at_sound in Hm as [_ ?].
Qed.

End date_language_facts.

(** * The numbers of the UUIDs of a text, and texts made of times *)

Section numbering_facts.

Implicit Types (s m a b : text) (ms res firsts : list text) (ids : list uuid.UUID).

Lemma firstAppearances_NoDup ms : ∀ res, NoDup res → NoDup (firstAppearances ms res).
Proof.
  induction ms as [|m ms IH]; intros res Hres; [done|]. cbn [firstAppearances].
  destruct (bool_decide_reflect (m ∈ res)) as [Hin|Hin]; [by apply IH|].
  apply IH. apply NoDup_app. split_and!; [done| |apply NoDup_singleton].
  intros x Hx ->%list_elem_of_singleton. done.
Qed.

Lemma firstTexts_NoDup s : NoDup (firstTexts s).
Proof. apply firstAppearances_NoDup. constructor. Qed.

Lemma firstTexts_elem s m : m ∈ firstTexts s ↔ m ∈ FindAllString uuidRegexp s.
Proof.
  unfold firstTexts. split.
  - intros [H|H]%firstAppearances_subset; [done|by apply elem_of_nil in H].
  - intros H. apply firstAppearances_complete. by left.
Qed.

Lemma numbered_lookup firsts i m :
  NoDup firsts → firsts !! i = Some m → numbered firsts m = replacementPattern (i + 1).
Proof.
  intros Hnd Hi. unfold numbered.
  destruct (list_find (λ x, x = m) firsts) as [[j x]|] eqn:Hfind.
  - apply list_find_Some in Hfind as (Hj & -> & _).
    by rewrite (NoDup_lookup _ _ _ _ Hnd Hi Hj).
  - apply list_find_None in Hfind. rewrite Forall_forall in Hfind.
    destruct (Hfind m (list_elem_of_lookup_2 _ _ _ Hi)). done.
Qed.

Lemma numbered_elem firsts m :
  NoDup firsts → m ∈ firsts → ∃ i, firsts !! i = Some m
                                   ∧ numbered firsts m = replacementPattern (i + 1).
Proof.
  intros Hnd [i Hi]%list_elem_of_lookup_1. exists i. split; [done|].
  by apply numbered_lookup.
Qed.

(** What the loop of the replacement substitutes for a text is the
    placeholder of its place among the strings of the UUIDs. *)
Lemma substitute_numbered ids m : ∀ idx,
  substitute idx ids m
  = match list_find (λ x, x = m) (map uuid.String ids) with
    | Some (i, _) => replacementPattern (idx + i + 1)
    | None => m
    end.
Proof.
  induction ids as [|id ids IH]; intros idx; [done|].
  cbn [substitute map list_find].
  destruct (decide (uuid.String id = m)) as [Heq|Hne].
  - rewrite bool_decide_eq_true_2 by done. f_equal. lia.
  - rewrite bool_decide_eq_false_2 by done. rewrite IH.
    destruct (list_find (λ x, x = m) (map uuid.String ids)) as [[i x]|];
      cbn -[replacementPattern]; [|done].
    f_equal. lia.
Qed.

(** The replacement on a text whose UUIDs are in lower case between plain
    bytes, with the numbers of the UUIDs as they are written. *)
Lemma replaceUUIDs_numbered s :
  wellDelimited s = true →
  replaceUUIDs s = Ok (render (mapBlocks (numbered (firstTexts s)) (tokens s))).
Proof.
  intros Hd. destruct (replaceUUIDs_substitute s Hd) as (ids & _ & Hmap & ->).
  rewrite blocks_tokens in Hmap. f_equal. f_equal. apply mapBlocks_ext. intros m _.
  rewrite substitute_numbered. unfold numbered, firstTexts. rewrite Hmap.
  by destruct (list_find _ _) as [[i x]|].
Qed.

Lemma filter_agree {A} (P Q : A → Prop) `{∀ x, Decision (P x)} `{∀ x, Decision (Q x)}
    (l : list A) :
  (∀ x, x ∈ l → P x ↔ Q x) → filter P l = filter Q l.
Proof.
  induction l as [|x l IH]; intros Hl; [done|].
  rewrite !filter_cons.
  rewrite IH by (intros y Hy; apply Hl; by apply list_elem_of_further).
  destruct (decide (P x)) as [HP|HP], (decide (Q x)) as [HQ|HQ]; try done;
    destruct (Hl x (list_elem_of_here _ _)); tauto.
Qed.

(** In such a text the first offset of a UUID of the finder is the first
    offset of its string. *)
Lemma firstOffset_text s ids id :
  wellDelimited s = true → findUUIDs s = Ok ids → id ∈ ids →
  firstOffset s id = firstOffsetOfText s (uuid.String id).
Proof.
  intros Hd Hfind Hin. unfold firstOffset, firstIn, firstOffsetOfText.
  f_equal. f_equal. apply filter_agree. intros [o m] Hom. cbn [snd].
  assert (Hm : m ∈ FindAllString uuidRegexp s).
  { apply list_elem_of_fmap. by exists (o, m). }
  pose proof (delimited_blocks_hex (tokens s) true (tokens_scanned s) Hd) as Hall.
  rewrite blocks_tokens, Forall_forall in Hall. destruct (Hall m Hm) as [Hhex Hlow].
  destruct (findUUIDs_origin s ids id Hfind Hin) as (m0 & Hm0 & Hid0 & Hstr0).
  destruct (Hall m0 Hm0) as [Hhex0 Hlow0].
  rewrite parsesTo_spec. split.
  - intros Hid. destruct (FromString_hexHyphen m Hhex) as (x & Hx & _ & Hs).
    rewrite Hid in Hx. injection Hx as <-. by rewrite Hs, Hlow.
  - intros ->. by rewrite Hstr0, Hlow0.
Qed.

Lemma firstTexts_ids s :
  wellDelimited s = true →
  ∃ ids, findUUIDs s = Ok ids ∧ map uuid.String ids = firstTexts s.
Proof.
  intros Hd. destruct (replaceUUIDs_substitute s Hd) as (ids & Hfind & Hmap & _).
  exists ids. split; [done|]. by rewrite Hmap, blocks_tokens.
Qed.

(** The UUIDs as they are written stand in the order of their first
    offsets. *)
Lemma firstTexts_order s i j a b :
  wellDelimited s = true →
  firstTexts s !! i = Some a → firstTexts s !! j = Some b → i < j →
  ∃ oa ob, firstOffsetOfText s a = Some oa ∧ firstOffsetOfText s b = Some ob ∧ oa < ob.
Proof.
  intros Hd Ha Hb Hij. destruct (firstTexts_ids s Hd) as (ids & Hfind & Hmap).
  destruct (findUUIDs_spec s) as (ids' & Hfind' & _ & _ & Hord & _).
  rewrite Hfind in Hfind'. injection Hfind' as <-.
  rewrite <- Hmap in Ha, Hb.
  apply list_lookup_fmap_Some in Ha as (ida & -> & Hia).
  apply list_lookup_fmap_Some in Hb as (idb & -> & Hib).
  destruct (Hord i j ida idb Hia Hib Hij) as (oa & ob & Hoa & Hob & Hlt).
  exists oa, ob.
  rewrite <- (firstOffset_text s ids ida Hd Hfind (list_elem_of_lookup_2 _ _ _ Hia)).
  rewrite <- (firstOffset_text s ids idb Hd Hfind (list_elem_of_lookup_2 _ _ _ Hib)).
  done.
Qed.

Lemma firstTexts_order_iff s i j a b :
  wellDelimited s = true →
  firstTexts s !! i = Some a → firstTexts s !! j = Some b →
  i < j ↔ ∃ oa ob, firstOffsetOfText s a = Some oa ∧ firstOffsetOfText s b = Some ob
                   ∧ oa < ob.
Proof.
  intros Hd Ha Hb. split; [by apply firstTexts_order|].
  intros (oa & ob & Hoa & Hob & Hlt).
  destruct (Nat.lt_trichotomy i j) as [?|[->|Hji]]; [done|..].
  - rewrite Ha in Hb. injection Hb as ->. rewrite Hoa in Hob. injection Hob as ->. lia.
  - destruct (firstTexts_order s j i b a Hd Hb Ha Hji) as (ob' & oa' & Hob' & Hoa' & Hlt').
    rewrite Hoa in Hoa'. rewrite Hob in Hob'. injection Hoa' as <-. injection Hob' as <-. lia.
Qed.

(** The entries of the finder stand for UUIDs up to the case of their
    letters. *)
Lemma findUUIDs_entries s :
  ∃ ids, findUUIDs s = Ok ids ∧ NoDup ids
    ∧ ∀ m1 m2, m1 ∈ FindAllString uuidRegexp s → m2 ∈ FindAllString uuidRegexp s →
        ∃ i1 i2 id1 id2,
          uuid.FromString m1 = Ok id1 ∧ uuid.FromString m2 = Ok id2
          ∧ ids !! i1 = Some id1 ∧ ids !! i2 = Some id2
          ∧ (i1 = i2 ↔ map lower m1 = map lower m2).
Proof.
  destruct (findUUIDs_spec s) as (ids & Hfind & Hnd & _ & _ & Hall).
  exists ids. split_and!; [done|done|]. intros m1 m2 H1 H2.
  destruct (Hall m1 H1) as (id1 & Hid1 & [i1 Hi1]%list_elem_of_lookup_1).
  destruct (Hall m2 H2) as (id2 & Hid2 & [i2 Hi2]%list_elem_of_lookup_1).
  assert (Hhex : ∀ m, m ∈ FindAllString uuidRegexp s → isHexHyphen m = true).
  { intros m ([o m'] & -> & Hel)%list_elem_of_fmap.
    pose proof (FindAllStringIndex_uuid s) as Hf. rewrite Forall_forall in Hf.
    destruct (Hf _ Hel) as (? & ? & _). by apply uuid_match_hexHyphen. }
  exists i1, i2, id1, id2. split_and!; [done|done|done|done|].
  destruct (FromString_hexHyphen m1 (Hhex m1 H1)) as (x1 & Hx1 & _ & Hs1).
  destruct (FromString_hexHyphen m2 (Hhex m2 H2)) as (x2 & Hx2 & _ & Hs2).
  rewrite Hid1 in Hx1. rewrite Hid2 in Hx2. injection Hx1 as <-. injection Hx2 as <-.
  split.
  - intros ->. rewrite Hi1 in Hi2. injection Hi2 as ->. by rewrite <- Hs1, <- Hs2.
  - intros Heq.
    assert (Hsame : uuid.FromString m1 = uuid.FromString m2).
    { rewrite <- (FromString_lower m1 (Hhex m1 H1)), <- (FromString_lower m2 (Hhex m2 H2)).
      by rewrite Heq. }
    rewrite Hid1, Hid2 in Hsame. injection Hsame as ->.
    by apply (NoDup_lookup _ _ _ _ Hnd Hi1 Hi2).
Qed.

(** Different places have different placeholders. *)
Lemma replacementPattern_inj n1 n2 :
  replacementPattern n1 = replacementPattern n2 → n1 = n2.
Proof.
  unfold replacementPattern. intros H%app_inv_head.
  by rewrite <- (pad012d_value n1), <- (pad012d_value n2), H.
Qed.

Lemma numbered_same s m1 m2 :
  m1 ∈ FindAllString uuidRegexp s → m2 ∈ FindAllString uuidRegexp s →
  ∃ n1 n2, numbered (firstTexts s) m1 = replacementPattern n1
           ∧ numbered (firstTexts s) m2 = replacementPattern n2
           ∧ (n1 = n2 ↔ m1 = m2)
           ∧ (numbered (firstTexts s) m1 = numbered (firstTexts s) m2 ↔ m1 = m2).
Proof.
  intros H1%firstTexts_elem H2%firstTexts_elem.
  destruct (numbered_elem _ _ (firstTexts_NoDup s) H1) as (i1 & Hi1 & Hn1).
  destruct (numbered_elem _ _ (firstTexts_NoDup s) H2) as (i2 & Hi2 & Hn2).
  assert (Hiff : i1 + 1 = i2 + 1 ↔ m1 = m2).
  { split.
    - intros Hi. assert (i1 = i2) as -> by lia. rewrite Hi1 in Hi2. by injection Hi2.
    - intros ->. by rewrite (NoDup_lookup _ _ _ _ (firstTexts_NoDup s) Hi1 Hi2). }
  exists (i1 + 1), (i2 + 1). split_and!; [done|done|done|].
  rewrite Hn1, Hn2, <- Hiff. split; [apply replacementPattern_inj|by intros ->].
Qed.

End numbering_facts.

Section timed_facts.





End timed_facts.

(** * The claims on the numbers of the UUIDs and on second runs *)

(** C1, as stated, fails: the steps of the replacement run one after the
    other over the whole text, so a later step can take the end of a
    placeholder that an earlier step has put.  In [overlapText], all in
    lower case, the finder finds two UUIDs, at the offsets 0 and 65; the
    placeholder of the first, followed by the four groups that stand after
    it, ends in the second UUID, and the second step overwrites it: the
    placeholder of the number 1 stands nowhere in the output. *)
Lemma placeholder_is_overwritten_by_a_later_replacement :
  let u1 := T "d7a282f6-1c10-459e-bb44-55a1a6d48bdd" in
  let u2 := T "00000001-1c10-459e-bb44-55a1a6d48bdd" in
  isLowerText overlapText = true
  ∧ FindAllStringIndex uuidRegexp overlapText = [(0, u1); (65, u2)]
  ∧ (∃ id1 id2, findUUIDs overlapText = Ok [id1; id2]
                ∧ uuid.String id1 = u1 ∧ uuid.String id2 = u2)
  ∧ replaceUUIDs overlapText
    = Ok (T "00000000-0000-0000-0000-000000000000-0000-0000-0000-000000000002 00000000-0000-0000-0000-000000000002")
  ∧ (∀ out, replaceUUIDs overlapText = Ok out →
       occursIn (T "00000000-0000-0000-0000-000000000001") out = false
       ∧ take 36 out ≠ T "00000000-0000-0000-0000-000000000001").
Proof.
  intros u1 u2. split_and!; [by vm_compute|by vm_compute| |by vm_compute|].
  - eexists _, _. split_and!; vm_compute; reflexivity.
  - intros out Hout. vm_compute in Hout. injection Hout as <-. by vm_compute.
Qed.

(** C1, amended.  In a text whose UUIDs, as the finder matches them, are
    in lower case and stand between bytes that are neither hexadecimal
    digits nor hyphens (or at an end of the text), let the distinct UUIDs
    be listed as they are written, in the order in which they are first
    matched.  The list has no repetition and holds exactly the matches; of
    two of its entries the one with the smaller index is first matched at
    the strictly smaller offset, and conversely; the strings of the
    UUIDs that the finder returns are the entries of this list.  The output of [replaceUUIDs] is the
    text with, in the place of every match of the entry of index [i]
    (counting from 0), the text [00000000-0000-0000-0000-] followed by
    decimal digits that denote [i + 1], twelve of them when [i + 1] is
    below [10 ^ 12], and with every other byte kept. *)
Theorem delimited_uuids_are_numbered_by_first_appearance (s : text) :
  wellDelimited s = true →
  NoDup (firstTexts s)
  ∧ (∀ m, m ∈ firstTexts s ↔ m ∈ FindAllString uuidRegexp s)
  ∧ (∀ i j a b, firstTexts s !! i = Some a → firstTexts s !! j = Some b →
       (i < j ↔ ∃ oa ob, firstOffsetOfText s a = Some oa
                         ∧ firstOffsetOfText s b = Some ob ∧ oa < ob))
  ∧ (∃ ids, findUUIDs s = Ok ids ∧ map uuid.String ids = firstTexts s)
  ∧ render (tokens s) = s
  ∧ blocks (tokens s) = FindAllString uuidRegexp s
  ∧ replaceUUIDs s = Ok (render (mapBlocks (numbered (firstTexts s)) (tokens s)))
  ∧ (∀ i m, firstTexts s !! i = Some m →
       ∃ ds, numbered (firstTexts s) m = T "00000000-0000-0000-0000-" ++ ds
             ∧ Forall (λ c, isDigit c = true) ds
             ∧ decimalValue ds = i + 1
             ∧ ((N.of_nat (i + 1) < 10 ^ 12)%N → length ds = 12)).
Proof.
  intros Hd.
  split_and!; [apply firstTexts_NoDup|apply firstTexts_elem| |by apply firstTexts_ids
              |apply render_tokens|apply blocks_tokens|by apply replaceUUIDs_numbered|].
  - intros i j a b Ha Hb. by apply firstTexts_order_iff.
  - intros i m Hi. exists (fmt.pad012d (i + 1)).
    split_and!; [|apply pad012d_digits|apply pad012d_value|].
    + by rewrite (numbered_lookup _ i m (firstTexts_NoDup s) Hi).
    + intros Hlt. apply pad012d_length_12. by apply below_pow12.
Qed.

Lemma delimited_uuids_are_numbered_by_first_appearance_witness :
  wellDelimited delimitedText = true
  ∧ NoDup (firstTexts delimitedText)
  ∧ (∀ m, m ∈ firstTexts delimitedText ↔ m ∈ FindAllString uuidRegexp delimitedText)
  ∧ (∀ i j a b, firstTexts delimitedText !! i = Some a →
       firstTexts delimitedText !! j = Some b →
       (i < j ↔ ∃ oa ob, firstOffsetOfText delimitedText a = Some oa
                         ∧ firstOffsetOfText delimitedText b = Some ob ∧ oa < ob))
  ∧ (∃ ids, findUUIDs delimitedText = Ok ids
            ∧ map uuid.String ids = firstTexts delimitedText)
  ∧ render (tokens delimitedText) = delimitedText
  ∧ blocks (tokens delimitedText) = FindAllString uuidRegexp delimitedText
  ∧ replaceUUIDs delimitedText
    = Ok (render (mapBlocks (numbered (firstTexts delimitedText)) (tokens delimitedText)))
  ∧ (∀ i m, firstTexts delimitedText !! i = Some m →
       ∃ ds, numbered (firstTexts delimitedText) m = T "00000000-0000-0000-0000-" ++ ds
             ∧ Forall (λ c, isDigit c = true) ds
             ∧ decimalValue ds = i + 1
             ∧ ((N.of_nat (i + 1) < 10 ^ 12)%N → length ds = 12)).
Proof.
  split; [reflexivity|].
  apply (delimited_uuids_are_numbered_by_first_appearance delimitedText). reflexivity.
Defined.

(** C4, as stated, fails: in [caseText] the finder matches the same UUID
    once in lower case and once in upper case, two matches of different
    text; both parse to one value, the finder returns one entry for them,
    and the replacement puts the placeholder of the number 1 for the
    match in lower case and leaves the match in upper case as it is. *)
Lemma uuids_differing_in_case_are_one_entry :
  let m1 := T "d7a282f6-1c10-459e-bb44-55a1a6d48bdd" in
  let m2 := T "D7A282F6-1C10-459E-BB44-55A1A6D48BDD" in
  FindAllString uuidRegexp caseText = [m1; m2]
  ∧ m1 ≠ m2
  ∧ (∃ id, findUUIDs caseText = Ok [id]
           ∧ uuid.FromString m1 = Ok id ∧ uuid.FromString m2 = Ok id)
  ∧ replaceUUIDs caseText
    = Ok (T "00000000-0000-0000-0000-000000000001 D7A282F6-1C10-459E-BB44-55A1A6D48BDD").
Proof.
  intros m1 m2. split_and!; [by vm_compute|by vm_compute| |by vm_compute].
  eexists. split_and!; vm_compute; reflexivity.
Qed.

(** C4, amended.  The finder keeps one entry for each UUID value: its list
    has no repetition, and two matches parse to the same entry exactly
    when their texts are equal up to the case of the hexadecimal letters.
    In a text whose UUIDs are in lower case and stand between bytes that
    are neither hexadecimal digits nor hyphens, the replacement puts for
    every match the placeholder of the place of its text among the
    distinct matches, and two matches have the same placeholder, and the
    same number in it, exactly when their texts are equal. *)
Theorem uuid_entries_identify_values (s m1 m2 : text) :
  m1 ∈ FindAllString uuidRegexp s → m2 ∈ FindAllString uuidRegexp s →
  (∃ ids i1 i2 id1 id2,
     findUUIDs s = Ok ids ∧ NoDup ids
     ∧ uuid.FromString m1 = Ok id1 ∧ uuid.FromString m2 = Ok id2
     ∧ ids !! i1 = Some id1 ∧ ids !! i2 = Some id2
     ∧ (i1 = i2 ↔ map lower m1 = map lower m2))
  ∧ (wellDelimited s = true →
     replaceUUIDs s = Ok (render (mapBlocks (numbered (firstTexts s)) (tokens s)))
     ∧ blocks (tokens s) = FindAllString uuidRegexp s
     ∧ ∃ n1 n2 ds1 ds2,
         numbered (firstTexts s) m1 = T "00000000-0000-0000-0000-" ++ ds1
         ∧ numbered (firstTexts s) m2 = T "00000000-0000-0000-0000-" ++ ds2
         ∧ decimalValue ds1 = n1 ∧ decimalValue ds2 = n2
         ∧ (n1 = n2 ↔ m1 = m2)
         ∧ (numbered (firstTexts s) m1 = numbered (firstTexts s) m2 ↔ m1 = m2)).
Proof.
  intros H1 H2. split.
  - destruct (findUUIDs_entries s) as (ids & Hfind & Hnd & Hall).
    destruct (Hall m1 m2 H1 H2) as (i1 & i2 & id1 & id2 & Hid1 & Hid2 & Hi1 & Hi2 & Hiff).
    by exists ids, i1, i2, id1, id2.
  - intros Hd. split_and!; [by apply replaceUUIDs_numbered|apply blocks_tokens|].
    destruct (numbered_same s m1 m2 H1 H2) as (n1 & n2 & Hn1 & Hn2 & Hnum & Hsame).
    exists n1, n2, (fmt.pad012d n1), (fmt.pad012d n2).
    split_and!; [done|done|apply pad012d_value|apply pad012d_value|done|done].
Qed.

Lemma uuid_entries_identify_values_witness :
  let m1 := T "d7a282f6-1c10-459e-bb44-55a1a6d48bdd" in
  let m2 := T "a8bee527-12d2-4aff-9823-3511c1c8e6b9" in
  (m1 ∈ FindAllString uuidRegexp delimitedText
   ∧ m2 ∈ FindAllString uuidRegexp delimitedText
   ∧ wellDelimited delimitedText = true)
  ∧ (∃ ids i1 i2 id1 id2,
       findUUIDs delimitedText = Ok ids ∧ NoDup ids
       ∧ uuid.FromString m1 = Ok id1 ∧ uuid.FromString m2 = Ok id2
       ∧ ids !! i1 = Some id1 ∧ ids !! i2 = Some id2
       ∧ (i1 = i2 ↔ map lower m1 = map lower m2))
  ∧ replaceUUIDs delimitedText
    = Ok (render (mapBlocks (numbered (firstTexts delimitedText)) (tokens delimitedText)))
  ∧ blocks (tokens delimitedText) = FindAllString uuidRegexp delimitedText
  ∧ ∃ n1 n2 ds1 ds2,
      numbered (firstTexts delimitedText) m1 = T "00000000-0000-0000-0000-" ++ ds1
      ∧ numbered (firstTexts delimitedText) m2 = T "00000000-0000-0000-0000-" ++ ds2
      ∧ decimalValue ds1 = n1 ∧ decimalValue ds2 = n2
      ∧ (n1 = n2 ↔ m1 = m2)
      ∧ (numbered (firstTexts delimitedText) m1 = numbered (firstTexts delimitedText) m2
         ↔ m1 = m2).
Proof.
  intros m1 m2.
  assert (H1 : m1 ∈ FindAllString uuidRegexp delimitedText).
  { vm_compute. apply list_elem_of_here. }
  assert (H2 : m2 ∈ FindAllString uuidRegexp delimitedText).
  { vm_compute. apply list_elem_of_further, list_elem_of_further, list_elem_of_here. }
  assert (Hd : wellDelimited delimitedText = true) by reflexivity.
  destruct (uuid_entries_identify_values delimitedText m1 m2 H1 H2) as [Hentries Hout].
  split; [by split_and!|]. split; [exact Hentries|]. exact (Hout Hd).
Defined.




(** C10, as stated, fails: a time is not replaced when a match that starts
    before it takes its first bytes.  In [takenYearText] the time
    [30-01-01T00:00:00Z], with a year of two digits, stands after
    [2020-01-01T00:00:00+01:]; the one match of the pattern is
    [2020-01-01T00:00:00+01:30], whose offset takes the year, and the rest
    of the time stays in the output. *)
Lemma time_after_a_cut_offset_is_not_replaced :
  validSpan twoDigitYearSpan = true
  ∧ renderSpan twoDigitYearSpan = T "30-01-01T00:00:00Z"
  ∧ takenYearText = T "2020-01-01T00:00:00+01:" ++ renderSpan twoDigitYearSpan
  ∧ FindAllStringIndex rfc3339Pattern takenYearText = [(0, T "2020-01-01T00:00:00+01:30")]
  ∧ replaceTimes takenYearText = Ok (T "0001-01-01T00:00:00Z-01-01T00:00:00Z").
Proof. split_and!; vm_compute; reflexivity. Qed.

(** C10, amended.  A time whose year has any positive number of digits,
    with the other fields in their ranges, is a text of the RFC3339
    pattern, and the match that starts at its first byte is exactly that
    time, whatever follows.  In every text that contains the time, its
    first byte lies in a match of the first pass, which is the time itself
    when the match starts there.  The first pass puts
    [0001-01-01T00:00:00Z] in the place of the time when no match starts
    in the text before it, as after bytes that are not digits;
    [replaceTimes] does so after bytes that are neither digits nor capital
    letters, and the time alone is normalised to that literal. *)
Theorem rfc3339_year_of_any_length (sp : rfc3339Span) :
  validSpan sp = true →
  matches rfc3339Pattern (renderSpan sp)
  ∧ (∀ post, match_at rfc3339Pattern (renderSpan sp ++ post) = Some (length (renderSpan sp)))
  ∧ (∀ pre post, ∃ o m,
       (o, m) ∈ FindAllStringIndex rfc3339Pattern (pre ++ renderSpan sp ++ post)
       ∧ o ≤ length pre < o + length m
       ∧ (o = length pre → m = renderSpan sp))
  ∧ (∀ pre post,
       (∀ j, j < length pre →
             match_at rfc3339Pattern (drop j pre ++ renderSpan sp ++ post) = None) →
       ReplaceAllString rfc3339Pattern (pre ++ renderSpan sp ++ post) (T "0001-01-01T00:00:00Z")
       = pre ++ T "0001-01-01T00:00:00Z"
         ++ ReplaceAllString rfc3339Pattern post (T "0001-01-01T00:00:00Z"))
  ∧ (∀ pre post, Forall (λ c, isDigit c = false) pre →
       ReplaceAllString rfc3339Pattern (pre ++ renderSpan sp ++ post) (T "0001-01-01T00:00:00Z")
       = pre ++ T "0001-01-01T00:00:00Z"
         ++ ReplaceAllString rfc3339Pattern post (T "0001-01-01T00:00:00Z"))
  ∧ (∀ pre post, Forall (λ c, isQuiet c = true) pre →
       replaceTimes (pre ++ renderSpan sp ++ post)
       = (out ← replaceTimes post; Ok (pre ++ T "0001-01-01T00:00:00Z" ++ out)))
  ∧ replaceTimes (renderSpan sp) = Ok (T "0001-01-01T00:00:00Z").
Proof.
  intros Hv. pose proof (renderSpan_nonempty sp Hv) as Hne.
  assert (Hhead : ∀ post,
    ReplaceAllString rfc3339Pattern (renderSpan sp ++ post) (T "0001-01-01T00:00:00Z")
    = T "0001-01-01T00:00:00Z" ++ ReplaceAllString rfc3339Pattern post (T "0001-01-01T00:00:00Z")).
  { intros post. apply ReplaceAllString_head; [done|]. by apply exec_rfc3339_span. }
  assert (Hmatch : ∀ post,
    match_at rfc3339Pattern (renderSpan sp ++ post) = Some (length (renderSpan sp))).
  { intros post. unfold match_at. rewrite (exec_rfc3339_span sp post Hv).
    f_equal. rewrite length_app. lia. }
  split_and!.
  - pose proof (exec_rfc3339_span sp [] Hv) as He.
    apply exec_sound in He as (m & rest & Heq & Hm & [= ->]).
    rewrite !app_nil_r in Heq. by rewrite Heq.
  - intros post. by apply Hmatch.
  - intros pre post.
    assert (Hlen : ∃ n, length (renderSpan sp) = S n).
    { destruct (renderSpan sp); [done|]. by eexists. }
    destruct Hlen as [n Hn].
    destruct (find_from_covers rfc3339Pattern (pre ++ renderSpan sp ++ post) 0 0 (length pre) n)
      as (o & m & Hel & Ho & Heq).
    + by rewrite drop_app_length, Hmatch, Hn.
    + lia.
    + exists o, m. split_and!; [done|lia|lia|]. intros ->.
      rewrite (Heq eq_refl), drop_app_length, <- Hn. by rewrite take_app_length.
  - intros pre post Hpre. rewrite ReplaceAllString_pass by done. by rewrite Hhead.
  - intros pre post Hpre. rewrite ReplaceAllString_rfc3339_nondigits by done. by rewrite Hhead.
  - intros pre post Hpre. by apply replaceTimes_span.
  - unfold replaceTimes. rewrite <- (app_nil_r (renderSpan sp)), Hhead. reflexivity.
Qed.

Lemma rfc3339_year_of_any_length_witness :
  validSpan sixDigitYearSpan = true
  ∧ matches rfc3339Pattern (renderSpan sixDigitYearSpan)
  ∧ (∀ post, match_at rfc3339Pattern (renderSpan sixDigitYearSpan ++ post)
             = Some (length (renderSpan sixDigitYearSpan)))
  ∧ (∀ pre post, ∃ o m,
       (o, m) ∈ FindAllStringIndex rfc3339Pattern (pre ++ renderSpan sixDigitYearSpan ++ post)
       ∧ o ≤ length pre < o + length m
       ∧ (o = length pre → m = renderSpan sixDigitYearSpan))
  ∧ (∀ pre post,
       (∀ j, j < length pre →
             match_at rfc3339Pattern (drop j pre ++ renderSpan sixDigitYearSpan ++ post)
             = None) →
       ReplaceAllString rfc3339Pattern (pre ++ renderSpan sixDigitYearSpan ++ post)
         (T "0001-01-01T00:00:00Z")
       = pre ++ T "0001-01-01T00:00:00Z"
         ++ ReplaceAllString rfc3339Pattern post (T "0001-01-01T00:00:00Z"))
  ∧ (∀ pre post, Forall (λ c, isDigit c = false) pre →
       ReplaceAllString rfc3339Pattern (pre ++ renderSpan sixDigitYearSpan ++ post)
         (T "0001-01-01T00:00:00Z")
       = pre ++ T "0001-01-01T00:00:00Z"
         ++ ReplaceAllString rfc3339Pattern post (T "0001-01-01T00:00:00Z"))
  ∧ (∀ pre post, Forall (λ c, isQuiet c = true) pre →
       replaceTimes (pre ++ renderSpan sixDigitYearSpan ++ post)
       = (out ← replaceTimes post; Ok (pre ++ T "0001-01-01T00:00:00Z" ++ out)))
  ∧ replaceTimes (renderSpan sixDigitYearSpan) = Ok (T "0001-01-01T00:00:00Z").
Proof.
  split; [reflexivity|]. apply (rfc3339_year_of_any_length sixDigitYearSpan). reflexivity.
Defined.

(** * Further properties of the program *)

Section shared_facts.

Lemma compare_equal_normal_forms goldenFile actualObj opts w absPath actual expected :
  filepath.Abs (cwd w) goldenFile = Ok absPath →
  serialize actualObj opts = Ok actual →
  ioutil.ReadFile absPath w = Ok expected →
  normalize opts expected = normalize opts actual →
  testableCompareWithGolden false goldenFile actualObj opts w = (w, Ok ()).
Proof.
  intros HAbs Hser Hread Hnorm.
  rewrite (testableCompareWithGolden_unfold _ _ _ _ _ _ _ HAbs Hser), Hread, Hnorm.
  destruct (normalize_total opts actual) as [a ->]. by rewrite bool_decide_eq_true_2.
Qed.

Lemma zoneEnds_nil z post : zoneEnds z post = true → zoneEnds z [] = true.
Proof.
  unfold zoneEnds. intros [H|H]%orb_true_iff; apply orb_true_iff; [by left|right].
  apply andb_true_iff in H as [-> _]. done.
Qed.

Lemma replaceTimes_sameKind pre post t1 t2 :
  Forall (λ c, isQuiet c = true) pre → sameKind post t1 t2 →
  replaceTimes (pre ++ t1 ++ post) = replaceTimes (pre ++ t2 ++ post).
Proof.
  intros Hpre [sp1 sp2 H1 H2|d1 d2 H1 H2 Hz1 Hz2].
  - by rewrite !replaceTimes_span.
  - by rewrite !replaceTimes_date.
Qed.

End shared_facts.

(** X1. In a text whose UUIDs, as the finder matches them, are in lower
    case and stand between bytes that are neither hexadecimal digits nor
    hyphens (or at an end of the text), [replaceUUIDs] puts the
    placeholder of each UUID in the place of every match of it and keeps
    every other byte; the placeholder of a sequence number below
    [10 ^ 12] has the 36 bytes of the match, so the placeholders stand at
    the offsets of the matches. *)
Theorem delimited_uuids_are_replaced_in_place (s : text) :
  wellDelimited s = true →
  render (tokens s) = s
  ∧ blocks (tokens s) = FindAllString uuidRegexp s
  ∧ replaceUUIDs s = Ok (render (mapBlocks (placeholderOf s) (tokens s)))
  ∧ (∀ m, m ∈ FindAllString uuidRegexp s →
       ∃ n, sequenceNumber s m = Some n
            ∧ placeholderOf s m = T "00000000-0000-0000-0000-" ++ fmt.pad012d n
            ∧ ((N.of_nat n < 10 ^ 12)%N → length (placeholderOf s m) = length m)).
Proof.
  intros Hd. destruct (replaceUUIDs_delimited s Hd) as [Hrep Hblocks].
  split_and!; [apply render_tokens|apply blocks_tokens|done|].
  intros m Hm. rewrite <- blocks_tokens in Hm.
  destruct (Hblocks m Hm) as (Hlen & n & Hn & Hp). exists n. split_and!; [done|done|].
  intros Hlt. by rewrite Hp, (replacementPattern_length n (below_pow12 n Hlt)).
Qed.

Lemma delimited_uuids_are_replaced_in_place_witness :
  wellDelimited delimitedText = true
  ∧ render (tokens delimitedText) = delimitedText
  ∧ blocks (tokens delimitedText) = FindAllString uuidRegexp delimitedText
  ∧ replaceUUIDs delimitedText
    = Ok (render (mapBlocks (placeholderOf delimitedText) (tokens delimitedText)))
  ∧ (∀ m, m ∈ FindAllString uuidRegexp delimitedText →
       ∃ n, sequenceNumber delimitedText m = Some n
            ∧ placeholderOf delimitedText m = T "00000000-0000-0000-0000-" ++ fmt.pad012d n
            ∧ ((N.of_nat n < 10 ^ 12)%N → length (placeholderOf delimitedText m) = length m)).
Proof.
  split; [reflexivity|].
  apply (delimited_uuids_are_replaced_in_place delimitedText). reflexivity.
Defined.

(** X2. On such a text a second run of [replaceUUIDs] changes nothing: the
    finder finds no UUID in the output of the first run, and the second
    run returns that output. *)
Theorem replacement_of_delimited_uuids_is_idempotent (s out : text) :
  wellDelimited s = true → replaceUUIDs s = Ok out →
  findUUIDs out = Ok [] ∧ replaceUUIDs out = Ok out.
Proof.
  intros Hd Hout. pose proof (replaceUUIDs_delimited_settled s out Hd Hout) as Hnone.
  split; [done|]. unfold replaceUUIDs. by rewrite Hnone.
Qed.

Lemma replacement_of_delimited_uuids_is_idempotent_witness :
  (wellDelimited delimitedText = true ∧ replaceUUIDs delimitedText = Ok delimitedOutput)
  ∧ findUUIDs delimitedOutput = Ok [] ∧ replaceUUIDs delimitedOutput = Ok delimitedOutput.
Proof.
  assert (H1 : wellDelimited delimitedText = true) by reflexivity.
  assert (H2 : replaceUUIDs delimitedText = Ok delimitedOutput) by (vm_compute; reflexivity).
  split; [by split|].
  exact (replacement_of_delimited_uuids_is_idempotent delimitedText delimitedOutput H1 H2).
Defined.

(** X3. The placeholder of a sequence number is the prefix
    [00000000-0000-0000-0000-] followed by decimal digits that denote the
    number, at least twelve of them and exactly twelve for a number below
    [10 ^ 12] (the placeholder then has 36 bytes); two sequence numbers
    have the same placeholder only when they are equal. *)
Theorem placeholder_determines_its_number (n m : nat) :
  (replacementPattern n = replacementPattern m ↔ n = m)
  ∧ replacementPattern n = T "00000000-0000-0000-0000-" ++ fmt.pad012d n
  ∧ Forall (λ c, isDigit c = true) (fmt.pad012d n)
  ∧ decimalValue (fmt.pad012d n) = n
  ∧ 12 ≤ length (fmt.pad012d n)
  ∧ ((N.of_nat n < 10 ^ 12)%N → length (replacementPattern n) = 36).
Proof.
  split_and!; [|done|apply pad012d_digits|apply pad012d_value|apply pad012d_length|].
  - split; [|by intros ->]. unfold replacementPattern. intros H%app_inv_head.
    by rewrite <- (pad012d_value n), <- (pad012d_value m), H.
  - intros H. apply replacementPattern_length. by apply below_pow12.
Qed.

(** X4. [findUUIDs] returns, for every text, the parsed values of the
    matches of its pattern and nothing else: every match parses to a UUID
    of the list, every UUID of the list is the value of a match, and the
    string of that UUID, which [replaceUUIDs] looks for, is the match in
    lower case; parsing that string gives the UUID back. *)
Theorem found_uuids_print_their_matches_in_lower_case (s : text) :
  ∃ ids, findUUIDs s = Ok ids
    ∧ (∀ m, m ∈ FindAllString uuidRegexp s →
         ∃ id, id ∈ ids ∧ uuid.FromString m = Ok id ∧ uuid.String id = map lower m)
    ∧ (∀ id, id ∈ ids →
         ∃ m, m ∈ FindAllString uuidRegexp s ∧ uuid.FromString m = Ok id
              ∧ uuid.String id = map lower m
              ∧ uuid.FromString (uuid.String id) = Ok id).
Proof.
  destruct (findUUIDs_spec s) as (ids & Hfind & _ & _ & _ & Hall).
  assert (Hhex : ∀ m, m ∈ FindAllString uuidRegexp s → isHexHyphen m = true).
  { intros m ([o m'] & -> & Hel)%list_elem_of_fmap.
    pose proof (FindAllStringIndex_uuid s) as Hf. rewrite Forall_forall in Hf.
    destruct (Hf _ Hel) as (? & ? & _). by apply uuid_match_hexHyphen. }
  exists ids. split_and!; [done| |].
  - intros m Hm. destruct (Hall m Hm) as (id & Hid & Hin).
    destruct (FromString_hexHyphen m (Hhex m Hm)) as (id' & Hid' & _ & Hstr).
    rewrite Hid in Hid'. injection Hid' as <-. by exists id.
  - intros id Hin. destruct (findUUIDs_origin s ids id Hfind Hin) as (m & Hm & Hid & Hstr).
    exists m. split_and!; [done|done|done|].
    by rewrite Hstr, (FromString_lower m (Hhex m Hm)).
Qed.

(** X5. Two texts that differ only in the values of their UUIDs have the
    same output of [replaceUUIDs]: when the UUIDs of a text are in lower
    case and stand between plain bytes, putting other such UUIDs in their
    places, the same one for the same UUID and different ones for
    different UUIDs, changes neither the places of the matches nor the
    output. *)
Theorem renamed_uuids_normalize_alike (s : text) (f : text → text) :
  wellDelimited s = true →
  (∀ m, m ∈ FindAllString uuidRegexp s → isLowerUUID (f m) = true) →
  injectiveOn f (FindAllString uuidRegexp s) →
  FindAllString uuidRegexp (render (mapBlocks f (tokens s)))
  = map f (FindAllString uuidRegexp s)
  ∧ replaceUUIDs (render (mapBlocks f (tokens s))) = replaceUUIDs s.
Proof.
  intros Hd Hf Hinj. by destruct (replaceUUIDs_renamed s f Hd Hf Hinj) as (_ & ? & ?).
Qed.

Lemma renamed_uuids_normalize_alike_witness :
  (wellDelimited delimitedText = true
   ∧ (∀ m, m ∈ FindAllString uuidRegexp delimitedText → isLowerUUID (otherUUID m) = true)
   ∧ injectiveOn otherUUID (FindAllString uuidRegexp delimitedText))
  ∧ FindAllString uuidRegexp (render (mapBlocks otherUUID (tokens delimitedText)))
    = map otherUUID (FindAllString uuidRegexp delimitedText)
  ∧ replaceUUIDs (render (mapBlocks otherUUID (tokens delimitedText)))
    = replaceUUIDs delimitedText.
Proof.
  assert (Hlist : FindAllString uuidRegexp delimitedText
                  = [T "d7a282f6-1c10-459e-bb44-55a1a6d48bdd";
                     T "d7a282f6-1c10-459e-bb44-55a1a6d48bdd";
                     T "a8bee527-12d2-4aff-9823-3511c1c8e6b9"]) by (vm_compute; reflexivity).
  assert (H1 : wellDelimited delimitedText = true) by reflexivity.
  assert (H2 : ∀ m, m ∈ FindAllString uuidRegexp delimitedText →
                    isLowerUUID (otherUUID m) = true).
  { rewrite Hlist. intros m Hm.
    repeat (apply elem_of_cons in Hm as [->|Hm]); [reflexivity..|by apply elem_of_nil in Hm]. }
  assert (H3 : injectiveOn otherUUID (FindAllString uuidRegexp delimitedText)).
  { rewrite Hlist. intros a b Ha Hb.
    repeat (apply elem_of_cons in Ha as [->|Ha]); [..|by apply elem_of_nil in Ha];
      (repeat (apply elem_of_cons in Hb as [->|Hb]); [..|by apply elem_of_nil in Hb]);
      vm_compute; congruence. }
  split; [by split_and!|].
  exact (renamed_uuids_normalize_alike delimitedText otherUUID H1 H2 H3).
Defined.

(** X6. With the option [UUIDAgnostic] the comparison passes, and leaves
    the world as it is, when the object differs from the golden file only
    in the values of its UUIDs: the golden file has its UUIDs in lower
    case between plain bytes, and the object has other such UUIDs in their
    places, the same one for the same UUID and different ones for
    different UUIDs. *)
Theorem comparison_ignores_the_values_of_uuids
    (goldenFile : text) (actualObj : object) (opts : CompareOptions) (w : world)
    (absPath : list text) (expected : text) (f : text → text) :
  UUIDAgnostic opts = true →
  filepath.Abs (cwd w) goldenFile = Ok absPath →
  ioutil.ReadFile absPath w = Ok expected →
  wellDelimited expected = true →
  (∀ m, m ∈ FindAllString uuidRegexp expected → isLowerUUID (f m) = true) →
  injectiveOn f (FindAllString uuidRegexp expected) →
  serialize actualObj opts = Ok (render (mapBlocks f (tokens expected))) →
  testableCompareWithGolden false goldenFile actualObj opts w = (w, Ok ()).
Proof.
  intros Hopt HAbs Hread Hd Hf Hinj Hser.
  apply (compare_equal_normal_forms _ _ _ _ _ _ _ HAbs Hser Hread).
  destruct (replaceUUIDs_renamed expected f Hd Hf Hinj) as (_ & _ & Hsame).
  unfold normalize. by rewrite Hopt, Hsame.
Qed.

Lemma comparison_ignores_the_values_of_uuids_witness :
  (UUIDAgnostic uuidOptions = true
   ∧ filepath.Abs (cwd idsWorld) (T "ids.golden") = Ok [T "work"; T "ids.golden"]
   ∧ ioutil.ReadFile [T "work"; T "ids.golden"] idsWorld = Ok delimitedText
   ∧ wellDelimited delimitedText = true
   ∧ (∀ m, m ∈ FindAllString uuidRegexp delimitedText → isLowerUUID (otherUUID m) = true)
   ∧ injectiveOn otherUUID (FindAllString uuidRegexp delimitedText)
   ∧ serialize (textObject renamedText) uuidOptions
     = Ok (render (mapBlocks otherUUID (tokens delimitedText))))
  ∧ testableCompareWithGolden false (T "ids.golden") (textObject renamedText) uuidOptions
      idsWorld = (idsWorld, Ok ()).
Proof.
  assert (Hlist : FindAllString uuidRegexp delimitedText
                  = [T "d7a282f6-1c10-459e-bb44-55a1a6d48bdd";
                     T "d7a282f6-1c10-459e-bb44-55a1a6d48bdd";
                     T "a8bee527-12d2-4aff-9823-3511c1c8e6b9"]) by (vm_compute; reflexivity).
  assert (H0 : UUIDAgnostic uuidOptions = true) by reflexivity.
  assert (HA : filepath.Abs (cwd idsWorld) (T "ids.golden") = Ok [T "work"; T "ids.golden"])
    by (vm_compute; reflexivity).
  assert (HR : ioutil.ReadFile [T "work"; T "ids.golden"] idsWorld = Ok delimitedText)
    by (vm_compute; reflexivity).
  assert (H1 : wellDelimited delimitedText = true) by reflexivity.
  assert (H2 : ∀ m, m ∈ FindAllString uuidRegexp delimitedText →
                    isLowerUUID (otherUUID m) = true).
  { rewrite Hlist. intros m Hm.
    repeat (apply elem_of_cons in Hm as [->|Hm]); [reflexivity..|by apply elem_of_nil in Hm]. }
  assert (H3 : injectiveOn otherUUID (FindAllString uuidRegexp delimitedText)).
  { rewrite Hlist. intros a b Ha Hb.
    repeat (apply elem_of_cons in Ha as [->|Ha]); [..|by apply elem_of_nil in Ha];
      (repeat (apply elem_of_cons in Hb as [->|Hb]); [..|by apply elem_of_nil in Hb]);
      vm_compute; congruence. }
  assert (HS : serialize (textObject renamedText) uuidOptions
               = Ok (render (mapBlocks otherUUID (tokens delimitedText))))
    by (vm_compute; reflexivity).
  split; [by split_and!|].
  exact (comparison_ignores_the_values_of_uuids (T "ids.golden") (textObject renamedText)
           uuidOptions idsWorld [T "work"; T "ids.golden"] delimitedText otherUUID
           H0 HA HR H1 H2 H3 HS).
Defined.

(** X7. A last-modified time (the name of a day, a day of two digits, the
    name of a month, a year of four digits, hours, minutes and seconds in
    their ranges, and a zone of capital letters that ends where the text
    after it starts) is in the language of the second pattern of
    [replaceTimes]; the match at its first byte is the whole of it; and
    between bytes that are neither digits nor capital letters before it
    and any text after it, [replaceTimes] puts the literal
    [Mon, 01 Jan 0001 00:00:00 GMT] in its place, keeps the bytes before
    it, and rewrites the text after it as it does on its own. *)
Theorem last_modified_time_is_replaced_in_place (pre post : text) (d : httpDate) :
  Forall (λ c, isQuiet c = true) pre →
  validDate d = true →
  zoneEnds (dateZone d) post = true →
  matches lastModifiedPattern (renderDate d)
  ∧ match_at lastModifiedPattern (renderDate d ++ post) = Some (length (renderDate d))
  ∧ replaceTimes (pre ++ renderDate d ++ post)
    = (out ← replaceTimes post;
       Ok (pre ++ T "Mon, 01 Jan 0001 00:00:00 GMT" ++ out)).
Proof.
  intros Hpre Hd Hz. split_and!.
  - pose proof (exec_lastModified_date d [] Hd (zoneEnds_nil _ _ Hz)) as Hex.
    apply exec_sound in Hex as (m & rest & Heq & Hm & [= ->]).
    rewrite !app_nil_r in Heq. by rewrite Heq.
  - unfold match_at. rewrite (exec_lastModified_date d post Hd Hz).
    rewrite length_app. f_equal. lia.
  - by apply replaceTimes_date.
Qed.

Lemma last_modified_time_is_replaced_in_place_witness :
  (Forall (λ c, isQuiet c = true) (T "modified: ")
   ∧ validDate date2020 = true
   ∧ zoneEnds (dateZone date2020) (T ", size 3") = true)
  ∧ matches lastModifiedPattern (renderDate date2020)
  ∧ match_at lastModifiedPattern (renderDate date2020 ++ T ", size 3")
    = Some (length (renderDate date2020))
  ∧ replaceTimes (T "modified: " ++ renderDate date2020 ++ T ", size 3")
    = (out ← replaceTimes (T ", size 3");
       Ok (T "modified: " ++ T "Mon, 01 Jan 0001 00:00:00 GMT" ++ out)).
Proof.
  assert (H1 : Forall (λ c, isQuiet c = true) (T "modified: ")) by (repeat constructor).
  assert (H2 : validDate date2020 = true) by reflexivity.
  assert (H3 : zoneEnds (dateZone date2020) (T ", size 3") = true) by reflexivity.
  split; [by split_and!|].
  exact (last_modified_time_is_replaced_in_place (T "modified: ") (T ", size 3") date2020
           H1 H2 H3).
Defined.

(** X8. Between bytes that are neither digits nor capital letters before
    it and any text after it, [replaceTimes] puts the literal
    [0001-01-01T00:00:00Z] in the place of an RFC3339 time, keeps the
    bytes before it, and rewrites the text after it as it does on its
    own: the second pass leaves the literal of the first as it is. *)
Theorem rfc3339_time_is_replaced_in_place (pre post : text) (sp : rfc3339Span) :
  Forall (λ c, isQuiet c = true) pre →
  validSpan sp = true →
  replaceTimes (pre ++ renderSpan sp ++ post)
  = (out ← replaceTimes post; Ok (pre ++ T "0001-01-01T00:00:00Z" ++ out)).
Proof. intros Hpre Hsp. by apply replaceTimes_span. Qed.

Lemma rfc3339_time_is_replaced_in_place_witness :
  (Forall (λ c, isQuiet c = true) (T "at ") ∧ validSpan span2020 = true)
  ∧ replaceTimes (T "at " ++ renderSpan span2020 ++ T ", ok")
    = (out ← replaceTimes (T ", ok"); Ok (T "at " ++ T "0001-01-01T00:00:00Z" ++ out)).
Proof.
  assert (H1 : Forall (λ c, isQuiet c = true) (T "at ")) by (repeat constructor).
  assert (H2 : validSpan span2020 = true) by reflexivity.
  split; [by split|].
  exact (rfc3339_time_is_replaced_in_place (T "at ") (T ", ok") span2020 H1 H2).
Defined.

(** X9. With the option [DateTimeAgnostic] and without [UUIDAgnostic] the
    comparison passes, and leaves the world as it is, when the object
    differs from the golden file only in the value of a time: both hold,
    after the same bytes that are neither digits nor capital letters and
    before the same text, a time of the same kind. *)
Theorem comparison_ignores_the_value_of_a_time
    (goldenFile : text) (actualObj : object) (opts : CompareOptions) (w : world)
    (absPath : list text) (pre post t1 t2 : text) :
  DateTimeAgnostic opts = true →
  UUIDAgnostic opts = false →
  filepath.Abs (cwd w) goldenFile = Ok absPath →
  ioutil.ReadFile absPath w = Ok (pre ++ t1 ++ post) →
  serialize actualObj opts = Ok (pre ++ t2 ++ post) →
  Forall (λ c, isQuiet c = true) pre →
  sameKind post t1 t2 →
  testableCompareWithGolden false goldenFile actualObj opts w = (w, Ok ()).
Proof.
  intros Ht Hu HAbs Hread Hser Hpre Hkind.
  apply (compare_equal_normal_forms _ _ _ _ _ _ _ HAbs Hser Hread).
  unfold normalize. rewrite Hu, Ht. cbn [mbind result_bind].
  by rewrite (replaceTimes_sameKind pre post t1 t2 Hpre Hkind).
Qed.

Lemma comparison_ignores_the_value_of_a_time_witness :
  (DateTimeAgnostic timeOptions = true
   ∧ UUIDAgnostic timeOptions = false
   ∧ filepath.Abs (cwd stampWorld) (T "stamp.golden") = Ok [T "work"; T "stamp.golden"]
   ∧ ioutil.ReadFile [T "work"; T "stamp.golden"] stampWorld
     = Ok (T "at " ++ renderSpan span2017 ++ T ", ok")
   ∧ serialize (textObject (T "at 2020-02-29t23:59:60+05:30, ok")) timeOptions
     = Ok (T "at " ++ renderSpan span2020 ++ T ", ok")
   ∧ Forall (λ c, isQuiet c = true) (T "at ")
   ∧ sameKind (T ", ok") (renderSpan span2017) (renderSpan span2020))
  ∧ testableCompareWithGolden false (T "stamp.golden")
      (textObject (T "at 2020-02-29t23:59:60+05:30, ok")) timeOptions stampWorld
    = (stampWorld, Ok ()).
Proof.
  assert (H1 : DateTimeAgnostic timeOptions = true) by reflexivity.
  assert (H2 : UUIDAgnostic timeOptions = false) by reflexivity.
  assert (H3 : filepath.Abs (cwd stampWorld) (T "stamp.golden")
               = Ok [T "work"; T "stamp.golden"]) by (vm_compute; reflexivity).
  assert (H4 : ioutil.ReadFile [T "work"; T "stamp.golden"] stampWorld
               = Ok (T "at " ++ renderSpan span2017 ++ T ", ok")) by (vm_compute; reflexivity).
  assert (H5 : serialize (textObject (T "at 2020-02-29t23:59:60+05:30, ok")) timeOptions
               = Ok (T "at " ++ renderSpan span2020 ++ T ", ok")) by (vm_compute; reflexivity).
  assert (H6 : Forall (λ c, isQuiet c = true) (T "at ")) by (repeat constructor).
  assert (H7 : sameKind (T ", ok") (renderSpan span2017) (renderSpan span2020))
    by (by apply sameKind_rfc3339).
  split; [by split_and!|].
  exact (comparison_ignores_the_value_of_a_time (T "stamp.golden")
           (textObject (T "at 2020-02-29t23:59:60+05:30, ok")) timeOptions stampWorld
           [T "work"; T "stamp.golden"] (T "at ") (T ", ok")
           (renderSpan span2017) (renderSpan span2020) H1 H2 H3 H4 H5 H6 H7).
Defined.

(** X10. An update in a file system that is a tree, where nothing above
    the golden file is a regular file and the golden file is no
    directory: the directories above the golden file exist afterwards,
    the golden file holds the normalised text of the object whatever it
    held before, nothing beside the path of the golden file has changed,
    the file system is still a tree, and the result is no error or the
    error of a mismatch. *)
Theorem update_creates_directories_and_writes_the_normal_form
    (goldenFile : text) (actualObj : object) (opts : CompareOptions) (w : world)
    (absPath : list text) (actual : text) :
  wellFormed w →
  filepath.Abs (cwd w) goldenFile = Ok absPath →
  serialize actualObj opts = Ok actual →
  (∀ q d, q `prefix_of` filepath.Dir absPath → files w !! q ≠ Some (File d)) →
  os.lookup absPath w ≠ Some Directory →
  ∃ w1 r tmp,
    testableCompareWithGolden true goldenFile actualObj opts w = (w1, r)
    ∧ normalize opts actual = Ok tmp
    ∧ ioutil.ReadFile absPath w1 = Ok tmp
    ∧ (∀ q, q `prefix_of` filepath.Dir absPath → os.lookup q w1 = Some Directory)
    ∧ (∀ q, ¬ q `prefix_of` absPath → os.lookup q w1 = os.lookup q w)
    ∧ cwd w1 = cwd w
    ∧ wellFormed w1
    ∧ (r = Ok () ∨ ∃ expectedStr actualStr, r = Err (mismatch absPath expectedStr actualStr)).
Proof.
  intros Hwf HAbs Hser Hfiles Hp.
  destruct (updateGolden_ok absPath actual opts w Hwf Hfiles Hp)
    as (w1 & tmp & Htmp & Hup & Hcwd & Hwf1 & Hread & Hdirs & Hsame).
  destruct (normalize_total opts tmp) as [e He].
  exists w1, (if bool_decide (e = tmp) then Ok () else Err (mismatch absPath e tmp)), tmp.
  split_and!; try done.
  - by rewrite (testableCompareWithGolden_unfold _ _ _ _ _ _ _ HAbs Hser), Hup, Hread, He, Htmp.
  - destruct (bool_decide (e = tmp)); [by left|right; by eauto].
Qed.

Lemma update_creates_directories_and_writes_the_normal_form_witness :
  (wellFormed emptyWorld
   ∧ filepath.Abs (cwd emptyWorld) (T "not/existing/folder/file.golden.json")
     = Ok [T "work"; T "not"; T "existing"; T "folder"; T "file.golden.json"]
   ∧ serialize (textObject (T "at 2017-04-21T04:38:26.777609Z")) agnosticOptions
     = Ok (T "at 2017-04-21T04:38:26.777609Z")
   ∧ (∀ q d, q `prefix_of` filepath.Dir
                 [T "work"; T "not"; T "existing"; T "folder"; T "file.golden.json"] →
             files emptyWorld !! q ≠ Some (File d))
   ∧ os.lookup [T "work"; T "not"; T "existing"; T "folder"; T "file.golden.json"] emptyWorld
     ≠ Some Directory)
  ∧ ∃ w1 r tmp,
      testableCompareWithGolden true (T "not/existing/folder/file.golden.json")
        (textObject (T "at 2017-04-21T04:38:26.777609Z")) agnosticOptions emptyWorld = (w1, r)
      ∧ normalize agnosticOptions (T "at 2017-04-21T04:38:26.777609Z") = Ok tmp
      ∧ ioutil.ReadFile [T "work"; T "not"; T "existing"; T "folder"; T "file.golden.json"] w1
        = Ok tmp
      ∧ (∀ q, q `prefix_of` filepath.Dir
                  [T "work"; T "not"; T "existing"; T "folder"; T "file.golden.json"] →
              os.lookup q w1 = Some Directory)
      ∧ (∀ q, ¬ q `prefix_of`
                  [T "work"; T "not"; T "existing"; T "folder"; T "file.golden.json"] →
              os.lookup q w1 = os.lookup q emptyWorld)
      ∧ cwd w1 = cwd emptyWorld
      ∧ wellFormed w1
      ∧ (r = Ok ()
         ∨ ∃ expectedStr actualStr,
             r = Err (mismatch
                        [T "work"; T "not"; T "existing"; T "folder"; T "file.golden.json"]
                        expectedStr actualStr)).
Proof.
  assert (Hone : ∀ q n, files emptyWorld !! q = Some n → q = [T "work"] ∧ n = Directory).
  { intros q n Hq. unfold emptyWorld in Hq. cbn [files] in Hq.
    by apply lookup_singleton_Some in Hq as [<- <-]. }
  assert (H1 : wellFormed emptyWorld).
  { intros q [n Hq]. by destruct (Hone q n Hq) as [-> _]. }
  assert (H2 : filepath.Abs (cwd emptyWorld) (T "not/existing/folder/file.golden.json")
               = Ok [T "work"; T "not"; T "existing"; T "folder"; T "file.golden.json"])
    by (vm_compute; reflexivity).
  assert (H3 : serialize (textObject (T "at 2017-04-21T04:38:26.777609Z")) agnosticOptions
               = Ok (T "at 2017-04-21T04:38:26.777609Z")) by reflexivity.
  assert (H4 : ∀ q d, q `prefix_of` filepath.Dir
                        [T "work"; T "not"; T "existing"; T "folder"; T "file.golden.json"] →
                      files emptyWorld !! q ≠ Some (File d)).
  { intros q d _ Hq. by destruct (Hone q _ Hq) as [_ ?]. }
  assert (H5 : os.lookup [T "work"; T "not"; T "existing"; T "folder"; T "file.golden.json"]
                 emptyWorld ≠ Some Directory).
  { cbn [os.lookup]. intros Hq. by destruct (Hone _ _ Hq) as [? _]. }
  split; [by split_and!|].
  exact (update_creates_directories_and_writes_the_normal_form
           (T "not/existing/folder/file.golden.json")
           (textObject (T "at 2017-04-21T04:38:26.777609Z")) agnosticOptions emptyWorld
           [T "work"; T "not"; T "existing"; T "folder"; T "file.golden.json"]
           (T "at 2017-04-21T04:38:26.777609Z") H1 H2 H3 H4 H5).
Defined.

(** X11. An update below a regular file fails: in a file system that is a
    tree, when a regular file stands at a path above the golden file, the
    update returns the error of the directory that could not be created,
    which wraps the error of the file system naming that file, and the
    world is left as it is. *)
Theorem update_below_a_file_fails_and_writes_nothing
    (goldenFile : text) (actualObj : object) (opts : CompareOptions) (w : world)
    (absPath q : list text) (actual d : text) :
  wellFormed w →
  filepath.Abs (cwd w) goldenFile = Ok absPath →
  serialize actualObj opts = Ok actual →
  q `prefix_of` filepath.Dir absPath →
  files w !! q = Some (File d) →
  testableCompareWithGolden true goldenFile actualObj opts w
  = (w, Err (ErrorfW
               (T "failed to create directory (and potential parents dirs) to write golden file to: %w")
               [] (PathError "mkdir" q ENOTDIR))).
Proof.
  intros Hwf HAbs Hser Hq Hfile.
  rewrite (testableCompareWithGolden_unfold _ _ _ _ _ _ _ HAbs Hser).
  unfold updateGolden, writing, mbind, io_bind, os.MkdirAll.
  rewrite (mkdirAll_rev_below_file (rev (filepath.Dir absPath)) w q d Hwf); [done| |done].
  by rewrite rev_involutive.
Qed.

Lemma update_below_a_file_fails_and_writes_nothing_witness :
  (wellFormed helloWorld
   ∧ filepath.Abs (cwd helloWorld) (T "hello.golden/new.golden")
     = Ok [T "work"; T "hello.golden"; T "new.golden"]
   ∧ serialize (textObject (T "hello")) plainOptions = Ok (T "hello")
   ∧ [T "work"; T "hello.golden"]
       `prefix_of` filepath.Dir [T "work"; T "hello.golden"; T "new.golden"]
   ∧ files helloWorld !! [T "work"; T "hello.golden"] = Some (File (T "hello")))
  ∧ testableCompareWithGolden true (T "hello.golden/new.golden") (textObject (T "hello"))
      plainOptions helloWorld
    = (helloWorld,
       Err (ErrorfW
              (T "failed to create directory (and potential parents dirs) to write golden file to: %w")
              [] (PathError "mkdir" [T "work"; T "hello.golden"] ENOTDIR))).
Proof.
  assert (H1 : wellFormed helloWorld).
  { intros q [n Hq]. unfold helloWorld in Hq. cbn [files] in Hq.
    apply lookup_insert_Some in Hq as [[<- _]|[_ Hq]].
    - split; [done|]. vm_compute. reflexivity.
    - by apply lookup_singleton_Some in Hq as [<- _]. }
  assert (H2 : filepath.Abs (cwd helloWorld) (T "hello.golden/new.golden")
               = Ok [T "work"; T "hello.golden"; T "new.golden"]) by (vm_compute; reflexivity).
  assert (H3 : serialize (textObject (T "hello")) plainOptions = Ok (T "hello"))
    by reflexivity.
  assert (H4 : [T "work"; T "hello.golden"]
                 `prefix_of` filepath.Dir [T "work"; T "hello.golden"; T "new.golden"])
    by (by exists []).
  assert (H5 : files helloWorld !! [T "work"; T "hello.golden"] = Some (File (T "hello")))
    by (vm_compute; reflexivity).
  split; [by split_and!|].
  exact (update_below_a_file_fails_and_writes_nothing (T "hello.golden/new.golden")
           (textObject (T "hello")) plainOptions helloWorld
           [T "work"; T "hello.golden"; T "new.golden"] [T "work"; T "hello.golden"]
           (T "hello") (T "hello") H1 H2 H3 H4 H5).
Defined.

(** X12. Every error of the comparison is one of seven: the path that
    could not be made absolute, the object that could not be marshalled,
    the object of a type that cannot be converted, the directory that
    could not be created, the golden file that could not be written, the
    golden file that could not be read, or the mismatch of two different
    normalised texts.  The two replacements never fail, so their errors
    are never returned; the read fails only when there is no update; and
    the world is changed only by an update that has created the
    directory. *)
Theorem errors_of_the_comparison
    (update : bool) (goldenFile : text) (actualObj : object) (opts : CompareOptions)
    (w w' : world) (e : error) :
  testableCompareWithGolden update goldenFile actualObj opts w = (w', Err e) →
  failure update goldenFile actualObj opts w w' e.
Proof.
  intros Hrun.
  destruct (filepath.Abs (cwd w) goldenFile) as [absPath|cause] eqn:HAbs.
  2: { unfold testableCompareWithGolden, reading, mbind, io_bind in Hrun.
       rewrite HAbs in Hrun. cbn [wrap] in Hrun. injection Hrun as <- <-.
       by apply failure_abs. }
  destruct (serialize actualObj opts) as [actual|cause] eqn:Hser.
  2: { unfold testableCompareWithGolden, reading, pure, mbind, io_bind in Hrun.
       rewrite HAbs in Hrun. cbn [wrap] in Hrun. rewrite Hser in Hrun.
       injection Hrun as <- <-. unfold serialize in Hser.
       destruct (MarshalInputAsJSON opts) eqn:Hopt.
       - destruct (MarshalIndent actualObj) as [|c] eqn:Hm; [done|].
         injection Hser as <-. by apply failure_marshal.
       - destruct (dyn actualObj) eqn:Hdyn; try done. injection Hser as <-.
         by apply failure_type. }
  rewrite (testableCompareWithGolden_unfold _ _ _ _ _ _ _ HAbs Hser) in Hrun.
  destruct (normalize_total opts actual) as [tmp Htmp]. rewrite Htmp in Hrun.
  assert (Htail : ∀ w1, (update = false → w1 = w) →
            match ioutil.ReadFile absPath w1 with
            | Ok expected =>
                match normalize opts expected with
                | Ok expectedStr =>
                    (w1, if bool_decide (expectedStr = tmp) then Ok ()
                         else Err (mismatch absPath expectedStr tmp))
                | Err e0 => (w1, Err e0)
                end
            | Err e0 =>
                (w1, Err (ErrorfW (T "failed to read golden file %q: %w")
                            [filepath.toString absPath] e0))
            end = (w', Err e) →
            (update = true → ∃ data, ioutil.ReadFile absPath w1 = Ok data) →
            failure update goldenFile actualObj opts w w' e).
  { intros w1 Hw1 Hcmp Hwritten.
    destruct (ioutil.ReadFile absPath w1) as [expected|cause] eqn:Hread.
    - destruct (normalize_total opts expected) as [es Hes]. rewrite Hes in Hcmp.
      destruct (bool_decide_reflect (es = tmp)) as [|Hne]; [done|].
      injection Hcmp as <- <-.
      by apply (failure_mismatch _ _ _ _ _ _ absPath expected actual).
    - injection Hcmp as <- <-. destruct update.
      + destruct Hwritten as [data Hdata]; [done|]. congruence.
      + apply (failure_read _ _ _ _ _ _ absPath cause); [done|done|done|by apply Hw1]. }
  destruct update.
  - unfold updateGolden, writing, pure, mbind, io_bind in Hrun.
    destruct (os.MkdirAll (filepath.Dir absPath) w) as [wd|cause] eqn:Hmk; cbn [wrap] in Hrun.
    2: { injection Hrun as <- <-. by apply (failure_mkdir _ _ _ _ _ _ absPath). }
    rewrite Htmp in Hrun.
    destruct (ioutil.WriteFile absPath tmp wd) as [w1|cause] eqn:Hwr; cbn [wrap] in Hrun.
    2: { injection Hrun as <- <-. by apply (failure_write _ _ _ _ _ _ absPath actual tmp). }
    apply (Htail w1); [done|exact Hrun|].
    intros _. exists tmp. by apply (WriteFile_read absPath tmp wd).
  - apply (Htail w); [done|exact Hrun|done].
Qed.

Lemma errors_of_the_comparison_witness :
  testableCompareWithGolden false (T "hello.golden") (textObject (T "help")) plainOptions
    helloWorld
  = (helloWorld, Err (mismatch [T "work"; T "hello.golden"] (T "hello") (T "help")))
  ∧ failure false (T "hello.golden") (textObject (T "help")) plainOptions helloWorld helloWorld
      (mismatch [T "work"; T "hello.golden"] (T "hello") (T "help")).
Proof.
  assert (H : testableCompareWithGolden false (T "hello.golden") (textObject (T "help"))
                plainOptions helloWorld
              = (helloWorld, Err (mismatch [T "work"; T "hello.golden"] (T "hello") (T "help"))))
    by (vm_compute; reflexivity).
  split; [exact H|].
  exact (errors_of_the_comparison false (T "hello.golden") (textObject (T "help")) plainOptions
           helloWorld helloWorld _ H).
Defined.

(** X13. A text without a hyphen and without a capital letter is its own
    normal form: the finder finds no UUID in it, and [replaceUUIDs],
    [replaceTimes] and the normalisation with any options return it
    unchanged. *)
Theorem text_without_hyphen_and_capital_is_left_alone (opts : CompareOptions) (s : text) :
  Forall (λ c, c ≠ "-"%char ∧ isUpper c = false) s →
  findUUIDs s = Ok []
  ∧ replaceUUIDs s = Ok s
  ∧ replaceTimes s = Ok s
  ∧ normalize opts s = Ok s.
Proof.
  intros Hs.
  assert (Hh : Forall (λ c, c ≠ "-"%char) s) by (eapply Forall_impl; [exact Hs|]; by intros c []).
  assert (Hu : Forall (λ c, isUpper c = false) s)
    by (eapply Forall_impl; [exact Hs|]; by intros c []).
  destruct (hyphen_free_uuids s Hh) as [Hfind Hrep].
  assert (Htimes : replaceTimes s = Ok s).
  { unfold replaceTimes. rewrite hyphen_free_rfc3339 by done.
    rewrite <- (app_nil_r s) at 1. rewrite ReplaceAllString_lastModified_nonupper by done.
    unfold ReplaceAllString. cbn. by rewrite app_nil_r. }
  split_and!; [done|done|done|].
  unfold normalize. destruct (UUIDAgnostic opts), (DateTimeAgnostic opts);
    rewrite ?Hrep; cbn [wrap mbind result_bind]; by rewrite ?Htimes.
Qed.

Lemma text_without_hyphen_and_capital_is_left_alone_witness :
  Forall (λ c, c ≠ "-"%char ∧ isUpper c = false) (T "hello 42")
  ∧ findUUIDs (T "hello 42") = Ok []
  ∧ replaceUUIDs (T "hello 42") = Ok (T "hello 42")
  ∧ replaceTimes (T "hello 42") = Ok (T "hello 42")
  ∧ normalize agnosticOptions (T "hello 42") = Ok (T "hello 42").
Proof.
  assert (H : Forall (λ c, c ≠ "-"%char ∧ isUpper c = false) (T "hello 42"))
    by (repeat constructor; done).
  split; [exact H|].
  exact (text_without_hyphen_and_capital_is_left_alone agnosticOptions (T "hello 42") H).
Defined.

(** X14. A golden file written by an update passes the next run: without
    the option for times, and with the UUIDs of the object in lower case
    between plain bytes when the option for UUIDs is set, an update in a
    file system that is a tree (nothing above the golden file a regular
    file, the golden file no directory) returns no error, and the
    comparison without update that follows it returns no error and leaves
    the world as the update left it. *)
Theorem updated_golden_file_passes_the_next_run
    (goldenFile : text) (actualObj : object) (opts : CompareOptions) (w : world)
    (absPath : list text) (actual : text) :
  wellFormed w →
  filepath.Abs (cwd w) goldenFile = Ok absPath →
  serialize actualObj opts = Ok actual →
  (∀ q d, q `prefix_of` filepath.Dir absPath → files w !! q ≠ Some (File d)) →
  os.lookup absPath w ≠ Some Directory →
  DateTimeAgnostic opts = false →
  (UUIDAgnostic opts = true → wellDelimited actual = true) →
  ∃ w1, testableCompareWithGolden true goldenFile actualObj opts w = (w1, Ok ())
        ∧ testableCompareWithGolden false goldenFile actualObj opts w1 = (w1, Ok ()).
Proof.
  intros Hwf HAbs Hser Hfiles Hp Ht Hu.
  destruct (updateGolden_ok absPath actual opts w Hwf Hfiles Hp)
    as (w1 & tmp & Htmp & Hup & Hcwd & _ & Hread & _).
  assert (Hagain : normalize opts tmp = Ok tmp).
  { unfold normalize in *. rewrite Ht in *. destruct (UUIDAgnostic opts); [|done].
    destruct (replaceUUIDs actual) as [out|] eqn:Hout; [|done].
    cbn [wrap mbind result_bind] in Htmp. injection Htmp as <-.
    pose proof (replaceUUIDs_delimited_settled actual out (Hu eq_refl) Hout) as Hnone.
    unfold replaceUUIDs. by rewrite Hnone. }
  exists w1. split.
  - rewrite (testableCompareWithGolden_unfold _ _ _ _ _ _ _ HAbs Hser), Hup, Hread.
    by rewrite Hagain, Htmp, bool_decide_eq_true_2.
  - rewrite <- Hcwd in HAbs.
    apply (compare_equal_normal_forms _ _ _ _ _ _ _ HAbs Hser Hread). by rewrite Hagain.
Qed.

Lemma updated_golden_file_passes_the_next_run_witness :
  (wellFormed emptyWorld
   ∧ filepath.Abs (cwd emptyWorld) (T "ids.golden") = Ok [T "work"; T "ids.golden"]
   ∧ serialize (textObject delimitedText) uuidOptions = Ok delimitedText
   ∧ (∀ q d, q `prefix_of` filepath.Dir [T "work"; T "ids.golden"] →
             files emptyWorld !! q ≠ Some (File d))
   ∧ os.lookup [T "work"; T "ids.golden"] emptyWorld ≠ Some Directory
   ∧ DateTimeAgnostic uuidOptions = false
   ∧ (UUIDAgnostic uuidOptions = true → wellDelimited delimitedText = true))
  ∧ ∃ w1, testableCompareWithGolden true (T "ids.golden") (textObject delimitedText)
            uuidOptions emptyWorld = (w1, Ok ())
          ∧ testableCompareWithGolden false (T "ids.golden") (textObject delimitedText)
              uuidOptions w1 = (w1, Ok ()).
Proof.
  assert (Hone : ∀ q n, files emptyWorld !! q = Some n → q = [T "work"] ∧ n = Directory).
  { intros q n Hq. unfold emptyWorld in Hq. cbn [files] in Hq.
    by apply lookup_singleton_Some in Hq as [<- <-]. }
  assert (H1 : wellFormed emptyWorld).
  { intros q [n Hq]. by destruct (Hone q n Hq) as [-> _]. }
  assert (H2 : filepath.Abs (cwd emptyWorld) (T "ids.golden") = Ok [T "work"; T "ids.golden"])
    by (vm_compute; reflexivity).
  assert (H3 : serialize (textObject delimitedText) uuidOptions = Ok delimitedText)
    by reflexivity.
  assert (H4 : ∀ q d, q `prefix_of` filepath.Dir [T "work"; T "ids.golden"] →
                      files emptyWorld !! q ≠ Some (File d)).
  { intros q d _ Hq. by destruct (Hone q _ Hq) as [_ ?]. }
  assert (H5 : os.lookup [T "work"; T "ids.golden"] emptyWorld ≠ Some Directory).
  { cbn [os.lookup]. intros Hq. by destruct (Hone _ _ Hq) as [? _]. }
  assert (H6 : DateTimeAgnostic uuidOptions = false) by reflexivity.
  assert (H7 : UUIDAgnostic uuidOptions = true → wellDelimited delimitedText = true)
    by (intros _; reflexivity).
  split; [by split_and!|].
  exact (updated_golden_file_passes_the_next_run (T "ids.golden") (textObject delimitedText)
           uuidOptions emptyWorld [T "work"; T "ids.golden"] delimitedText
           H1 H2 H3 H4 H5 H6 H7).
Defined.

(** X15. The absolute path of the golden file, which the messages print,
    has no empty component and no component [.] or [..]; as a name of the
    golden file it resolves to itself, and the comparison with it in the
    place of the name returns the same result and the same world.  The
    components of the working directory hold no separator. *)
Theorem printed_path_names_the_golden_file
    (update : bool) (goldenFile : text) (actualObj : object) (opts : CompareOptions)
    (w : world) (absPath : list text) :
  match cwd w with Some d => Forall (λ c, "/"%char ∉ c) d | None => True end →
  filepath.Abs (cwd w) goldenFile = Ok absPath →
  Forall kept absPath
  ∧ filepath.IsAbs (filepath.toString absPath) = true
  ∧ filepath.Abs (cwd w) (filepath.toString absPath) = Ok absPath
  ∧ testableCompareWithGolden update (filepath.toString absPath) actualObj opts w
    = testableCompareWithGolden update goldenFile actualObj opts w.
Proof.
  intros Hwd HAbs. destruct (Abs_clean _ _ _ Hwd HAbs) as [Hk Hs].
  destruct (Abs_toString (cwd w) absPath Hk Hs) as [Hisabs Hsame].
  split_and!; [done|done|done|]. by apply (compare_same_path _ _ _ _ _ _ absPath).
Qed.

Lemma printed_path_names_the_golden_file_witness :
  (match cwd helloWorld with Some d => Forall (λ c, "/"%char ∉ c) d | None => True end
   ∧ filepath.Abs (cwd helloWorld) (T "./sub/..//hello.golden")
     = Ok [T "work"; T "hello.golden"])
  ∧ Forall kept [T "work"; T "hello.golden"]
  ∧ filepath.IsAbs (filepath.toString [T "work"; T "hello.golden"]) = true
  ∧ filepath.Abs (cwd helloWorld) (filepath.toString [T "work"; T "hello.golden"])
    = Ok [T "work"; T "hello.golden"]
  ∧ testableCompareWithGolden false (filepath.toString [T "work"; T "hello.golden"])
      (textObject (T "hello")) plainOptions helloWorld
    = testableCompareWithGolden false (T "./sub/..//hello.golden")
        (textObject (T "hello")) plainOptions helloWorld.
Proof.
  assert (H1 : match cwd helloWorld with
               | Some d => Forall (λ c, "/"%char ∉ c) d
               | None => True
               end).
  { cbn. constructor; [|constructor]. intros H. vm_compute in H.
    repeat (apply elem_of_cons in H as [H|H]; [discriminate H|]). by apply elem_of_nil in H. }
  assert (H2 : filepath.Abs (cwd helloWorld) (T "./sub/..//hello.golden")
               = Ok [T "work"; T "hello.golden"]) by (vm_compute; reflexivity).
  split; [by split|].
  exact (printed_path_names_the_golden_file false (T "./sub/..//hello.golden")
           (textObject (T "hello")) plainOptions helloWorld [T "work"; T "hello.golden"]
           H1 H2).
Defined.

Section reading_facts.

(** Without an update the comparison leaves the world as it is. *)
Lemma compare_reads_only goldenFile actualObj opts w :
  (testableCompareWithGolden false goldenFile actualObj opts w).1 = w.
Proof.
  destruct (filepath.Abs (cwd w) goldenFile) as [absPath|cause] eqn:HAbs.
  2: { unfold testableCompareWithGolden, reading, mbind, io_bind. by rewrite HAbs. }
  destruct (serialize actualObj opts) as [actual|cause] eqn:Hser.
  2: { unfold testableCompareWithGolden, reading, pure, mbind, io_bind.
       rewrite HAbs. cbn [wrap]. by rewrite Hser. }
  rewrite (testableCompareWithGolden_unfold _ _ _ _ _ _ _ HAbs Hser).
  destruct (ioutil.ReadFile absPath w) as [expected|e]; [|done].
  destruct (normalize opts expected), (normalize opts actual); done.
Qed.

End reading_facts.

(** X16. The language of the first pattern of [replaceTimes] is exactly
    the well-formed RFC3339 times (a year of one or more digits, month,
    day, hour, minute and second of two digits in their ranges, an
    optional fraction, and a zone [Z], [z] or an offset), where the sign
    of an offset may also be written [|]; so every span that the first
    pass replaces in a text is such a time. *)
Theorem first_pass_replaces_rfc3339_times_only (s m : text) :
  (matches rfc3339Pattern m
   ↔ ∃ sp, validSpan sp = true ∧ (m = renderSpan sp ∨ m = renderSpanBar sp))
  ∧ (m ∈ FindAllString rfc3339Pattern s →
     ∃ sp, validSpan sp = true ∧ (m = renderSpan sp ∨ m = renderSpanBar sp)).
Proof.
  split; [apply matches_rfc3339_iff|].
  intros Hm. by apply matches_rfc3339_iff, (FindAllString_matches _ s).
Qed.

(** X17. The language of the second pattern of [replaceTimes] is exactly
    the last-modified times: the name of a day, a comma and a space, a
    day of two digits, the name of a month, a year of four digits, hour,
    minute and second of two digits in their ranges, and a zone of one or
    more capital letters, with single spaces and colons between them; so
    every span that the second pass replaces in a text is such a time.
    The day is not checked against the month. *)
Theorem second_pass_replaces_last_modified_times_only (s m : text) :
  (matches lastModifiedPattern m ↔ ∃ d, validDate d = true ∧ m = renderDate d)
  ∧ (m ∈ FindAllString lastModifiedPattern s → ∃ d, validDate d = true ∧ m = renderDate d).
Proof.
  split; [apply matches_lastModified_iff|].
  intros Hm. by apply matches_lastModified_iff, (FindAllString_matches _ s).
Qed.

(** X18. [CompareWithGolden] without the flag [-update] only reads: it
    leaves the world as it is whatever the result; when the comparison
    returns no error the test is left as it is and goes on, and when it
    returns an error the test is marked as failed, that error is added to
    its log and the test function stops. *)
Theorem comparison_without_update_only_reads
    (t : testingT) (goldenFile : text) (actualObj : object) (opts : CompareOptions)
    (w : world) :
  (testableCompareWithGolden false goldenFile actualObj opts w).1 = w
  ∧ ∃ t' go,
      CompareWithGolden false t goldenFile actualObj opts w = (w, t', go)
      ∧ (go = true ↔ (testableCompareWithGolden false goldenFile actualObj opts w).2 = Ok ())
      ∧ (go = true → t' = t)
      ∧ (go = false →
         failed t' = true
         ∧ ∃ e, logged t' = logged t ++ [e]
                ∧ (testableCompareWithGolden false goldenFile actualObj opts w).2 = Err e).
Proof.
  pose proof (compare_reads_only goldenFile actualObj opts w) as Hw.
  split; [done|]. unfold CompareWithGolden.
  destruct (testableCompareWithGolden false goldenFile actualObj opts w) as [w' [[]|e]] eqn:Hrun;
    cbn [fst snd] in *; subst w'.
  - exists t, true. split_and!; done.
  - exists (Fatal e t), false. split_and!; [done|done|done|].
    intros _. split; [done|]. by exists e.
Qed.
